(** * The playlist queue of the youtube-player controller

    A shallow embedding of [src/controller.js]: the queue and its two
    playback modes, the link and timestamp parsing that feeds it, and the
    state that is written to and read back from local storage.

    The controller is a JavaScript object mutated by event handlers.  Its
    fields are a record, the handlers are computations in a small state and
    exception monad over that record, the local storage and the list of
    calls made on the embedded player.  Rendering (the [update...Display]
    methods, notifications) has no effect on those and is kept as
    computations that do nothing, so that the handlers read as in the
    source. *)

From Stdlib Require Import String Ascii List ZArith Lia Bool Arith Permutation.
Import ListNotations.

Local Open Scope Z_scope.
Local Open Scope list_scope.

(** ** JavaScript values used by the controller *)

(** [currentVideoIndex] is [null] or a number in the source; reading a
    record without the key gives [undefined], and arithmetic on that gives
    [NaN].  Numbers that occur are integers; the sign of zero is not
    tracked. *)
Inductive Index : Type :=
| INull
| IUndefined
| INaN
| INum (z : Z).

(** A form-control value (a string) or a number: the volume fields. *)
Inductive Scalar : Type :=
| Num (z : Z)
| Str (s : string).

Definition truthy (v : Scalar) : bool :=
  match v with
  | Num z => negb (z =? 0)
  | Str s => negb (String.eqb s "")
  end.

(** [addedAt] is a [Date] when the item is created; [JSON.stringify] writes
    it as its ISO string, and [JSON.parse] gives that string back.  Both
    carry the instant in milliseconds. *)
Inductive Timestamp : Type :=
| DateObject (ms : Z)
| IsoString (ms : Z).

Definition toJSON_Timestamp (t : Timestamp) : Timestamp :=
  match t with
  | DateObject ms => IsoString ms
  | IsoString ms => IsoString ms
  end.

(** [index !== null] *)
Definition not_null (i : Index) : bool :=
  match i with
  | INull => false
  | _ => true
  end.

(** [a % b]: the remainder of the truncated division, [NaN] for a zero
    divisor. *)
Definition js_rem (a b : Z) : Index :=
  if b =? 0 then INaN else INum (Z.rem a b).

(** [(index + 1) % len], where [null + 1] is [1]. *)
Definition succ_rem (i : Index) (len : Z) : Index :=
  match i with
  | INull => js_rem 1 len
  | INum z => js_rem (z + 1) len
  | IUndefined | INaN => INaN
  end.

(** [index === 0 ? len - 1 : index - 1] *)
Definition pred_wrap (i : Index) (len : Z) : Index :=
  match i with
  | INull => INum (-1)
  | INum z => if z =? 0 then INum (len - 1) else INum (z - 1)
  | IUndefined | INaN => INaN
  end.

(** [a === b], [a < b], [a > b], [a >= b], [a <= b] on indices: [===]
    holds between equal numbers, between [null] and [null] and between
    [undefined] and [undefined]; the orderings convert [null] to [0] and are
    false as soon as one side is [undefined] or [NaN]. *)
Definition strict_eq (a b : Index) : bool :=
  match a, b with
  | INum x, INum y => x =? y
  | INull, INull => true
  | IUndefined, IUndefined => true
  | _, _ => false
  end.

Definition num_of (i : Index) : option Z :=
  match i with
  | INum z => Some z
  | INull => Some 0
  | IUndefined | INaN => None
  end.

Definition js_compare (cmp : Z -> Z -> bool) (a b : Index) : bool :=
  match num_of a, num_of b with
  | Some x, Some y => cmp x y
  | _, _ => false
  end.

Definition js_lt : Index -> Index -> bool := js_compare Z.ltb.
Definition js_gt : Index -> Index -> bool := js_compare Z.gtb.
Definition js_le : Index -> Index -> bool := js_compare Z.leb.
Definition js_ge : Index -> Index -> bool := js_compare Z.geb.

(** [index--] and [index++] *)
Definition decr (i : Index) : Index :=
  match num_of i with Some z => INum (z - 1) | None => INaN end.
Definition incr (i : Index) : Index :=
  match num_of i with Some z => INum (z + 1) | None => INaN end.

(** The integer a built-in method makes of an index argument
    ([ToIntegerOrInfinity]): [0] for [null], [undefined] and [NaN]. *)
Definition to_integer (i : Index) : Z :=
  match i with
  | INum z => z
  | _ => 0
  end.

(** ** Arrays *)

Section Arrays.
Context {A : Type}.

(** [array[n]] for a number [n]: [undefined] ([None]) outside the array. *)
Definition at_Z (l : list A) (n : Z) : option A :=
  if n <? 0 then None else nth_error l (Z.to_nat n).

(** [array[index]] *)
Definition at_Index (l : list A) (i : Index) : option A :=
  match i with
  | INum z => at_Z l z
  | _ => None
  end.

(** The start position [Array.prototype.splice] works with: a negative
    [start] counts from the end, and the result is clamped to the array. *)
Definition relative_start (len start : Z) : Z :=
  if start <? 0 then Z.max (len + start) 0 else Z.min start len.

(** [array.splice(start, deleteCount, ...items)], the array afterwards. *)
Definition splice (l : list A) (start deleteCount : Z) (items : list A) : list A :=
  let len := Z.of_nat (length l) in
  let s := relative_start len start in
  let d := Z.min (Z.max deleteCount 0) (len - s) in
  firstn (Z.to_nat s) l ++ items ++ skipn (Z.to_nat (s + d)) l.

(** [array.findIndex(p)] *)
Fixpoint findIndex_from (p : A -> bool) (l : list A) (k : Z) : Z :=
  match l with
  | [] => -1
  | x :: t => if p x then k else findIndex_from p t (k + 1)
  end.

Definition findIndex (p : A -> bool) (l : list A) : Z := findIndex_from p l 0.
End Arrays.

(** ** Data model *)

Record QueueItem : Type := {
  videoId : string;
  title : string;
  channel : string;
  thumbnail : string;
  username : option string;
  startTime : option Z;
  addedAt : Timestamp
}.

(** What [JSON.parse (JSON.stringify item)] is. *)
Definition toJSON_QueueItem (i : QueueItem) : QueueItem :=
  {| videoId := videoId i; title := title i; channel := channel i;
     thumbnail := thumbnail i; username := username i;
     startTime := startTime i; addedAt := toJSON_Timestamp (addedAt i) |}.

(** [this.player]: absent, created but not yet ready (the API methods are
    not there), or ready. *)
Inductive Player : Type :=
| NoPlayer
| PlayerCreated
| PlayerReady.

(** The fields of the controller ([this]).  [currentVideo] is [None] for
    [null] and for [undefined], which the source does not tell apart. *)
Record Controller : Type := {
  queue : list QueueItem;
  currentVideo : option QueueItem;
  currentVideoIndex : Index;
  autoplay : bool;
  preservePlaylist : bool;
  channelNameValue : string;
  isMuted : bool;
  previousVolume : Scalar;
  savedVolume : option Scalar;
  draggedIndex : Index;
  player : Player
}.

(** The [static values] of the controller, with their declared defaults;
    the page can set other values on the element. *)
Record Values : Type := {
  channelName_value : string;
  autoplay_value : bool;
  preservePlaylist_value : bool
}.

Definition default_values : Values :=
  {| channelName_value := ""; autoplay_value := false; preservePlaylist_value := true |}.

(** ** The durable record *)

(** [currentVideoIndex] in a parsed record. *)
Inductive JsonIndex : Type :=
| KeyAbsent
| JsonNull
| JsonNumber (z : Z).

(** The object [JSON.parse] returns, seen through the keys [loadState]
    reads.  A field is [None] when the key is missing, holds [null], or
    holds a value of another type than [saveState] writes there (for
    [queue] a value that is not an array, for the flags a value that is not
    a boolean): [loadState] passes over all of these alike.  The items and
    the index, when present, have the types [saveState] writes. *)
Record SavedState : Type := {
  s_queue : option (list QueueItem);
  s_currentVideo : option QueueItem;
  s_currentVideoIndex : JsonIndex;
  s_autoplay : option bool;
  s_preservePlaylist : option bool;
  s_channelName : option string;
  s_volume : option Scalar;
  s_isMuted : option bool;
  s_previousVolume : option Scalar
}.

(** The item [youtubePlayerState] of the local storage. *)
Inductive Storage : Type :=
| NoRecord                 (* [getItem] gives [null] or the empty string *)
| Garbled                  (* a text on which [JSON.parse] throws, or that parses to [null] *)
| Saved (r : SavedState).

Definition Index_of_JsonIndex (j : JsonIndex) : Index :=
  match j with
  | KeyAbsent => IUndefined
  | JsonNull => INull
  | JsonNumber z => INum z
  end.

(** [JSON.stringify] leaves out a key whose value is [undefined] and writes
    [NaN] as [null]. *)
Definition toJSON_Index (i : Index) : JsonIndex :=
  match i with
  | IUndefined => KeyAbsent
  | INull | INaN => JsonNull
  | INum z => JsonNumber z
  end.

(** ** The world the handlers run in *)

Inductive PlayerCall : Type :=
| loadVideoById (id : string) (start : Z)
| cueVideoById (id : string) (start : Z)
| stopVideo
| destroy
| setVolume (volume : Scalar).

Record World : Type := {
  this : Controller;
  localStorage : Storage;
  volumeSlider : Scalar;              (* [volumeSliderTarget.value] *)
  calls : list PlayerCall             (* calls made on the player, oldest first *)
}.

Inductive Error : Type :=
| TypeError
| SyntaxError.

Inductive Completion (A : Type) : Type :=
| Normal (a : A)
| Throw (e : Error).
Arguments Normal {A} a.
Arguments Throw {A} e.

(** A handler: it completes normally or throws, and leaves a world either
    way. *)
Definition M (A : Type) : Type := World -> Completion A * World.

Definition ret {A} (a : A) : M A := fun w => (Normal a, w).

Definition bind {A B} (m : M A) (k : A -> M B) : M B :=
  fun w =>
    match m w with
    | (Normal a, w') => k a w'
    | (Throw e, w') => (Throw e, w')
    end.

Definition throw {A} (e : Error) : M A := fun w => (Throw e, w).

(** [try { body } catch (error) { handler }] *)
Definition try_catch {A} (body : M A) (handler : Error -> M A) : M A :=
  fun w =>
    match body w with
    | (Normal a, w') => (Normal a, w')
    | (Throw e, w') => handler e w'
    end.

Definition get_this : M Controller := fun w => (Normal (this w), w).

Definition update (f : Controller -> Controller) : M unit :=
  fun w => (Normal tt, {| this := f (this w); localStorage := localStorage w;
                          volumeSlider := volumeSlider w; calls := calls w |}).

Definition setItem (r : Storage) : M unit :=
  fun w => (Normal tt, {| this := this w; localStorage := r;
                          volumeSlider := volumeSlider w; calls := calls w |}).

Definition getItem : M Storage := fun w => (Normal (localStorage w), w).

Definition slider_value : M Scalar := fun w => (Normal (volumeSlider w), w).

Definition set_slider_value (v : Scalar) : M unit :=
  fun w => (Normal tt, {| this := this w; localStorage := localStorage w;
                          volumeSlider := v; calls := calls w |}).

Definition call_player (c : PlayerCall) : M unit :=
  fun w => (Normal tt, {| this := this w; localStorage := localStorage w;
                          volumeSlider := volumeSlider w; calls := calls w ++ [c] |}).

Declare Scope js_scope.
Delimit Scope js_scope with js.
Notation "x <- m ;; k" := (bind m (fun x => k))
  (at level 100, m at next level, right associativity) : js_scope.
Notation "m ;; k" := (bind m (fun _ => k))
  (at level 100, right associativity) : js_scope.
Local Open Scope js_scope.

(** The world after a handler has run, however it completed. *)
Definition after {A} (m : M A) (w : World) : World := snd (m w).

(** Field assignments. *)
Definition set_queue (q : list QueueItem) (c : Controller) : Controller :=
  {| queue := q; currentVideo := currentVideo c; currentVideoIndex := currentVideoIndex c;
     autoplay := autoplay c; preservePlaylist := preservePlaylist c;
     channelNameValue := channelNameValue c; isMuted := isMuted c;
     previousVolume := previousVolume c; savedVolume := savedVolume c;
     draggedIndex := draggedIndex c; player := player c |}.

Definition set_currentVideo (v : option QueueItem) (c : Controller) : Controller :=
  {| queue := queue c; currentVideo := v; currentVideoIndex := currentVideoIndex c;
     autoplay := autoplay c; preservePlaylist := preservePlaylist c;
     channelNameValue := channelNameValue c; isMuted := isMuted c;
     previousVolume := previousVolume c; savedVolume := savedVolume c;
     draggedIndex := draggedIndex c; player := player c |}.

Definition set_currentVideoIndex (i : Index) (c : Controller) : Controller :=
  {| queue := queue c; currentVideo := currentVideo c; currentVideoIndex := i;
     autoplay := autoplay c; preservePlaylist := preservePlaylist c;
     channelNameValue := channelNameValue c; isMuted := isMuted c;
     previousVolume := previousVolume c; savedVolume := savedVolume c;
     draggedIndex := draggedIndex c; player := player c |}.

Definition set_autoplay (b : bool) (c : Controller) : Controller :=
  {| queue := queue c; currentVideo := currentVideo c; currentVideoIndex := currentVideoIndex c;
     autoplay := b; preservePlaylist := preservePlaylist c;
     channelNameValue := channelNameValue c; isMuted := isMuted c;
     previousVolume := previousVolume c; savedVolume := savedVolume c;
     draggedIndex := draggedIndex c; player := player c |}.

Definition set_preservePlaylist (b : bool) (c : Controller) : Controller :=
  {| queue := queue c; currentVideo := currentVideo c; currentVideoIndex := currentVideoIndex c;
     autoplay := autoplay c; preservePlaylist := b;
     channelNameValue := channelNameValue c; isMuted := isMuted c;
     previousVolume := previousVolume c; savedVolume := savedVolume c;
     draggedIndex := draggedIndex c; player := player c |}.

Definition set_channelNameValue (s : string) (c : Controller) : Controller :=
  {| queue := queue c; currentVideo := currentVideo c; currentVideoIndex := currentVideoIndex c;
     autoplay := autoplay c; preservePlaylist := preservePlaylist c;
     channelNameValue := s; isMuted := isMuted c;
     previousVolume := previousVolume c; savedVolume := savedVolume c;
     draggedIndex := draggedIndex c; player := player c |}.

Definition set_isMuted (b : bool) (c : Controller) : Controller :=
  {| queue := queue c; currentVideo := currentVideo c; currentVideoIndex := currentVideoIndex c;
     autoplay := autoplay c; preservePlaylist := preservePlaylist c;
     channelNameValue := channelNameValue c; isMuted := b;
     previousVolume := previousVolume c; savedVolume := savedVolume c;
     draggedIndex := draggedIndex c; player := player c |}.

Definition set_previousVolume (v : Scalar) (c : Controller) : Controller :=
  {| queue := queue c; currentVideo := currentVideo c; currentVideoIndex := currentVideoIndex c;
     autoplay := autoplay c; preservePlaylist := preservePlaylist c;
     channelNameValue := channelNameValue c; isMuted := isMuted c;
     previousVolume := v; savedVolume := savedVolume c;
     draggedIndex := draggedIndex c; player := player c |}.

Definition set_savedVolume (v : option Scalar) (c : Controller) : Controller :=
  {| queue := queue c; currentVideo := currentVideo c; currentVideoIndex := currentVideoIndex c;
     autoplay := autoplay c; preservePlaylist := preservePlaylist c;
     channelNameValue := channelNameValue c; isMuted := isMuted c;
     previousVolume := previousVolume c; savedVolume := v;
     draggedIndex := draggedIndex c; player := player c |}.

Definition set_draggedIndex (d : Index) (c : Controller) : Controller :=
  {| queue := queue c; currentVideo := currentVideo c; currentVideoIndex := currentVideoIndex c;
     autoplay := autoplay c; preservePlaylist := preservePlaylist c;
     channelNameValue := channelNameValue c; isMuted := isMuted c;
     previousVolume := previousVolume c; savedVolume := savedVolume c;
     draggedIndex := d; player := player c |}.

Definition set_player (p : Player) (c : Controller) : Controller :=
  {| queue := queue c; currentVideo := currentVideo c; currentVideoIndex := currentVideoIndex c;
     autoplay := autoplay c; preservePlaylist := preservePlaylist c;
     channelNameValue := channelNameValue c; isMuted := isMuted c;
     previousVolume := previousVolume c; savedVolume := savedVolume c;
     draggedIndex := draggedIndex c; player := p |}.

(** ** Rendering and notifications *)

(** These methods write to the page only. *)
Definition updateQueueDisplay : M unit := ret tt.
Definition updateCurrentVideoDisplay : M unit := ret tt.
Definition hideCurrentVideoInfo : M unit := ret tt.
Definition updatePlayPauseIcon (isPlaying : bool) : M unit := ret tt.
Definition updateVolumeIcon : M unit := ret tt.
Definition startProgressTracking : M unit := ret tt.
Definition showSuccess (message : string) : M unit := ret tt.
Definition showInfo (message : string) : M unit := ret tt.
Definition console_error (message : string) : M unit := ret tt.

(** ** Persistence *)

Definition saveState : M unit :=
  c <- get_this ;;
  v <- slider_value ;;
  setItem (Saved
    {| s_queue := Some (map toJSON_QueueItem (queue c));
       s_currentVideo := option_map toJSON_QueueItem (currentVideo c);
       s_currentVideoIndex := toJSON_Index (currentVideoIndex c);
       s_autoplay := Some (autoplay c);
       s_preservePlaylist := Some (preservePlaylist c);
       s_channelName := Some (channelNameValue c);
       s_volume := Some (if truthy v then v else Num 50);
       s_isMuted := Some (isMuted c);
       s_previousVolume := Some (previousVolume c) |}).

(** An optional statement [if (cond) { ... }] on a field of the record. *)
Definition when_some {A} (o : option A) (k : A -> M unit) : M unit :=
  match o with
  | Some a => k a
  | None => ret tt
  end.

Definition loadState : M unit :=
  try_catch
    (savedState <- getItem ;;
     match savedState with
     | NoRecord => ret tt
     | Garbled => throw SyntaxError
     | Saved state =>
         when_some (s_queue state) (fun q =>
           update (set_queue q) ;; updateQueueDisplay) ;;
         when_some (s_currentVideo state) (fun v =>
           update (set_currentVideo (Some v)) ;;
           update (set_currentVideoIndex (Index_of_JsonIndex (s_currentVideoIndex state))) ;;
           updateCurrentVideoDisplay) ;;
         when_some (s_autoplay state) (fun b => update (set_autoplay b)) ;;
         when_some (s_preservePlaylist state) (fun b => update (set_preservePlaylist b)) ;;
         when_some (s_channelName state) (fun n =>
           if String.eqb n "" then ret tt else update (set_channelNameValue n)) ;;
         when_some (s_volume state) (fun v =>
           if truthy v then update (set_savedVolume (Some v)) else ret tt) ;;
         when_some (s_isMuted state) (fun b => update (set_isMuted b)) ;;
         when_some (s_previousVolume state) (fun v =>
           if truthy v then update (set_previousVolume v) else ret tt)
     end)
    (fun _ => console_error "Failed to load state from localStorage:").

(** The controller as [connect] sets it up before it reads the storage;
    [savedVolume] and [draggedIndex] are not assigned there. *)
Definition fresh (v : Values) : Controller :=
  {| queue := []; currentVideo := None; currentVideoIndex := INull;
     autoplay := autoplay_value v; preservePlaylist := preservePlaylist_value v;
     channelNameValue := channelName_value v; isMuted := false;
     previousVolume := Num 50; savedVolume := None;
     draggedIndex := IUndefined; player := NoPlayer |}.

(** [connect], up to and including [loadState].  The player set-up, the
    import of a shared playlist and the chat connection follow in the
    source. *)
Definition connect (v : Values) : M unit :=
  update (fun _ => fresh v) ;;
  loadState.

(** ** Playback *)

(** [item.startTime || 0] *)
Definition start_seconds (i : QueueItem) : Z :=
  match startTime i with
  | Some z => z
  | None => 0
  end.

(** [createPlayer] makes the player object; its methods are there once the
    player reports that it is ready, which is when [onPlayerReady] runs. *)
Definition createPlayer : M unit := update (set_player PlayerCreated).

(** [value || 50] on [savedVolume] *)
Definition volume_or_50 (v : option Scalar) : Scalar :=
  match v with
  | Some x => if truthy x then x else Num 50
  | None => Num 50
  end.

Definition onPlayerReady : M unit :=
  update (set_player PlayerReady) ;;
  c <- get_this ;;
  call_player (setVolume (volume_or_50 (savedVolume c))) ;;
  set_slider_value (volume_or_50 (savedVolume c)) ;;
  when_some (currentVideo c) (fun v =>
    call_player (cueVideoById (videoId v) (start_seconds v))) ;;
  updateQueueDisplay ;;
  updateVolumeIcon ;;
  startProgressTracking.

Definition playNext (manual : bool) : M unit :=
  c <- get_this ;;
  match queue c with
  | [] =>
      update (set_currentVideo None) ;;
      update (set_currentVideoIndex INull) ;;
      hideCurrentVideoInfo
  | head :: tail =>
      (if preservePlaylist c then
         update (set_currentVideoIndex
                   (if not_null (currentVideoIndex c)
                    then succ_rem (currentVideoIndex c) (Z.of_nat (length (queue c)))
                    else INum 0)) ;;
         update (fun c => set_currentVideo (at_Index (queue c) (currentVideoIndex c)) c)
       else
         update (set_currentVideo (Some head)) ;;
         update (set_queue tail) ;;
         update (set_currentVideoIndex INull)) ;;
      updateQueueDisplay ;;
      updateCurrentVideoDisplay ;;
      saveState ;;
      c <- get_this ;;
      match player c with
      | PlayerReady =>
          match currentVideo c with
          | None => throw TypeError
          | Some v =>
              if manual || autoplay c
              then call_player (loadVideoById (videoId v) (start_seconds v))
              else call_player (cueVideoById (videoId v) (start_seconds v))
          end
      | _ => ret tt
      end
  end.

Definition previous : M unit :=
  c <- get_this ;;
  match player c with
  | NoPlayer => ret tt
  | p =>
      if preservePlaylist c && (0 <? Z.of_nat (length (queue c)))
      then
        update (set_currentVideoIndex
                  (if not_null (currentVideoIndex c)
                   then pred_wrap (currentVideoIndex c) (Z.of_nat (length (queue c)))
                   else INum 0)) ;;
        update (fun c => set_currentVideo (at_Index (queue c) (currentVideoIndex c)) c) ;;
        updateQueueDisplay ;;
        updateCurrentVideoDisplay ;;
        saveState ;;
        c <- get_this ;;
        match p, currentVideo c with
        | PlayerReady, Some v => call_player (loadVideoById (videoId v) (start_seconds v))
        | _, _ => throw TypeError
        end
      else showInfo "Previous functionality only available in preserve playlist mode"
  end.

Definition next : M unit := playNext true.

Definition reset : M unit :=
  c <- get_this ;;
  (match player c with
   | NoPlayer => ret tt
   | _ => call_player destroy ;; update (set_player NoPlayer)
   end) ;;
  update (set_queue []) ;;
  update (set_currentVideo None) ;;
  updateQueueDisplay ;;
  hideCurrentVideoInfo ;;
  updatePlayPauseIcon false ;;
  saveState ;;
  showSuccess "Player reset successfully".

Definition stop : M unit :=
  c <- get_this ;;
  match player c with
  | NoPlayer => ret tt
  | PlayerCreated => throw TypeError
  | PlayerReady =>
      call_player stopVideo ;;
      update (set_currentVideo None) ;;
      hideCurrentVideoInfo ;;
      updatePlayPauseIcon false ;;
      saveState ;;
      match queue c with
      | [] => reset
      | _ :: _ => if autoplay c then playNext false else ret tt
      end
  end.

(** [toggleAutoplay] and [togglePreservePlaylist] read the state of a
    checkbox, given here as [checked]. *)
Definition toggleAutoplay (checked : bool) : M unit :=
  update (set_autoplay checked) ;;
  saveState.

Definition togglePreservePlaylist (checked : bool) : M unit :=
  update (set_preservePlaylist checked) ;;
  saveState ;;
  c <- get_this ;;
  (match preservePlaylist c, currentVideo c with
   | true, Some v =>
       update (set_currentVideoIndex
                 (INum (findIndex (fun item => String.eqb (videoId item) (videoId v)) (queue c))))
   | _, _ => update (set_currentVideoIndex INull)
   end) ;;
  updateQueueDisplay.

(** ** Queue operations *)

(** The answer of the metadata service to one request.  A field of the
    answer is [None] when the key is missing or its value is falsy. *)
Record Noembed : Type := {
  nd_title : option string;
  author_name : option string;
  thumbnail_url : option string
}.

Inductive Response : Type :=
| NetworkFailure            (* [fetch] rejects *)
| NotJson                   (* [response.json()] rejects *)
| Json (data : Noembed).

Record VideoInfo : Type := {
  vi_title : string;
  vi_channel : string;
  vi_thumbnail : string
}.

(** [value || fallback] on an optional string. *)
Definition or_else (value : option string) (fallback : string) : string :=
  match value with
  | Some s => if String.eqb s "" then fallback else s
  | None => fallback
  end.

Definition default_thumbnail (videoId : string) : string :=
  ("https://img.youtube.com/vi/" ++ videoId ++ "/mqdefault.jpg")%string.

Definition fetchVideoInfo (videoId : string) (r : Response) : M VideoInfo :=
  match r with
  | NetworkFailure => throw TypeError
  | NotJson => throw SyntaxError
  | Json data =>
      ret {| vi_title := or_else (nd_title data) "Unknown Title";
             vi_channel := or_else (author_name data) "Unknown Channel";
             vi_thumbnail := or_else (thumbnail_url data) (default_thumbnail videoId) |}
  end.

(** [array.push(item)] *)
Definition push (item : QueueItem) (c : Controller) : Controller :=
  set_queue (queue c ++ [item]) c.

(** [queue.some(item => item.videoId === videoId)] *)
Definition in_queue (videoId0 : string) (c : Controller) : bool :=
  existsb (fun item => String.eqb (videoId item) videoId0) (queue c).

(** The item pushed when the lookup has failed. *)
Definition placeholder (videoId0 : string) (username0 : option string)
    (startTime0 : option Z) (now : Z) : QueueItem :=
  {| videoId := videoId0;
     title := ("Video " ++ videoId0)%string;
     channel := "Unknown";
     thumbnail := default_thumbnail videoId0;
     username := username0;
     startTime := startTime0;
     addedAt := DateObject now |}.

(** [addToQueue] once the lookup has answered: the [try] statement.  [r] is
    the answer and [now] the reading of the clock ([new Date()]). *)
Definition addToQueue_resume (videoId0 : string) (username0 : option string)
    (startTime0 : option Z) (r : Response) (now : Z) : M unit :=
  try_catch
    (videoInfo <- fetchVideoInfo videoId0 r ;;
     let queueItem :=
       {| videoId := videoId0;
          title := vi_title videoInfo;
          channel := vi_channel videoInfo;
          thumbnail := vi_thumbnail videoInfo;
          username := username0;
          startTime := startTime0;
          addedAt := DateObject now |} in
     update (push queueItem) ;;
     updateQueueDisplay ;;
     saveState ;;
     c <- get_this ;;
     match currentVideo c with
     | None => playNext false
     | Some _ => ret tt
     end)
    (fun error =>
       console_error "Failed to fetch video info:" ;;
       update (push (placeholder videoId0 username0 startTime0 now)) ;;
       updateQueueDisplay).

(** [addToQueue], run from the call to the end of its body: the check for
    the identifier in the queue, then the lookup and the [try] statement. *)
Definition addToQueue (videoId0 : string) (username0 : option string)
    (startTime0 : option Z) (r : Response) (now : Z) : M unit :=
  c <- get_this ;;
  if in_queue videoId0 c
  then ret tt
  else addToQueue_resume videoId0 username0 startTime0 r now.

(** [removeFromQueue]; [index] is read from the element that was clicked. *)
Definition removeFromQueue (index : Z) : M unit :=
  update (fun c => set_queue (splice (queue c) index 1 []) c) ;;
  updateQueueDisplay ;;
  saveState.

Definition clearQueue : M unit :=
  update (set_queue []) ;;
  updateQueueDisplay ;;
  saveState.

(** [dragStart] and [drop] find the queue item under the pointer, if any,
    and read its index: [None] when there is no such element. *)
Definition dragStart (queueItem : option Z) : M unit :=
  match queueItem with
  | None => ret tt
  | Some index => update (set_draggedIndex (INum index))
  end.

Definition dragEnd : M unit :=
  update (set_draggedIndex INull).

(** The adjustment of [currentVideoIndex] in [drop]. *)
Definition rebase (dropIndex : Z) (c : Controller) : Controller :=
  if preservePlaylist c && not_null (currentVideoIndex c)
  then
    if strict_eq (draggedIndex c) (currentVideoIndex c)
    then set_currentVideoIndex (INum dropIndex) c
    else if js_lt (draggedIndex c) (currentVideoIndex c)
            && js_ge (INum dropIndex) (currentVideoIndex c)
    then set_currentVideoIndex (decr (currentVideoIndex c)) c
    else if js_gt (draggedIndex c) (currentVideoIndex c)
            && js_le (INum dropIndex) (currentVideoIndex c)
    then set_currentVideoIndex (incr (currentVideoIndex c)) c
    else c
  else c.

(** [drop].  When [draggedIndex] designates no item, the source inserts
    [undefined] into the array and the rendering that follows throws on
    that entry; the queue of this model holds items only, so the world left
    with the [TypeError] has the array without that entry. *)
Definition drop (dropTarget : option Z) : M unit :=
  c <- get_this ;;
  match dropTarget with
  | None => ret tt
  | Some dropIndex =>
      if negb (not_null (draggedIndex c)) then ret tt
      else if strict_eq (draggedIndex c) (INum dropIndex) then ret tt
      else
        let draggedItem := at_Index (queue c) (draggedIndex c) in
        update (fun c => set_queue (splice (queue c) (to_integer (draggedIndex c)) 1 []) c) ;;
        match draggedItem with
        | Some item =>
            update (fun c => set_queue (splice (queue c) dropIndex 0 [item]) c) ;;
            update (rebase dropIndex) ;;
            updateQueueDisplay ;;
            saveState
        | None =>
            update (rebase dropIndex) ;;
            throw TypeError
        end
  end.

(** A whole drag gesture from the item at [fromIndex] to the item at
    [toIndex]: the [dragstart], [drop] and [dragend] events, one handler
    after the other.  An exception in [drop] does not keep [dragend] from
    being delivered; the completion is that of [drop]. *)
Definition reorder (fromIndex toIndex : Z) : M unit :=
  fun w =>
    let w1 := after (dragStart (Some fromIndex)) w in
    let (r, w2) := drop (Some toIndex) w1 in
    (r, after dragEnd w2).

(** ** Regular expressions *)

(** The regular expressions of the source are matched by backtracking, with
    the priorities of JavaScript: the first alternative first, as many
    repetitions as possible first.  [run] lists the ways an expression
    matches at a position, in that order of priority, so that the head of
    the list is the match the source gets.  Strings are sequences of 8-bit
    characters. *)
Inductive regex : Type :=
| Eps                                   (* the empty expression *)
| Class (p : ascii -> bool)             (* one character of a class *)
| Seq (r1 r2 : regex)
| Alt (r1 r2 : regex)                   (* [r1|r2] *)
| Star (r : regex)                      (* [r*] *)
| Group (n : nat) (r : regex)           (* the [n]-th capturing group *)
| Bol                                   (* [^] *)
| Eol.                                  (* [$] *)

Record MState : Type := {
  pos : nat;                            (* characters before the position *)
  rest : list ascii;                    (* characters from the position on *)
  caps : list (nat * list ascii)        (* captures, the latest first *)
}.

Definition step_char (s : MState) (t : list ascii) : MState :=
  {| pos := S (pos s); rest := t; caps := caps s |}.

Definition capture (n : nat) (from to : MState) : MState :=
  {| pos := pos to; rest := rest to;
     caps := (n, firstn (pos to - pos from) (rest from)) :: caps to |}.

(** The repetitions of [step] from [s]: another round first, provided it
    has consumed something, then none. *)
Fixpoint iterate (step : MState -> list MState) (fuel : nat) (s : MState) : list MState :=
  match fuel with
  | O => [s]
  | S fuel' =>
      flat_map (fun s' =>
                  if (length (rest s') <? length (rest s))%nat
                  then iterate step fuel' s'
                  else [])
               (step s)
      ++ [s]
  end.

Fixpoint run (r : regex) (s : MState) : list MState :=
  match r with
  | Eps => [s]
  | Class p =>
      match rest s with
      | c :: t => if p c then [step_char s t] else []
      | [] => []
      end
  | Seq r1 r2 => flat_map (run r2) (run r1 s)
  | Alt r1 r2 => run r1 s ++ run r2 s
  | Star r1 => iterate (run r1) (length (rest s)) s
  | Group n r1 => map (capture n s) (run r1 s)
  | Bol => if (pos s =? 0)%nat then [s] else []
  | Eol => match rest s with [] => [s] | _ :: _ => [] end
  end.

Record Match : Type := {
  matched : list ascii;
  groups : list (nat * list ascii)
}.

(** The leftmost match: the first position from which [r] matches, and the
    match of highest priority there. *)
Fixpoint search (r : regex) (p : nat) (l : list ascii) : option Match :=
  match run r {| pos := p; rest := l; caps := [] |} with
  | s :: _ => Some {| matched := firstn (pos s - p) l; groups := caps s |}
  | [] =>
      match l with
      | [] => None
      | _ :: t => search r (S p) t
      end
  end.

(** [text.match(r)] without the [g] flag; with it, the first element of the
    array returned is [matched] of the same result. *)
Definition exec (r : regex) (text : list ascii) : option Match := search r 0 text.

(** [match[n]] *)
Fixpoint group (n : nat) (gs : list (nat * list ascii)) : list ascii :=
  match gs with
  | [] => []
  | (k, v) :: t => if (k =? n)%nat then v else group n t
  end.

Definition chr (c : ascii) : regex := Class (Ascii.eqb c).

Fixpoint lit (s : string) : regex :=
  match s with
  | EmptyString => Eps
  | String c t => Seq (chr c) (lit t)
  end.

Definition opt (r : regex) : regex := Alt r Eps.
Definition plus (r : regex) : regex := Seq r (Star r).

Fixpoint rep (n : nat) (r : regex) : regex :=
  match n with
  | O => Eps
  | S k => Seq r (rep k r)
  end.

Fixpoint seq_of (rs : list regex) : regex :=
  match rs with
  | [] => Eps
  | [r] => r
  | r :: t => Seq r (seq_of t)
  end.

Fixpoint alt_of (rs : list regex) : regex :=
  match rs with
  | [] => Eps
  | [r] => r
  | r :: t => Alt r (alt_of t)
  end.

(** Character classes. *)
Definition code (c : ascii) : nat := nat_of_ascii c.

(** [\d] *)
Definition digit (c : ascii) : bool := ((48 <=? code c) && (code c <=? 57))%nat.

(** [\s], as far as 8-bit characters go: tab, line feed, vertical tab, form
    feed, carriage return, space, no-break space. *)
Definition space (c : ascii) : bool :=
  ((9 <=? code c) && (code c <=? 13) || (code c =? 32) || (code c =? 160))%nat.

(** [.]: any character but a line terminator. *)
Definition dot (c : ascii) : bool := negb ((code c =? 10) || (code c =? 13))%nat.

Definition one_of (s : string) (c : ascii) : bool :=
  existsb (Ascii.eqb c) (list_ascii_of_string s).

(** [[^...\s]] for the characters of [s]. *)
Definition none_of_nor_space (s : string) (c : ascii) : bool :=
  negb (one_of s c) && negb (space c).

(** ** Links *)

(** [(?:https?:\/\/)?(?:www\.)?] *)
Definition scheme_www : regex :=
  Seq (opt (seq_of [lit "http"; opt (chr "s"); lit "://"])) (opt (lit "www.")).

(** [(?:[^\/]+\/.+\/|(?:v|e(?:mbed)?)\/|.*[?&]v=|shorts\/)] *)
Definition youtube_paths : regex :=
  alt_of
    [ seq_of [plus (Class (fun c => negb (Ascii.eqb c "/"))); chr "/"; plus (Class dot); chr "/"];
      seq_of [Alt (chr "v") (Seq (chr "e") (opt (lit "mbed"))); chr "/"];
      seq_of [Star (Class dot); Class (one_of "?&"); lit "v="];
      lit "shorts/" ].

(** The double quote. *)
Definition dquote : ascii := ascii_of_nat 34.

(** The tail of a link: as many characters as possible that are neither a
    double quote nor white space. *)
Definition link_tail : regex := Star (Class (none_of_nor_space (String dquote ""))).

Definition youtuBeRegex : regex :=
  seq_of [scheme_www; lit "youtu.be/"; link_tail].

Definition youtubeComRegex : regex :=
  seq_of [scheme_www; lit "youtube.com/"; youtube_paths; link_tail].

(** The identifier is group 1: eleven characters, none of them a double
    quote, [&], [?], [/] or white space. *)
Definition videoIdRegex : regex :=
  Seq (Alt (Seq (lit "youtube.com/") youtube_paths) (lit "youtu.be/"))
      (Group 1 (rep 11 (Class (none_of_nor_space (String dquote "&?/"))))).

Definition extractYoutubeUrl (text : string) : option string :=
  let t := list_ascii_of_string text in
  match exec youtuBeRegex t with
  | Some m => Some (string_of_list_ascii (matched m))
  | None =>
      match exec youtubeComRegex t with
      | Some m => Some (string_of_list_ascii (matched m))
      | None => None
      end
  end.

Definition extractVideoId (url : string) : option string :=
  match exec videoIdRegex (list_ascii_of_string url) with
  | Some m => Some (string_of_list_ascii (group 1 (groups m)))
  | None => None
  end.

(** *** The query of a link *)

(** [new URL(url, 'http://example.com').searchParams.get(name)]: the URL
    parser drops tabs and line breaks, the fragment starts at the first [#]
    and the query at the first [?] before it; the query is cut at every [&],
    each piece at its first [=], and in both halves [+] stands for a space
    and [%XY] for the character of that code. *)
Definition is_tab_or_newline (c : ascii) : bool :=
  ((code c =? 9) || (code c =? 10) || (code c =? 13))%nat.

Fixpoint before (sep : ascii) (l : list ascii) : list ascii :=
  match l with
  | [] => []
  | c :: t => if Ascii.eqb c sep then [] else c :: before sep t
  end.

Fixpoint behind (sep : ascii) (l : list ascii) : option (list ascii) :=
  match l with
  | [] => None
  | c :: t => if Ascii.eqb c sep then Some t else behind sep t
  end.

Definition url_query (url : list ascii) : list ascii :=
  match behind "?" (before "#" (filter (fun c => negb (is_tab_or_newline c)) url)) with
  | Some q => q
  | None => []
  end.

Fixpoint split_on (sep : ascii) (l : list ascii) : list (list ascii) :=
  match l with
  | [] => [[]]
  | c :: t =>
      if Ascii.eqb c sep then [] :: split_on sep t
      else match split_on sep t with
           | [] => [[c]]
           | piece :: pieces => (c :: piece) :: pieces
           end
  end.

Definition hex_value (c : ascii) : option nat :=
  let n := code c in
  if ((48 <=? n) && (n <=? 57))%nat then Some (n - 48)%nat
  else if ((65 <=? n) && (n <=? 70))%nat then Some (n - 55)%nat
  else if ((97 <=? n) && (n <=? 102))%nat then Some (n - 87)%nat
  else None.

Fixpoint form_decode (l : list ascii) : list ascii :=
  match l with
  | [] => []
  | c :: t =>
      if Ascii.eqb c "%" then
        match t with
        | h1 :: h2 :: t' =>
            match hex_value h1, hex_value h2 with
            | Some a, Some b => ascii_of_nat (16 * a + b) :: form_decode t'
            | _, _ => c :: form_decode t
            end
        | _ => c :: form_decode t
        end
      else if Ascii.eqb c "+" then " "%char :: form_decode t
      else c :: form_decode t
  end.

Definition list_ascii_eqb (a b : list ascii) : bool :=
  String.eqb (string_of_list_ascii a) (string_of_list_ascii b).

Fixpoint get_param (name : list ascii) (pieces : list (list ascii)) : option (list ascii) :=
  match pieces with
  | [] => None
  | [] :: t => get_param name t
  | piece :: t =>
      if list_ascii_eqb (form_decode (before "=" piece)) name
      then Some (form_decode (match behind "=" piece with Some v => v | None => [] end))
      else get_param name t
  end.

Definition searchParams_get (name : string) (url : string) : option (list ascii) :=
  get_param (list_ascii_of_string name) (split_on "&" (url_query (list_ascii_of_string url))).

(** *** The start offset *)

(** [parseInt] of a string of digits, as an exact integer (the rounding of
    numbers too large for a double is left out). *)
Definition digit_value (c : ascii) : Z := Z.of_nat (code c - 48).

Definition parseInt (l : list ascii) : Z :=
  fold_left (fun acc c => 10 * acc + digit_value c) l 0.

(** [(\d+)] as group [n] *)
Definition number (n : nat) : regex := Group n (plus (Class digit)).

(** [/^(\d+)$/], [/^(\d+)m(\d+)s?$/], [/^(\d+)m$/], [/^(\d+)s$/] *)
Definition secondsRegex : regex := seq_of [Bol; number 1; Eol].
Definition minutesSecondsRegex : regex :=
  seq_of [Bol; number 1; chr "m"; number 2; opt (chr "s"); Eol].
Definition minutesRegex : regex := seq_of [Bol; number 1; chr "m"; Eol].
Definition secondsOnlyRegex : regex := seq_of [Bol; number 1; chr "s"; Eol].

(** The part of [extractStartTime] that reads the value of [t]. *)
Definition parse_t (tParam : list ascii) : option Z :=
  match exec secondsRegex tParam with
  | Some secondsMatch => Some (parseInt (group 1 (groups secondsMatch)))
  | None =>
  match exec minutesSecondsRegex tParam with
  | Some minutesSecondsMatch =>
      Some (parseInt (group 1 (groups minutesSecondsMatch)) * 60
            + parseInt (group 2 (groups minutesSecondsMatch)))
  | None =>
  match exec minutesRegex tParam with
  | Some minutesMatch => Some (parseInt (group 1 (groups minutesMatch)) * 60)
  | None =>
  match exec secondsOnlyRegex tParam with
  | Some secondsOnlyMatch => Some (parseInt (group 1 (groups secondsOnlyMatch)))
  | None => None
  end end end end.

Definition extractStartTime (url : string) : option Z :=
  match searchParams_get "t" url with
  | None => None
  | Some [] => None
  | Some tParam => parse_t tParam
  end.


(** ** Links arriving *)

Definition showError (message : string) : M unit := ret tt.

(** [addToQueueByUrl]; [r] and [now] are the answer of the lookup and the
    reading of the clock that the call of [addToQueue] meets. *)
Definition addToQueueByUrl (url : string) (username0 : option string)
    (r : Response) (now : Z) : M unit :=
  match extractVideoId url with
  | None => showError "Could not extract video ID from URL"
  | Some videoId0 =>
      let startTime0 := extractStartTime url in
      addToQueue videoId0 username0 startTime0 r now
  end.

(** [processMessage] for a chat message and the name in its tags. *)
Definition processMessage (message : string) (username0 : string)
    (r : Response) (now : Z) : M unit :=
  match extractYoutubeUrl message with
  | Some youtubeUrl => addToQueueByUrl youtubeUrl (Some username0) r now
  | None => ret tt
  end.

(** [string.trim()], as far as 8-bit characters go. *)
Fixpoint trim_start (l : list ascii) : list ascii :=
  match l with
  | c :: t => if space c then trim_start t else l
  | [] => []
  end.

Definition trim (l : list ascii) : list ascii :=
  rev (trim_start (rev (trim_start l))).

(** [addYoutubeLink] on the text of the input field; the field itself is
    part of the page. *)
Definition addYoutubeLink (input : string) (r : Response) (now : Z) : M unit :=
  let url := string_of_list_ascii (trim (list_ascii_of_string input)) in
  if String.eqb url "" then showError "Please enter a YouTube URL"
  else
    match extractYoutubeUrl url with
    | None => showError "Invalid YouTube URL. Please enter a valid YouTube link."
    | Some youtubeUrl =>
        addToQueueByUrl youtubeUrl (Some "Manual"%string) r now ;;
        showSuccess "YouTube video added to queue!"
    end.

(** ** The player reports *)

(** [YT.PlayerState] *)
Inductive PlayerState : Type :=
| UNSTARTED | ENDED | PLAYING | PAUSED | BUFFERING | CUED.

Definition stopProgressTracking : M unit := ret tt.

Definition onPlayerStateChange (data : PlayerState) : M unit :=
  c <- get_this ;;
  match data with
  | ENDED => if autoplay c then playNext false else ret tt
  | PLAYING => updatePlayPauseIcon true ;; startProgressTracking
  | PAUSED => updatePlayPauseIcon false ;; stopProgressTracking
  | BUFFERING => stopProgressTracking
  | _ => ret tt
  end.

(** ** Sharing a playlist *)




(** ** The interval of the progress display *)

(** The interval that refreshes the progress bar is state of the page that
    the playlist never reads.  It is modelled here on its own: the field
    [progressInterval], the intervals the page has running, and the handle
    the next [setInterval] returns (handles are positive integers, each
    given once). *)
Module Progress.

Record Timers : Type := {
  progressInterval : option nat;
  running : list nat;
  next_handle : nat
}.

(** The page as it is opened. *)
Definition initial : Timers :=
  {| progressInterval := None; running := []; next_handle := 1 |}.

Definition setInterval (t : Timers) : nat * Timers :=
  (next_handle t,
   {| progressInterval := progressInterval t;
      running := next_handle t :: running t;
      next_handle := S (next_handle t) |}).

Definition clearInterval (h : nat) (t : Timers) : Timers :=
  {| progressInterval := progressInterval t;
     running := filter (fun x => negb (x =? h)%nat) (running t);
     next_handle := next_handle t |}.

Definition set_progressInterval (o : option nat) (t : Timers) : Timers :=
  {| progressInterval := o; running := running t; next_handle := next_handle t |}.

Definition stopProgressTracking (t : Timers) : Timers :=
  match progressInterval t with
  | Some h =>
      if (h =? 0)%nat then t
      else set_progressInterval None (clearInterval h t)
  | None => t
  end.

Definition startProgressTracking (t : Timers) : Timers :=
  let t := stopProgressTracking t in
  let (h, t) := setInterval t in
  set_progressInterval (Some h) t.

(** What [onPlayerReady] and [onPlayerStateChange] do to the interval. *)
Definition onPlayerReady (t : Timers) : Timers := startProgressTracking t.

Definition onPlayerStateChange (data : PlayerState) (t : Timers) : Timers :=
  match data with
  | PLAYING => startProgressTracking t
  | PAUSED | BUFFERING => stopProgressTracking t
  | _ => t
  end.

(** The reports of the player: it is ready ([None]) or changes its state. *)
Definition report (t : Timers) (r : option PlayerState) : Timers :=
  match r with
  | None => onPlayerReady t
  | Some data => onPlayerStateChange data t
  end.

End Progress.

(** * Vocabulary of the statements *)

(** ** Worlds and queues *)

(** The world after a controller update. *)
Definition with_this (f : Controller -> Controller) (w : World) : World :=
  after (update f) w.

(** Handlers run one after the other, as events arrive. *)
Definition run_events (ms : list (M unit)) (w : World) : World :=
  fold_left (fun w m => after m w) ms w.

(** The identifiers of a queue, in order. *)
Definition ids (q : list QueueItem) : list string := map videoId q.

(** The number of items, as the source's [queue.length]. *)
Definition len (q : list QueueItem) : Z := Z.of_nat (length q).

Definition in_range (q : list QueueItem) (i : Z) : Prop := 0 <= i < len q.


(** An index of the data model: null or an integer. *)
Definition valid_index (i : Index) : Prop := i = INull \/ exists z, i = INum z.

(** ** Enqueueing *)

(** The lookup has failed: the request, or the decoding of its answer. *)
Definition lookup_failed (r : Response) : bool :=
  match r with
  | Json _ => false
  | _ => true
  end.

(** The item made from the answer of the lookup. *)
Definition item_of (v : string) (u : option string) (st : option Z)
    (data : Noembed) (now : Z) : QueueItem :=
  {| videoId := v;
     title := or_else (nd_title data) "Unknown Title";
     channel := or_else (author_name data) "Unknown Channel";
     thumbnail := or_else (thumbnail_url data) (default_thumbnail v);
     username := u; startTime := st; addedAt := DateObject now |}.

(** The item a call appends, whatever the lookup answers. *)
Definition new_item (v : string) (u : option string) (st : option Z)
    (r : Response) (now : Z) : QueueItem :=
  match r with
  | Json data => item_of v u st data now
  | _ => placeholder v u st now
  end.

(** The world in which [addToQueue] calls [playNext]: the item is pushed
    and the state saved. *)
Definition pushed (i : QueueItem) (w : World) : World :=
  after saveState (with_this (push i) w).

(** One call of [addToQueue] with what it meets: its arguments, the answer
    of the lookup and the reading of the clock. *)
Record Call : Type := {
  c_videoId : string;
  c_username : option string;
  c_startTime : option Z;
  c_response : Response;
  c_now : Z
}.

Definition enqueue (c : Call) : M unit :=
  addToQueue (c_videoId c) (c_username c) (c_startTime c) (c_response c) (c_now c).



(** ** Reordering and removing *)

(** The list without its [n]-th item, and the list with [x] put in front
    of its [n]-th item. *)
Definition remove_at {A} (n : nat) (l : list A) : list A := firstn n l ++ skipn (S n) l.
Definition insert_at {A} (n : nat) (x : A) (l : list A) : list A :=
  firstn n l ++ x :: skipn n l.

(** Where the item at position [k] is after the item at [from] has been
    moved to [to]. *)
Definition rebased (from to k : Z) : Z :=
  if from =? k then to
  else if (from <? k) && (k <=? to) then k - 1
  else if (to <=? k) && (k <? from) then k + 1
  else k.

(** A handler rejects a request: it signals an error to its caller and
    leaves the queue, the current video and the index as they were. *)
Definition rejected (m : M unit) (w : World) : Prop :=
  (exists e, fst (m w) = Throw e)
  /\ queue (this (after m w)) = queue (this w)
  /\ currentVideo (this (after m w)) = currentVideo (this w)
  /\ currentVideoIndex (this (after m w)) = currentVideoIndex (this w).

(** ** The stored record *)

(** The record [saveState] writes. *)
Definition record_of (w : World) : SavedState :=
  {| s_queue := Some (map toJSON_QueueItem (queue (this w)));
     s_currentVideo := option_map toJSON_QueueItem (currentVideo (this w));
     s_currentVideoIndex := toJSON_Index (currentVideoIndex (this w));
     s_autoplay := Some (autoplay (this w));
     s_preservePlaylist := Some (preservePlaylist (this w));
     s_channelName := Some (channelNameValue (this w));
     s_volume := Some (if truthy (volumeSlider w) then volumeSlider w else Num 50);
     s_isMuted := Some (isMuted (this w));
     s_previousVolume := Some (previousVolume (this w)) |}.

(** What [loadState] makes of a record, field by field. *)
Definition opt_apply {A} (o : option A) (f : A -> Controller -> Controller)
    (c : Controller) : Controller :=
  match o with
  | Some a => f a c
  | None => c
  end.

Definition restore (r : SavedState) (c : Controller) : Controller :=
  opt_apply (s_previousVolume r) (fun v c => if truthy v then set_previousVolume v c else c)
    (opt_apply (s_isMuted r) set_isMuted
       (opt_apply (s_volume r) (fun v c => if truthy v then set_savedVolume (Some v) c else c)
          (opt_apply (s_channelName r)
             (fun n c => if String.eqb n "" then c else set_channelNameValue n c)
             (opt_apply (s_preservePlaylist r) set_preservePlaylist
                (opt_apply (s_autoplay r) set_autoplay
                   (opt_apply (s_currentVideo r)
                      (fun v c => set_currentVideoIndex
                                    (Index_of_JsonIndex (s_currentVideoIndex r))
                                    (set_currentVideo (Some v) c))
                      (opt_apply (s_queue r) set_queue c))))))).

(** The page is left and opened again: the state is written, and [connect]
    sets the controller up anew and reads the record. *)
Definition reload (v : Values) (w : World) : World :=
  after (connect v) (after saveState w).

(** An item as [JSON.parse] returns it: [addedAt] is a string. *)
Definition from_storage (i : QueueItem) : Prop := exists ms, addedAt i = IsoString ms.

(** ** The start offset of a link *)









(** ** Worlds and items of the examples *)

Definition sample (id : string) : QueueItem :=
  {| videoId := id; title := ("Title of " ++ id)%string; channel := "Channel";
     thumbnail := default_thumbnail id; username := Some "viewer"%string;
     startTime := None; addedAt := IsoString 1700000000000 |}.

Definition item_a : QueueItem := sample "AAAAAAAAAAA".
Definition item_b : QueueItem := sample "BBBBBBBBBBB".
Definition item_c : QueueItem := sample "CCCCCCCCCCC".
Definition item_d : QueueItem := sample "DDDDDDDDDDD".

(** The page before [connect] has run, with nothing stored. *)
Definition blank : World :=
  {| this := fresh default_values; localStorage := NoRecord;
     volumeSlider := Str "50"; calls := [] |}.

(** A world in preserve mode with the given queue and index, the player
    ready. *)
Definition playlist (q : list QueueItem) (i : Index) : World :=
  with_this (fun c => set_player PlayerReady
                        (set_currentVideo (at_Index q i)
                           (set_currentVideoIndex i (set_queue q c)))) blank.

(** An answer of the metadata service. *)
Definition answer (t : string) : Response :=
  Json {| nd_title := Some t; author_name := Some "Author"%string; thumbnail_url := None |}.

Definition call (id : string) (r : Response) (now : Z) : Call :=
  {| c_videoId := id; c_username := Some "viewer"%string; c_startTime := None;
     c_response := r; c_now := now |}.

(** A page is opened with nothing stored, the player gets ready, the mode
    is switched to consume, and two links arrive: the first video is loaded
    and leaves the queue, the second waits in the queue. *)
Definition consume_session : World :=
  run_events
    [ connect default_values; createPlayer; onPlayerReady;
      togglePreservePlaylist false;
      addToQueue "AAAAAAAAAAA" (Some "viewer"%string) None (answer "A") 1000;
      addToQueue "BBBBBBBBBBB" (Some "viewer"%string) None (answer "B") 2000 ]
    blank.

(** The item the first call of [consume_session] has made. *)
Definition loaded_a : QueueItem :=
  {| videoId := "AAAAAAAAAAA"; title := "A"; channel := "Author";
     thumbnail := default_thumbnail "AAAAAAAAAAA"; username := Some "viewer"%string;
     startTime := None; addedAt := DateObject 1000 |}.

(** A page is opened with nothing stored (so in preserve mode), the player
    gets ready, one link arrives and its video is loaded, and the viewer
    presses stop. *)
Definition stopped_session : World :=
  run_events
    [ connect default_values; createPlayer; onPlayerReady;
      addToQueue "AAAAAAAAAAA" (Some "viewer"%string) None (answer "A") 1000;
      stop ]
    blank.

(** A record as the earlier version of [saveState] wrote it, with the keys
    [queue], [currentVideo], [autoplay], [channelName] and [volume] only,
    and the page opened on it. *)
Definition older_record : SavedState :=
  {| s_queue := Some [item_b]; s_currentVideo := Some item_a;
     s_currentVideoIndex := KeyAbsent; s_autoplay := Some false;
     s_preservePlaylist := None; s_channelName := Some "channel"%string;
     s_volume := Some (Str "50"); s_isMuted := None; s_previousVolume := None |}.

Definition older_session : World :=
  run_events [connect default_values; createPlayer; onPlayerReady]
    {| this := fresh default_values; localStorage := Saved older_record;
       volumeSlider := Str "50"; calls := [] |}.

(** ** What a link and an identifier are made of *)

(** [s'] is reached from [s] by reading the characters [cs]. *)
Definition reads (s s' : MState) (cs : list ascii) : Prop :=
  rest s = cs ++ rest s' /\ pos s' = (pos s + length cs)%nat.

(** The characters an identifier is made of. *)
Definition id_char (c : ascii) : bool := none_of_nor_space (String dquote "&?/") c.

(** [part] occurs in [whole]. *)
Definition substring (part whole : string) : Prop :=
  exists pre post, whole = (pre ++ part ++ post)%string.

(** ** The handlers as functions on the controller *)

(** What [playNext] makes of the controller, and whether it throws. *)
Definition advanced (c : Controller) : Controller :=
  match queue c with
  | [] => set_currentVideoIndex INull (set_currentVideo None c)
  | x :: q =>
      if preservePlaylist c then
        let i := if not_null (currentVideoIndex c)
                 then succ_rem (currentVideoIndex c) (len (queue c))
                 else INum 0 in
        set_currentVideo (at_Index (queue c) i) (set_currentVideoIndex i c)
      else set_currentVideoIndex INull (set_queue q (set_currentVideo (Some x) c))
  end.

Definition playNext_throws (c : Controller) : bool :=
  match queue c, player c, currentVideo (advanced c) with
  | _ :: _, PlayerReady, None => true
  | _, _, _ => false
  end.

(** What [previous] makes of the controller, and whether it throws. *)
Definition previous_acts (c : Controller) : bool :=
  match player c with
  | NoPlayer => false
  | _ => preservePlaylist c && (0 <? len (queue c))
  end.

Definition stepped_back (c : Controller) : Controller :=
  if previous_acts c then
    let i := if not_null (currentVideoIndex c)
             then pred_wrap (currentVideoIndex c) (len (queue c))
             else INum 0 in
    set_currentVideo (at_Index (queue c) i) (set_currentVideoIndex i c)
  else c.

Definition previous_throws (c : Controller) : bool :=
  previous_acts c &&
  match player c, currentVideo (stepped_back c) with
  | PlayerReady, Some _ => false
  | _, _ => true
  end.

(** What [addToQueue] makes of the controller. *)
Definition enqueued (v : string) (u : option string) (st : option Z)
    (r : Response) (now : Z) (c : Controller) : Controller :=
  if in_queue v c then c
  else
    match r with
    | Json data =>
        let c1 := push (item_of v u st data now) c in
        match currentVideo c with
        | Some _ => c1
        | None =>
            if playNext_throws c1
            then push (placeholder v u st now) (advanced c1)
            else advanced c1
        end
    | _ => push (placeholder v u st now) c
    end.

(** What [drop] makes of the controller. *)
Definition dropped (dropTarget : option Z) (c : Controller) : Controller :=
  match dropTarget with
  | None => c
  | Some dropIndex =>
      if negb (not_null (draggedIndex c)) then c
      else if strict_eq (draggedIndex c) (INum dropIndex) then c
      else
        let c1 := set_queue (splice (queue c) (to_integer (draggedIndex c)) 1 []) c in
        match at_Index (queue c) (draggedIndex c) with
        | Some item => rebase dropIndex (set_queue (splice (queue c1) dropIndex 0 [item]) c1)
        | None => rebase dropIndex c1
        end
  end.

Definition reordered (from to : Z) (c : Controller) : Controller :=
  set_draggedIndex INull (dropped (Some to) (set_draggedIndex (INum from) c)).

(** What [stop] makes of the controller. *)
Definition stopped (c : Controller) : Controller :=
  match player c with
  | PlayerReady =>
      match queue c with
      | [] => set_currentVideo None (set_queue [] (set_player NoPlayer (set_currentVideo None c)))
      | _ :: _ =>
          if autoplay c then advanced (set_currentVideo None c)
          else set_currentVideo None c
      end
  | _ => c
  end.

(** What [togglePreservePlaylist] makes of the controller. *)
Definition toggled (checked : bool) (c : Controller) : Controller :=
  match checked, currentVideo c with
  | true, Some v =>
      set_currentVideoIndex
        (INum (findIndex (fun item => String.eqb (videoId item) (videoId v)) (queue c)))
        (set_preservePlaylist checked c)
  | _, _ => set_currentVideoIndex INull (set_preservePlaylist checked c)
  end.

(** ** Events *)

(** What happens to a page: links arrive by chat or by the input field,
    the viewer uses the controls, and the player reports. *)
Inductive Event : Type :=
| Chat (message username0 : string) (r : Response) (now : Z)
| ManualLink (input : string) (r : Response) (now : Z)
| Enqueue (c : Call)
| Next (manual : bool)
| Previous
| Remove (index : Z)
| Clear
| Reorder (from to : Z)
| Stop
| Autoplay (checked : bool)
| Mode (checked : bool)
| PlayerMade
| PlayerIsReady
| StateChange (data : PlayerState).

Definition handler (e : Event) : M unit :=
  match e with
  | Chat message username0 r now => processMessage message username0 r now
  | ManualLink input r now => addYoutubeLink input r now
  | Enqueue c => enqueue c
  | Next manual => playNext manual
  | Previous => previous
  | Remove index => removeFromQueue index
  | Clear => clearQueue
  | Reorder from to => reorder from to
  | Stop => stop
  | Autoplay checked => toggleAutoplay checked
  | Mode checked => togglePreservePlaylist checked
  | PlayerMade => createPlayer
  | PlayerIsReady => onPlayerReady
  | StateChange data => onPlayerStateChange data
  end.

(** The events of a list, one after the other. *)
Definition play (es : list Event) (w : World) : World :=
  fold_left (fun w e => after (handler e) w) es w.

(** A condition on each event of a list, in the state the event meets. *)
Fixpoint each (P : Event -> World -> Prop) (es : list Event) (w : World) : Prop :=
  match es with
  | [] => True
  | e :: t => P e w /\ each P t (after (handler e) w)
  end.

(** The call of [addToQueue] a text leads to, if any. *)
Definition call_of_url (url : string) (u : option string) (r : Response) (now : Z)
    : option Call :=
  match extractVideoId url with
  | None => None
  | Some v => Some {| c_videoId := v; c_username := u;
                      c_startTime := extractStartTime url;
                      c_response := r; c_now := now |}
  end.

Definition call_of_chat (message username0 : string) (r : Response) (now : Z) : option Call :=
  match extractYoutubeUrl message with
  | Some url => call_of_url url (Some username0) r now
  | None => None
  end.

Definition call_of_input (input : string) (r : Response) (now : Z) : option Call :=
  let url := string_of_list_ascii (trim (list_ascii_of_string input)) in
  if String.eqb url "" then None
  else match extractYoutubeUrl url with
       | Some link => call_of_url link (Some "Manual"%string) r now
       | None => None
       end.

Definition enqueued_call (o : option Call) (c : Controller) : Controller :=
  match o with
  | Some k => enqueued (c_videoId k) (c_username k) (c_startTime k) (c_response k) (c_now k) c
  | None => c
  end.

(** What the handler of an event makes of the controller. *)
Definition effect (e : Event) (c : Controller) : Controller :=
  match e with
  | Chat message username0 r now => enqueued_call (call_of_chat message username0 r now) c
  | ManualLink input r now => enqueued_call (call_of_input input r now) c
  | Enqueue k => enqueued_call (Some k) c
  | Next _ => advanced c
  | Previous => stepped_back c
  | Remove index => set_queue (splice (queue c) index 1 []) c
  | Clear => set_queue [] c
  | Reorder from to => reordered from to c
  | Stop => stopped c
  | Autoplay checked => set_autoplay checked c
  | Mode checked => toggled checked c
  | PlayerMade => set_player PlayerCreated c
  | PlayerIsReady => set_player PlayerReady c
  | StateChange ENDED => if autoplay c then advanced c else c
  | StateChange _ => c
  end.

(** Whether the handler of an event throws. *)
Definition throws (e : Event) (c : Controller) : bool :=
  match e with
  | Next _ => playNext_throws c
  | Previous => previous_throws c
  | Reorder from to =>
      match at_Index (queue c) (INum from) with
      | None => negb (from =? to)
      | Some _ => false
      end
  | Stop =>
      match player c with
      | PlayerCreated => true
      | PlayerReady =>
          match queue c with
          | [] => false
          | _ :: _ => autoplay c && playNext_throws (set_currentVideo None c)
          end
      | NoPlayer => false
      end
  | StateChange ENDED => autoplay c && playNext_throws c
  | _ => false
  end.

(** ** What the state keeps *)

(** A drag gesture goes from an item of the queue to an item of the
    queue. *)
Definition on_items (e : Event) (w : World) : Prop :=
  match e with
  | Reorder from to => in_range (queue (this w)) from /\ in_range (queue (this w)) to
  | _ => True
  end.

(** The mode is switched to preserve only without a current video or with
    one whose identifier is in the queue. *)
Definition finds_current (e : Event) (w : World) : Prop :=
  match e with
  | Mode true =>
      match currentVideo (this w) with
      | Some v => In (videoId v) (ids (queue (this w)))
      | None => True
      end
  | _ => True
  end.

(** An index that is null or a number from 0 on. *)
Definition sane (i : Index) : Prop := i = INull \/ exists k, i = INum k /\ 0 <= k.

(** No identifier twice in the queue, and a sane index. *)
Definition tidy (c : Controller) : Prop :=
  NoDup (ids (queue c)) /\ sane (currentVideoIndex c).

(** The event takes no item out of the queue by hand and does not switch to
    preserve mode. *)
Definition keeps_place (e : Event) : Prop :=
  match e with
  | Remove _ | Clear | Mode true => False
  | _ => True
  end.

(** The index is null or a position of the queue, and in preserve mode the
    current video is the item at the index. *)
Definition aligned (c : Controller) : Prop :=
  (currentVideoIndex c = INull
   \/ exists k, currentVideoIndex c = INum k /\ in_range (queue c) k)
  /\ (preservePlaylist c = true ->
      forall v, currentVideo c = Some v ->
                at_Index (queue c) (currentVideoIndex c) = Some v).

(** The handler of the event completes, unless the player has been made and
    is not ready yet. *)
Definition completes_if_ready (e : Event) (w : World) : Prop :=
  player (this w) = PlayerCreated \/ fst (handler e w) = Normal tt.

(** A handler run [j] times in a row. *)
Definition repeated (j : nat) (m : M unit) (w : World) : World := Nat.iter j (after m) w.

(** The call [playNext] makes on a ready player for an item. *)
Definition start_call (load : bool) (v : QueueItem) : PlayerCall :=
  if load then loadVideoById (videoId v) (start_seconds v)
  else cueVideoById (videoId v) (start_seconds v).

(** ** The stored record follows the state *)

(** The stored record is the record of the state as it is. *)
Definition synced (w : World) : Prop := localStorage w = Saved (record_of w).

(** The events whose handlers leave the stored record behind the state are
    left out: a lookup that fails (the placeholder is pushed after the
    state was written), [playNext] on an empty queue, the switch of mode
    (the index is set after the state was written) and the player getting
    ready (it sets the volume slider). *)
Definition saves (e : Event) (w : World) : Prop :=
  match e with
  | Chat _ _ r _ | ManualLink _ r _ => lookup_failed r = false
  | Enqueue k => lookup_failed (c_response k) = false
  | Next _ => queue (this w) <> []
  | StateChange ENDED => autoplay (this w) = true -> queue (this w) <> []
  | Mode _ | PlayerIsReady => False
  | _ => True
  end.

(** ** The identifiers in the queue *)

(** Eleven characters, none of them a double quote, [&], [?], [/] or white
    space. *)
Definition id_ok (id : string) : Prop :=
  String.length id = 11%nat /\ forallb id_char (list_ascii_of_string id) = true.

Definition ids_ok (c : Controller) : Prop :=
  Forall (fun i => id_ok (videoId i)) (queue c)
  /\ (forall v, currentVideo c = Some v -> id_ok (videoId v)).

(** A direct call of [addToQueue] is given such an identifier. *)
Definition given_id_ok (e : Event) (w : World) : Prop :=
  match e with
  | Enqueue k => id_ok (c_videoId k)
  | _ => True
  end.

(** ** Sharing a playlist *)






(** ** The interval of the progress display *)

(** The intervals running are the one recorded, and handles are
    positive. *)
Definition one_interval (t : Progress.Timers) : Prop :=
  Progress.running t
  = match Progress.progressInterval t with Some h => [h] | None => [] end
  /\ (0 < Progress.next_handle t)%nat
  /\ Progress.progressInterval t <> Some 0%nat.

(** ** Sample sessions *)

(** Links arrive by chat and by the input field, and the viewer goes
    through the controls. *)
Definition busy_session : list Event :=
  [ PlayerMade; PlayerIsReady;
    Chat "look https://youtu.be/AAAAAAAAAAA?t=1m5s" "viewer" (answer "A") 1000;
    ManualLink "  https://www.youtube.com/watch?v=BBBBBBBBBBB " NetworkFailure 2000;
    Chat "again youtu.be/AAAAAAAAAAA" "viewer" (answer "A") 3000;
    Next true; Reorder 0 1; Mode false; Mode true; Previous;
    Remove 0; Stop; Clear ].

(** The same without removing by hand and without the switch to preserve
    mode. *)
Definition steady_session : list Event :=
  [ PlayerMade; PlayerIsReady;
    Chat "look https://youtu.be/AAAAAAAAAAA?t=1m5s" "viewer" (answer "A") 1000;
    ManualLink "  https://www.youtube.com/watch?v=BBBBBBBBBBB " NetworkFailure 2000;
    Next true; Reorder 0 1; Previous; Autoplay true; StateChange ENDED; Stop ].

(** A session in which every lookup succeeds. *)
Definition saved_session : list Event :=
  [ PlayerMade;
    Chat "look https://youtu.be/AAAAAAAAAAA?t=1m5s" "viewer" (answer "A") 1000;
    Enqueue (call "BBBBBBBBBBB" (answer "B") 2000);
    Next true; Reorder 0 1; Autoplay true; Previous; Remove 0; Stop ].

(** Three items in consume mode, the player ready. *)
Definition consume_list : World :=
  with_this (set_preservePlaylist false) (playlist [item_a; item_b; item_c] INull).

(** A ready player, no current video, and an index read from a record
    without the key. *)
Definition keyless : World :=
  with_this (fun c => set_currentVideoIndex IUndefined (set_player PlayerReady c)) blank.

(** * Properties *)

(** The handlers are unfolded down to the monad, and the monad down to
    functions on worlds, before a proof looks at cases. *)
Create HintDb js discriminated.
#[local] Hint Unfold after ret bind throw try_catch get_this update setItem getItem
  slider_value set_slider_value call_player when_some
  updateVolumeIcon startProgressTracking createPlayer onPlayerReady
  updateQueueDisplay updateCurrentVideoDisplay hideCurrentVideoInfo
  updatePlayPauseIcon showSuccess showInfo console_error
  saveState loadState connect playNext previous next reset stop
  toggleAutoplay togglePreservePlaylist fetchVideoInfo
  addToQueue_resume addToQueue removeFromQueue clearQueue
  dragStart dragEnd drop reorder : js.

Ltac js := autounfold with js; cbn.

(** ** Enqueueing *)

Lemma in_queue_iff (v : string) (c : Controller) :
  in_queue v c = true <-> In v (ids (queue c)).
Proof.
  unfold in_queue, ids. rewrite existsb_exists, in_map_iff. split.
  - intros [x [Hx He]]. apply String.eqb_eq in He. now exists x.
  - intros [x [He Hx]]. exists x. split; [assumption|]. now apply String.eqb_eq.
Qed.

Lemma in_queue_false (v : string) (c : Controller) :
  ~ In v (ids (queue c)) -> in_queue v c = false.
Proof.
  intros H. destruct (in_queue v c) eqn:E; [|reflexivity].
  now apply in_queue_iff in E.
Qed.

Lemma addToQueue_failed (v : string) (u : option string) (st : option Z)
    (r : Response) (now : Z) (w : World) :
  lookup_failed r = true ->
  in_queue v (this w) = false ->
  addToQueue v u st r now w = (Normal tt, with_this (push (placeholder v u st now)) w).
Proof.
  intros Hr Hq. unfold addToQueue, bind, get_this. rewrite Hq.
  destruct r; try discriminate; reflexivity.
Qed.

(** C9. When the lookup fails for an identifier that is not in the queue,
    [addToQueue] completes normally and the queue has one more item at its
    end: the placeholder, whose title is "Video " followed by the
    identifier, whose channel is "Unknown" and whose thumbnail address is
    built from the identifier alone. Everything else in the controller is as
    before. *)
Theorem C9_lookup_failure_resilience
    (v : string) (u : option string) (st : option Z) (r : Response) (now : Z) (w : World) :
  lookup_failed r = true ->
  ~ In v (ids (queue (this w))) ->
  exists item,
    addToQueue v u st r now w = (Normal tt, with_this (push item) w)
    /\ queue (this (after (addToQueue v u st r now) w)) = queue (this w) ++ [item]
    /\ videoId item = v
    /\ title item = ("Video " ++ v)%string
    /\ channel item = "Unknown"%string
    /\ thumbnail item = ("https://img.youtube.com/vi/" ++ v ++ "/mqdefault.jpg")%string
    /\ username item = u
    /\ startTime item = st.
Proof.
  intros Hr Hq. exists (placeholder v u st now).
  pose proof (addToQueue_failed v u st r now w Hr (in_queue_false _ _ Hq)) as E.
  unfold after. rewrite E. repeat split.
Qed.

Lemma NoDup_snoc {A} (l : list A) (x : A) :
  NoDup l -> ~ In x l -> NoDup (l ++ [x]).
Proof.
  intros Hl Hx. induction l as [|y l IH]; cbn.
  - constructor; [intros []|constructor].
  - inversion Hl; subst. constructor.
    + rewrite in_app_iff. intros [H|[H|[]]]; [contradiction|].
      subst. apply Hx. now left.
    + apply IH; [assumption|]. intros H. apply Hx. now right.
Qed.

Lemma videoId_new_item v u st r now : videoId (new_item v u st r now) = v.
Proof. destruct r; reflexivity. Qed.

Lemma addToQueue_playing (v : string) (u : option string) (st : option Z)
    (r : Response) (now : Z) (w : World) (cur : QueueItem) :
  currentVideo (this w) = Some cur ->
  in_queue v (this w) = false ->
  fst (addToQueue v u st r now w) = Normal tt
  /\ queue (this (after (addToQueue v u st r now) w))
     = queue (this w) ++ [new_item v u st r now]
  /\ currentVideo (this (after (addToQueue v u st r now) w)) = Some cur
  /\ currentVideoIndex (this (after (addToQueue v u st r now) w))
     = currentVideoIndex (this w).
Proof.
  intros Hc Hq. destruct w as [c s vs cl]. cbn in Hc, Hq.
  js. rewrite Hq.
  destruct r; cbn; try (repeat split; assumption).
  rewrite Hc. cbn. repeat split; assumption.
Qed.

(** C10. The check in [addToQueue] looks at the queue only. In consume
    mode, when the current video has identifier [v] and no item of the queue
    has, [addToQueue v] completes normally and appends a new item with
    identifier [v] to the queue, whatever the lookup answers; the current
    video stays. *)
Theorem C10_current_video_not_checked
    (v : string) (u : option string) (st : option Z) (r : Response) (now : Z)
    (w : World) (cur : QueueItem) :
  preservePlaylist (this w) = false ->
  currentVideo (this w) = Some cur ->
  videoId cur = v ->
  ~ In v (ids (queue (this w))) ->
  exists item,
    videoId item = v
    /\ fst (addToQueue v u st r now w) = Normal tt
    /\ queue (this (after (addToQueue v u st r now) w)) = queue (this w) ++ [item]
    /\ currentVideo (this (after (addToQueue v u st r now) w)) = Some cur.
Proof.
  intros _ Hc _ Hq. exists (new_item v u st r now).
  destruct (addToQueue_playing v u st r now w cur Hc (in_queue_false _ _ Hq))
    as [H1 [H2 [H3 _]]].
  split; [apply videoId_new_item|]. repeat split; assumption.
Qed.

(** *** No identifier twice *)


Lemma ids_snoc (q : list QueueItem) (i : QueueItem) : ids (q ++ [i]) = ids q ++ [videoId i].
Proof. unfold ids. now rewrite map_app. Qed.





(** ** Advancing *)

Lemma rem_is_mod (z n : Z) : -1 <= z -> 0 < n -> Z.rem (z + 1) n = (z + 1) mod n.
Proof. intros Hz Hn. apply Z.rem_mod_nonneg; lia. Qed.

(** C3. [playNext] on an empty queue sets the current video and the index
    to null, completes, and makes no call on the player (the world is
    otherwise as it was). On a queue that is not empty: in consume mode the
    head of the queue becomes the current video, the queue is its tail and
    the index is null; in preserve mode the queue stays, the index becomes
    0 when it was null and the remainder of index + 1 by the length when it
    was a number (for an index from -1 on, that is (index + 1) mod length),
    and the current video is the item of the queue at the new index. With
    three items and index 2 in preserve mode, the index becomes 0 and the
    first item the current video. *)
Theorem C3_playNext (manual : bool) (w : World) :
  (queue (this w) = [] ->
     playNext manual w
     = (Normal tt, with_this (fun c => set_currentVideoIndex INull (set_currentVideo None c)) w)
     /\ currentVideo (this (after (playNext manual) w)) = None
     /\ currentVideoIndex (this (after (playNext manual) w)) = INull
     /\ calls (after (playNext manual) w) = calls w)
  /\ (forall x q,
        queue (this w) = x :: q -> preservePlaylist (this w) = false ->
        currentVideo (this (after (playNext manual) w)) = Some x
        /\ queue (this (after (playNext manual) w)) = q
        /\ currentVideoIndex (this (after (playNext manual) w)) = INull)
  /\ (queue (this w) <> [] -> preservePlaylist (this w) = true ->
        queue (this (after (playNext manual) w)) = queue (this w)
        /\ currentVideo (this (after (playNext manual) w))
           = at_Index (queue (this w)) (currentVideoIndex (this (after (playNext manual) w)))
        /\ (currentVideoIndex (this w) = INull ->
              currentVideoIndex (this (after (playNext manual) w)) = INum 0)
        /\ (forall z, currentVideoIndex (this w) = INum z ->
              currentVideoIndex (this (after (playNext manual) w))
              = INum (Z.rem (z + 1) (len (queue (this w))))
              /\ (-1 <= z -> Z.rem (z + 1) (len (queue (this w)))
                             = (z + 1) mod len (queue (this w)))))
  /\ (forall a b c,
        queue (this w) = [a; b; c] -> preservePlaylist (this w) = true ->
        currentVideoIndex (this w) = INum 2 ->
        currentVideoIndex (this (after (playNext manual) w)) = INum 0
        /\ currentVideo (this (after (playNext manual) w)) = Some a).
Proof.
  destruct w as [c s vs cl]. destruct c as [q0 cv i ap pp cn mu pv sv di pl].
  cbn [this queue preservePlaylist currentVideoIndex calls].
  repeat apply conj.
  - intros ->. js. repeat split.
  - intros x q -> ->. js.
    destruct pl; cbn; try (destruct (manual || ap)); cbn; repeat split.
  - intros Hq ->. destruct q0 as [|x q]; [contradiction|].
    unfold len. autounfold with js. cbn -[Z.of_nat Z.rem length at_Index succ_rem].
    set (i' := if not_null i then _ else _).
    match goal with
    | |- context [snd (?m ?w0)] =>
        assert (Ew : this (snd (m w0)) = this w0)
    end.
    { destruct pl; try reflexivity. cbn -[Z.of_nat Z.rem length at_Index succ_rem].
      destruct (at_Index (x :: q) i'); [destruct (manual || ap)|]; reflexivity. }
    rewrite Ew. cbn -[Z.of_nat Z.rem length at_Index succ_rem].
    repeat split.
    + intros ->. reflexivity.
    + subst i'. rewrite H. cbn [not_null succ_rem]. unfold js_rem.
      destruct (Z.of_nat (length (x :: q)) =? 0) eqn:E; [|reflexivity].
      apply Z.eqb_eq in E. cbn [length] in E. lia.
    + intros Hz. apply rem_is_mod; [assumption|]. cbn [length]. lia.
  - intros a b c -> -> ->. js.
    destruct pl; cbn; try (destruct (manual || ap)); cbn; repeat split.
Qed.

(** ** Reordering *)

Lemma splice_remove {A} (l : list A) (n : Z) :
  0 <= n < Z.of_nat (length l) -> splice l n 1 [] = remove_at (Z.to_nat n) l.
Proof.
  intros H. unfold splice, remove_at, relative_start.
  destruct (n <? 0) eqn:E; [apply Z.ltb_lt in E; lia|].
  rewrite Z.min_l by lia.
  replace (Z.min (Z.max 1 0) (Z.of_nat (length l) - n)) with 1 by lia.
  cbn [app]. f_equal. f_equal. lia.
Qed.

Lemma splice_insert {A} (l : list A) (n : Z) (x : A) :
  0 <= n <= Z.of_nat (length l) -> splice l n 0 [x] = insert_at (Z.to_nat n) x l.
Proof.
  intros H. unfold splice, insert_at, relative_start.
  destruct (n <? 0) eqn:E; [apply Z.ltb_lt in E; lia|].
  rewrite Z.min_l by lia.
  replace (Z.min (Z.max 0 0) (Z.of_nat (length l) - n)) with 0 by lia.
  cbn [app]. f_equal. f_equal. f_equal. lia.
Qed.

Lemma length_remove_at {A} (n : nat) (l : list A) :
  (n < length l)%nat -> length (remove_at n l) = (length l - 1)%nat.
Proof.
  intros H. unfold remove_at.
  rewrite length_app, length_firstn, length_skipn. lia.
Qed.

Lemma at_Z_in_range {A} (l : list A) (n : Z) :
  0 <= n < Z.of_nat (length l) -> exists x, at_Z l n = Some x /\ nth_error l (Z.to_nat n) = Some x.
Proof.
  intros H. unfold at_Z.
  destruct (n <? 0) eqn:E; [apply Z.ltb_lt in E; lia|].
  destruct (nth_error l (Z.to_nat n)) as [x|] eqn:Ex.
  - now exists x.
  - apply nth_error_None in Ex. lia.
Qed.

(** [drop] on two distinct positions of the queue. *)
Lemma drop_in_range (from to : Z) (w : World) (x : QueueItem) :
  draggedIndex (this w) = INum from ->
  0 <= from < len (queue (this w)) ->
  0 <= to < len (queue (this w)) ->
  from <> to ->
  nth_error (queue (this w)) (Z.to_nat from) = Some x ->
  drop (Some to) w
  = (Normal tt,
     after saveState
       (with_this (fun c => rebase to
                     (set_queue (insert_at (Z.to_nat to) x
                                   (remove_at (Z.to_nat from) (queue c))) c)) w)).
Proof.
  intros Hd Hf Ht Hne Hx. destruct w as [c s vs cl].
  destruct c as [q cv i ap pp cn mu pv sv di pl]. cbn in Hd, Hf, Ht, Hx. subst di.
  unfold len in *. autounfold with js.
  cbn -[splice at_Z rebase Z.of_nat].
  destruct (from =? to) eqn:E; [apply Z.eqb_eq in E; contradiction|].
  cbn -[splice at_Z rebase Z.of_nat].
  unfold at_Z. destruct (from <? 0) eqn:E0; [apply Z.ltb_lt in E0; lia|].
  rewrite Hx. cbn -[splice rebase Z.of_nat].
  rewrite splice_remove by assumption.
  rewrite splice_insert.
  2:{ rewrite length_remove_at by lia. lia. }
  reflexivity.
Qed.

Lemma nth_error_remove_at {A} (n j : nat) (l : list A) :
  (n <= length l)%nat ->
  nth_error (remove_at n l) j = nth_error l (if (j <? n)%nat then j else S j).
Proof.
  intros H. unfold remove_at. rewrite nth_error_app, length_firstn.
  rewrite Nat.min_l by assumption.
  destruct (j <? n)%nat eqn:E.
  - rewrite nth_error_firstn, E. reflexivity.
  - apply Nat.ltb_ge in E. rewrite nth_error_skipn. f_equal. lia.
Qed.

Lemma nth_error_insert_at {A} (n j : nat) (x : A) (l : list A) :
  (n <= length l)%nat ->
  nth_error (insert_at n x l) j
  = if (j <? n)%nat then nth_error l j
    else if (j =? n)%nat then Some x
    else nth_error l (j - 1).
Proof.
  intros H. unfold insert_at. rewrite nth_error_app, length_firstn.
  rewrite Nat.min_l by assumption.
  destruct (j <? n)%nat eqn:E.
  - rewrite nth_error_firstn, E. reflexivity.
  - apply Nat.ltb_ge in E. destruct (j =? n)%nat eqn:E'.
    + apply Nat.eqb_eq in E'. subst. now rewrite Nat.sub_diag.
    + apply Nat.eqb_neq in E'.
      destruct (j - n)%nat as [|m] eqn:Em; [lia|]. cbn.
      rewrite nth_error_skipn. f_equal. lia.
Qed.

Lemma rebased_follows {A} (from to k : nat) (x : A) (l : list A) :
  (from < length l)%nat -> (to < length l)%nat -> (k < length l)%nat ->
  nth_error l from = Some x ->
  nth_error (insert_at to x (remove_at from l))
            (Z.to_nat (rebased (Z.of_nat from) (Z.of_nat to) (Z.of_nat k)))
  = nth_error l k.
Proof.
  intros Hf Ht Hk Hx.
  assert (Hl : length (remove_at from l) = (length l - 1)%nat)
    by now apply length_remove_at.
  rewrite nth_error_insert_at by lia.
  unfold rebased.
  destruct (Z.of_nat from =? Z.of_nat k) eqn:E1.
  { apply Z.eqb_eq in E1. assert (from = k) by lia. subst k.
    rewrite Nat2Z.id, Nat.ltb_irrefl, Nat.eqb_refl. now rewrite Hx. }
  apply Z.eqb_neq in E1.
  destruct ((Z.of_nat from <? Z.of_nat k) && (Z.of_nat k <=? Z.of_nat to)) eqn:E2.
  { apply andb_true_iff in E2. destruct E2 as [E2 E3].
    apply Z.ltb_lt in E2. apply Z.leb_le in E3.
    replace (Z.to_nat (Z.of_nat k - 1)) with (k - 1)%nat by lia.
    assert (Hlt : ((k - 1 <? to) = true)%nat) by (apply Nat.ltb_lt; lia).
    rewrite Hlt, nth_error_remove_at by lia.
    assert (Hge : ((k - 1 <? from) = false)%nat) by (apply Nat.ltb_ge; lia).
    rewrite Hge. f_equal. lia. }
  destruct ((Z.of_nat to <=? Z.of_nat k) && (Z.of_nat k <? Z.of_nat from)) eqn:E3.
  { apply andb_true_iff in E3. destruct E3 as [E3 E4].
    apply Z.leb_le in E3. apply Z.ltb_lt in E4.
    replace (Z.to_nat (Z.of_nat k + 1)) with (k + 1)%nat by lia.
    assert (H1 : ((k + 1 <? to) = false)%nat) by (apply Nat.ltb_ge; lia).
    assert (H2 : ((k + 1 =? to) = false)%nat) by (apply Nat.eqb_neq; lia).
    rewrite H1, H2, nth_error_remove_at by lia.
    replace (k + 1 - 1)%nat with k by lia.
    assert (H3 : ((k <? from) = true)%nat) by (apply Nat.ltb_lt; lia).
    now rewrite H3. }
  apply andb_false_iff in E2. apply andb_false_iff in E3.
  rewrite Nat2Z.id.
  rewrite Z.ltb_ge, Z.leb_gt in E2. rewrite Z.leb_gt, Z.ltb_ge in E3.
  destruct (k <? to)%nat eqn:H1.
  - apply Nat.ltb_lt in H1. rewrite nth_error_remove_at by lia.
    assert (H3 : ((k <? from) = true)%nat) by (apply Nat.ltb_lt; lia).
    now rewrite H3.
  - apply Nat.ltb_ge in H1.
    assert (H2 : ((k =? to) = false)%nat) by (apply Nat.eqb_neq; lia).
    rewrite H2, nth_error_remove_at by lia.
    assert (H3 : ((k - 1 <? from) = false)%nat) by (apply Nat.ltb_ge; lia).
    rewrite H3. f_equal. lia.
Qed.

Lemma rebase_number (from to k : Z) (c : Controller) :
  draggedIndex c = INum from ->
  currentVideoIndex c = INum k ->
  preservePlaylist c = true ->
  rebase to c = set_currentVideoIndex (INum (rebased from to k)) c.
Proof.
  destruct c as [q cv i ap pp cn mu pv sv di pl]. cbn. intros -> -> ->.
  unfold rebase, rebased. cbn.
  unfold js_lt, js_ge, js_gt, js_le, js_compare. cbn.
  rewrite Z.geb_leb, Z.gtb_ltb.
  destruct (from =? k); [reflexivity|].
  destruct ((from <? k) && (k <=? to)); [reflexivity|].
  destruct ((k <? from) && (to <=? k)) eqn:E; rewrite andb_comm in E; rewrite E; reflexivity.
Qed.

Lemma rebase_off (to : Z) (c : Controller) :
  preservePlaylist c = false \/ currentVideoIndex c = INull ->
  rebase to c = c.
Proof.
  unfold rebase. intros [-> | ->]; [reflexivity|]. cbn. now rewrite andb_false_r.
Qed.

Lemma rebased_cases (from to k : Z) :
  (from = k -> rebased from to k = to)
  /\ (from < k <= to -> rebased from to k = k - 1)
  /\ (to <= k < from -> rebased from to k = k + 1)
  /\ (from <> k -> ~ from < k <= to -> ~ to <= k < from -> rebased from to k = k).
Proof.
  unfold rebased.
  destruct (Z.eqb_spec from k), (Z.ltb_spec from k), (Z.leb_spec k to),
    (Z.leb_spec to k), (Z.ltb_spec k from); cbn; repeat split; intros; lia.
Qed.

(** C4. [reorder] between two positions of the queue. With equal positions
    nothing changes (queue, current video, index and the stored record are
    as before). With distinct positions the handler completes, the item at
    [from] is taken out and put back at position [to] of the shortened
    list, and the current video is untouched; in preserve mode with a
    numeric index [k], the index becomes [to] if [from = k], [k - 1] if
    [from < k <= to], [k + 1] if [to <= k < from], and stays [k] otherwise,
    so that it designates the same item as before; in consume mode or with
    a null index, the index is unchanged. For the queue [a; b; c; d] with
    index 2 in preserve mode, [reorder 0 3] gives the queue [b; c; d; a]
    and index 1. *)
Theorem C4_reorder (w : World) :
  (forall from to : Z,
     0 <= from < len (queue (this w)) ->
     0 <= to < len (queue (this w)) ->
     let w' := after (reorder from to) w in
     (from = to ->
        reorder from to w = (Normal tt, with_this (set_draggedIndex INull) w)
        /\ queue (this w') = queue (this w)
        /\ currentVideo (this w') = currentVideo (this w)
        /\ currentVideoIndex (this w') = currentVideoIndex (this w)
        /\ localStorage w' = localStorage w)
     /\ (from <> to ->
           fst (reorder from to w) = Normal tt
           /\ (exists x,
                 nth_error (queue (this w)) (Z.to_nat from) = Some x
                 /\ queue (this w')
                    = insert_at (Z.to_nat to) x (remove_at (Z.to_nat from) (queue (this w))))
           /\ currentVideo (this w') = currentVideo (this w)
           /\ (preservePlaylist (this w) = true ->
               forall k, currentVideoIndex (this w) = INum k ->
                 currentVideoIndex (this w') = INum (rebased from to k)
                 /\ (from = k -> rebased from to k = to)
                 /\ (from < k <= to -> rebased from to k = k - 1)
                 /\ (to <= k < from -> rebased from to k = k + 1)
                 /\ (from <> k -> ~ from < k <= to -> ~ to <= k < from ->
                     rebased from to k = k)
                 /\ (0 <= k < len (queue (this w)) ->
                     at_Z (queue (this w')) (rebased from to k)
                     = at_Z (queue (this w)) k))
           /\ (preservePlaylist (this w) = false \/ currentVideoIndex (this w) = INull ->
               currentVideoIndex (this w') = currentVideoIndex (this w))))
  /\ (forall a b c d : QueueItem,
        queue (this w) = [a; b; c; d] ->
        preservePlaylist (this w) = true ->
        currentVideoIndex (this w) = INum 2 ->
        queue (this (after (reorder 0 3) w)) = [b; c; d; a]
        /\ currentVideoIndex (this (after (reorder 0 3) w)) = INum 1).
Proof.
  split.
  - intros from to Hf Ht w'. split.
    + intros <-. subst w'.
      destruct w as [c s vs cl]. destruct c as [q cv i ap pp cn mu pv sv di pl].
      js. rewrite Z.eqb_refl. cbn. repeat split.
    + intros Hne.
      destruct (at_Z_in_range (queue (this w)) from Hf) as [x [_ Hx]].
      set (w1 := after (dragStart (Some from)) w).
      assert (E : drop (Some to) w1
                  = (Normal tt,
                     after saveState
                       (with_this (fun c => rebase to
                          (set_queue (insert_at (Z.to_nat to) x
                             (remove_at (Z.to_nat from) (queue c))) c)) w1))).
      { apply drop_in_range; subst w1; destruct w; try assumption; reflexivity. }
      assert (Er : reorder from to w
                   = (Normal tt,
                      after dragEnd
                        (after saveState
                           (with_this (fun c => rebase to
                              (set_queue (insert_at (Z.to_nat to) x
                                 (remove_at (Z.to_nat from) (queue c))) c)) w1)))).
      { unfold reorder. fold w1. rewrite E. reflexivity. }
      subst w'. unfold after. rewrite Er. clear E Er.
      destruct w as [c s vs cl]. destruct c as [q cv i ap pp cn mu pv sv di pl].
      subst w1. cbn in Hf, Ht, Hx.
      cbn [fst snd]. split; [reflexivity|].
      split; [exists x; split; [exact Hx|]|split; [|split]].
      * cbv [after dragEnd dragStart saveState with_this update bind get_this
               slider_value setItem snd this].
        cbn [this]. unfold rebase. cbn -[insert_at remove_at].
        repeat match goal with |- context [if ?b then _ else _] => destruct b end;
          reflexivity.
      * cbv [after dragEnd dragStart saveState with_this update bind get_this
               slider_value setItem snd this].
        cbn [this]. unfold rebase. cbn -[insert_at remove_at].
        repeat match goal with |- context [if ?b then _ else _] => destruct b end;
          reflexivity.
      * cbn [this preservePlaylist currentVideoIndex queue]. intros -> k ->.
        destruct (rebased_cases from to k) as [R1 [R2 [R3 R4]]].
        repeat split; try assumption.
        -- cbv [after dragEnd dragStart saveState with_this update bind get_this
                  slider_value setItem snd this].
           cbn [this].
           erewrite rebase_number by reflexivity. reflexivity.
        -- intros Hk.
           cbv [after dragEnd dragStart saveState with_this update bind get_this
                  slider_value setItem snd this].
           cbn [this].
           erewrite rebase_number by reflexivity. cbn [queue set_queue set_draggedIndex
             set_currentVideoIndex].
           unfold len in *.
           assert (Hr : 0 <= rebased from to k) by (unfold rebased;
             repeat match goal with |- context [if ?b then _ else _] => destruct b eqn:? end;
             lia).
           unfold at_Z.
           destruct (rebased from to k <? 0) eqn:E1; [apply Z.ltb_lt in E1; lia|].
           destruct (k <? 0) eqn:E2; [apply Z.ltb_lt in E2; lia|].
           replace (rebased from to k)
             with (rebased (Z.of_nat (Z.to_nat from)) (Z.of_nat (Z.to_nat to))
                           (Z.of_nat (Z.to_nat k)))
             by (rewrite !Z2Nat.id by lia; reflexivity).
           apply rebased_follows; try lia. exact Hx.
      * cbn [this preservePlaylist currentVideoIndex queue]. intros Hoff.
        cbv [after dragEnd dragStart saveState with_this update bind get_this
               slider_value setItem snd this].
        cbn [this].
        rewrite rebase_off by (destruct Hoff as [->| ->]; [left|right]; reflexivity).
        reflexivity.
  - intros a b c d Hq Hp Hi.
    destruct w as [c0 s vs cl]. destruct c0 as [q cv i ap pp cn mu pv sv di pl].
    cbn in Hq, Hp, Hi. subst. split; reflexivity.
Qed.

(** ** Indices outside the queue *)

Lemma splice_beyond {A} (l : list A) (n : Z) :
  Z.of_nat (length l) <= n -> splice l n 1 [] = l.
Proof.
  intros H. unfold splice, relative_start.
  destruct (n <? 0) eqn:E; [apply Z.ltb_lt in E; lia|].
  rewrite Z.min_r by lia.
  replace (Z.min (Z.max 1 0) (Z.of_nat (length l) - Z.of_nat (length l))) with 0 by lia.
  rewrite Z.add_0_r, Nat2Z.id, firstn_all, skipn_all. cbn. apply app_nil_r.
Qed.

Lemma splice_negative {A} (l : list A) (n : Z) :
  n < 0 -> l <> [] ->
  splice l n 1 [] = remove_at (Z.to_nat (Z.max (Z.of_nat (length l) + n) 0)) l.
Proof.
  intros H Hl. unfold splice, relative_start, remove_at.
  destruct (n <? 0) eqn:E; [|apply Z.ltb_ge in E; lia].
  assert (0 < Z.of_nat (length l)) by (destruct l; [contradiction | cbn; lia]).
  replace (Z.min (Z.max 1 0)
             (Z.of_nat (length l) - Z.max (Z.of_nat (length l) + n) 0)) with 1 by lia.
  cbn [app]. f_equal. f_equal. lia.
Qed.

Lemma removeFromQueue_world (index : Z) (w : World) :
  removeFromQueue index w
  = (Normal tt, after saveState (with_this (fun c => set_queue (splice (queue c) index 1 []) c) w)).
Proof. reflexivity. Qed.

(** C5, as the code has it. No handler has an invalid-index condition.
    [removeFromQueue] completes normally for every index and never touches
    the current video or the index; with an index at or beyond the length
    of the queue the queue stays as it is, and with a negative index the
    item counted from the end is removed (the first item when the index is
    below minus the length). [reorder] with twice the same index, in the
    queue or not, completes normally and changes neither queue, current
    video nor index. *)
Theorem C5_no_invalid_index (w : World) (index : Z) :
  let w' := after (removeFromQueue index) w in
  fst (removeFromQueue index w) = Normal tt
  /\ currentVideo (this w') = currentVideo (this w)
  /\ currentVideoIndex (this w') = currentVideoIndex (this w)
  /\ (len (queue (this w)) <= index -> queue (this w') = queue (this w))
  /\ (index < 0 -> queue (this w) <> [] ->
      queue (this w')
      = remove_at (Z.to_nat (Z.max (len (queue (this w)) + index) 0)) (queue (this w)))
  /\ (fst (reorder index index w) = Normal tt
      /\ queue (this (after (reorder index index) w)) = queue (this w)
      /\ currentVideo (this (after (reorder index index) w)) = currentVideo (this w)
      /\ currentVideoIndex (this (after (reorder index index) w))
         = currentVideoIndex (this w)).
Proof.
  intros w'. subst w'. unfold after. rewrite removeFromQueue_world.
  destruct w as [c s vs cl]. destruct c as [q cv i ap pp cn mu pv sv di pl].
  cbn [fst snd this queue currentVideo currentVideoIndex].
  split; [reflexivity|]. split; [reflexivity|]. split; [reflexivity|].
  split; [|split].
  - intros H. cbn -[splice]. now apply splice_beyond.
  - intros H Hq. cbn -[splice]. now apply splice_negative.
  - js. rewrite Z.eqb_refl. cbn. repeat split.
Qed.

(** In a queue of two items, [-1] and [5] are not positions.
    [removeFromQueue (-1)] completes normally and removes the last item;
    [reorder 0 5] completes normally, moves the first item to the end and
    sets the index to 5. Neither request is rejected. *)
Lemma C5_out_of_range_unsignalled :
  ~ in_range (queue (this (playlist [item_a; item_b] (INum 0)))) (-1)
  /\ fst (removeFromQueue (-1) (playlist [item_a; item_b] (INum 0))) = Normal tt
  /\ queue (this (after (removeFromQueue (-1)) (playlist [item_a; item_b] (INum 0))))
     = [item_a]
  /\ ~ rejected (removeFromQueue (-1)) (playlist [item_a; item_b] (INum 0))
  /\ ~ in_range (queue (this (playlist [item_a; item_b] (INum 0)))) 5
  /\ fst (reorder 0 5 (playlist [item_a; item_b] (INum 0))) = Normal tt
  /\ queue (this (after (reorder 0 5) (playlist [item_a; item_b] (INum 0))))
     = [item_b; item_a]
  /\ currentVideoIndex (this (after (reorder 0 5) (playlist [item_a; item_b] (INum 0))))
     = INum 5
  /\ ~ rejected (reorder 0 5) (playlist [item_a; item_b] (INum 0)).
Proof.
  split; [unfold in_range, len; cbn; lia|]. split; [reflexivity|]. split; [reflexivity|].
  split; [intros [[e He] _]; discriminate He|].
  split; [unfold in_range, len; cbn; lia|]. split; [reflexivity|]. split; [reflexivity|].
  split; [reflexivity|].
  intros [[e He] _]. discriminate He.
Qed.

(** ** Switching the mode *)

Lemma findIndex_from_spec {A} (p : A -> bool) (l : list A) (k : Z) :
  (findIndex_from p l k = -1 /\ 0 <= k -> forallb (fun x => negb (p x)) l = true)
  /\ (forallb (fun x => negb (p x)) l = true -> findIndex_from p l k = -1)
  /\ (0 <= k -> existsb p l = true ->
      k <= findIndex_from p l k < k + Z.of_nat (length l)
      /\ exists x, nth_error l (Z.to_nat (findIndex_from p l k - k)) = Some x /\ p x = true).
Proof.
  revert k. induction l as [|y l IH]; intros k.
  - cbn. repeat split; try reflexivity; discriminate.
  - cbn [findIndex_from forallb existsb length].
    destruct (IH (k + 1)) as [I1 [I2 I3]]. destruct (p y) eqn:Ey; cbn [negb andb orb].
    + split; [intros [H Hk]; lia|]. split; [discriminate|].
      intros Hk _. split; [lia|]. exists y. rewrite Z.sub_diag. now split.
    + split; [intros [H Hk]; apply I1; split; [assumption|lia]|].
      split; [exact I2|].
      intros Hk He. destruct (I3 ltac:(lia) He) as [Hr [x [Hx Hp]]].
      split; [lia|]. exists x. split; [|assumption].
      replace (Z.to_nat (findIndex_from p l (k + 1) - k))
        with (S (Z.to_nat (findIndex_from p l (k + 1) - (k + 1)))) by lia.
      exact Hx.
Qed.

Lemma togglePreservePlaylist_world (checked : bool) (w : World) :
  togglePreservePlaylist checked w
  = (Normal tt,
     with_this
       (fun c =>
          match preservePlaylist c, currentVideo c with
          | true, Some v =>
              set_currentVideoIndex
                (INum (findIndex (fun item => String.eqb (videoId item) (videoId v)) (queue c))) c
          | _, _ => set_currentVideoIndex INull c
          end)
       (after saveState (with_this (set_preservePlaylist checked) w))).
Proof.
  destruct w as [c s vs cl]. destruct c as [q cv i ap pp cn mu pv sv di pl].
  unfold togglePreservePlaylist, bind, get_this, update, saveState, slider_value, setItem,
    updateQueueDisplay, ret, with_this, after.
  cbn -[findIndex truthy]. destruct checked, cv; reflexivity.
Qed.

(** What [togglePreservePlaylist] does, case by case: it never changes the
    queue or the current video; switching to consume mode, or to preserve
    mode without a current video, sets the index to null; switching to
    preserve mode with a current video sets the index to the result of
    [findIndex], which is the first position holding the identifier of the
    current video when there is one, and [-1] when there is none. *)
Lemma togglePreservePlaylist_spec (checked : bool) (w : World) :
  let w' := after (togglePreservePlaylist checked) w in
  fst (togglePreservePlaylist checked w) = Normal tt
  /\ queue (this w') = queue (this w)
  /\ currentVideo (this w') = currentVideo (this w)
  /\ preservePlaylist (this w') = checked
  /\ (checked = false -> currentVideoIndex (this w') = INull)
  /\ (currentVideo (this w) = None -> currentVideoIndex (this w') = INull)
  /\ (forall v, checked = true -> currentVideo (this w) = Some v ->
        (In (videoId v) (ids (queue (this w))) ->
           exists k x, currentVideoIndex (this w') = INum k
                       /\ 0 <= k < len (queue (this w))
                       /\ at_Z (queue (this w)) k = Some x
                       /\ videoId x = videoId v)
        /\ (~ In (videoId v) (ids (queue (this w))) ->
              currentVideoIndex (this w') = INum (-1))).
Proof.
  intros w'. subst w'. unfold after. rewrite togglePreservePlaylist_world.
  destruct w as [c s vs cl]. destruct c as [q cv i ap pp cn mu pv sv di pl].
  cbn -[findIndex]. split; [reflexivity|].
  split; [destruct checked, cv; reflexivity|].
  split; [destruct checked, cv; reflexivity|].
  split; [destruct checked, cv; reflexivity|].
  split; [intros ->; reflexivity|].
  split; [intros ->; destruct checked; reflexivity|].
  intros v -> ->. cbn -[findIndex].
  set (p := fun item => String.eqb (videoId item) (videoId v)).
  destruct (findIndex_from_spec p q 0) as [_ [F2 F3]].
  split.
  - intros Hin.
    assert (He : existsb p q = true).
    { pose proof (in_queue_iff (videoId v)
        {| queue := q; currentVideo := Some v; currentVideoIndex := i; autoplay := ap;
           preservePlaylist := pp; channelNameValue := cn; isMuted := mu;
           previousVolume := pv; savedVolume := sv; draggedIndex := di; player := pl |})
        as [_ H]. apply H. exact Hin. }
    destruct (F3 ltac:(lia) He) as [Hr [x [Hx Hp]]].
    exists (findIndex p q), x. unfold findIndex, len in *. rewrite Z.sub_0_r in Hx.
    split; [reflexivity|]. split; [lia|]. split.
    + unfold at_Z. destruct (findIndex_from p q 0 <? 0) eqn:E;
        [apply Z.ltb_lt in E; lia | exact Hx].
    + now apply String.eqb_eq.
  - intros Hnot. unfold findIndex. rewrite F2; [reflexivity|].
    apply forallb_forall. intros x Hx. unfold p.
    destruct (String.eqb (videoId x) (videoId v)) eqn:E; [|reflexivity].
    exfalso. apply Hnot. apply String.eqb_eq in E. rewrite <- E.
    unfold ids. now apply in_map.
Qed.

(** C6, at an input where the code departs from it. After
    [consume_session] the mode is consume, the current video is A and the
    queue holds B alone. Switching to preserve mode then sets the index to
    -1, not to null; a following [previous] makes it -2, clears the current
    video and throws. *)
Theorem C6_not_found_is_minus_one :
  preservePlaylist (this consume_session) = false
  /\ option_map videoId (currentVideo (this consume_session)) = Some "AAAAAAAAAAA"%string
  /\ ids (queue (this consume_session)) = ["BBBBBBBBBBB"%string]
  /\ currentVideoIndex (this (after (togglePreservePlaylist true) consume_session))
     = INum (-1)
  /\ currentVideoIndex (this (after (togglePreservePlaylist true) consume_session))
     <> INull
  /\ fst (previous (after (togglePreservePlaylist true) consume_session)) = Throw TypeError
  /\ currentVideoIndex
       (this (after previous (after (togglePreservePlaylist true) consume_session)))
     = INum (-2)
  /\ currentVideo
       (this (after previous (after (togglePreservePlaylist true) consume_session)))
     = None.
Proof.
  repeat split; try (vm_compute; reflexivity). vm_compute. discriminate.
Qed.

(** ** Reading the stored record *)

Lemma connect_no_record (v : Values) (w : World) :
  localStorage w = NoRecord \/ localStorage w = Garbled ->
  connect v w = (Normal tt, with_this (fun _ => fresh v) w).
Proof.
  destruct w as [c s vs cl]. cbn. intros [-> | ->]; reflexivity.
Qed.

Lemma with_this_id (w : World) : with_this (fun c => c) w = w.
Proof. now destruct w. Qed.

Lemma with_this_compose (f g : Controller -> Controller) (w : World) :
  with_this g (with_this f w) = with_this (fun c => g (f c)) w.
Proof. now destruct w. Qed.

Lemma bind_when_some {A B} (o : option A) (k : A -> M unit) (rest : unit -> M B)
    (f : A -> Controller -> Controller) (w : World) :
  (forall a w, k a w = (Normal tt, with_this (f a) w)) ->
  bind (when_some o k) rest w = rest tt (with_this (opt_apply o f) w).
Proof.
  intros H. unfold bind, when_some. destruct o as [a|].
  - now rewrite H.
  - destruct w; reflexivity.
Qed.

Lemma loadState_saved (r : SavedState) (w : World) :
  localStorage w = Saved r ->
  loadState w = (Normal tt, with_this (restore r) w).
Proof.
  intros Hr. unfold loadState, try_catch.
  assert (E : forall k : Storage -> M unit, bind getItem k w = k (Saved r) w).
  { intros k. unfold bind, getItem. now rewrite Hr. }
  rewrite E. clear E.
  rewrite (bind_when_some _ _ _ set_queue) by reflexivity.
  rewrite (bind_when_some _ _ _
             (fun v c => set_currentVideoIndex (Index_of_JsonIndex (s_currentVideoIndex r))
                           (set_currentVideo (Some v) c)))
    by (intros a [c s vs cl]; reflexivity).
  rewrite (bind_when_some _ _ _ set_autoplay) by reflexivity.
  rewrite (bind_when_some _ _ _ set_preservePlaylist) by reflexivity.
  rewrite (bind_when_some _ _ _
             (fun n c => if String.eqb n "" then c else set_channelNameValue n c))
    by (intros a [c s vs cl]; destruct (String.eqb a ""); reflexivity).
  rewrite (bind_when_some _ _ _
             (fun v c => if truthy v then set_savedVolume (Some v) c else c))
    by (intros a [c s vs cl]; destruct (truthy a); reflexivity).
  rewrite (bind_when_some _ _ _ set_isMuted) by reflexivity.
  assert (E : forall w,
             when_some (s_previousVolume r)
               (fun v => if truthy v then update (set_previousVolume v) else ret tt) w
             = (Normal tt,
                with_this (opt_apply (s_previousVolume r)
                             (fun v c => if truthy v then set_previousVolume v c else c)) w)).
  { intros [c s vs cl]. destruct (s_previousVolume r) as [v|]; cbn;
      [destruct (truthy v)|]; reflexivity. }
  rewrite E, !with_this_compose. reflexivity.
Qed.

Lemma connect_saved (v : Values) (r : SavedState) (w : World) :
  localStorage w = Saved r ->
  connect v w = (Normal tt, with_this (fun _ => restore r (fresh v)) w).
Proof.
  intros Hr. unfold connect, bind. cbn [update].
  rewrite (loadState_saved r) by exact Hr. now destruct w.
Qed.

(** The fields a step of [restore] leaves alone. *)
Ltac restore_steps :=
  unfold restore; cbn -[truthy String.eqb]; unfold opt_apply;
  repeat match goal with
         | |- context [match ?o with Some _ => _ | None => _ end] => destruct o
         | |- context [if ?b then _ else _] => destruct b
         end;
  reflexivity.

Lemma restore_queue (r : SavedState) (c : Controller) :
  s_queue r = None -> queue (restore r c) = queue c.
Proof. destruct r; cbn; intros ->; restore_steps. Qed.

Lemma restore_currentVideo (r : SavedState) (c : Controller) :
  s_currentVideo r = None ->
  currentVideo (restore r c) = currentVideo c
  /\ currentVideoIndex (restore r c) = currentVideoIndex c.
Proof. destruct r; cbn; intros ->; split; restore_steps. Qed.

Lemma restore_autoplay (r : SavedState) (c : Controller) :
  s_autoplay r = None -> autoplay (restore r c) = autoplay c.
Proof. destruct r; cbn; intros ->; restore_steps. Qed.

Lemma restore_preservePlaylist (r : SavedState) (c : Controller) :
  s_preservePlaylist r = None -> preservePlaylist (restore r c) = preservePlaylist c.
Proof. destruct r; cbn; intros ->; restore_steps. Qed.

(** C7, as the code has it. When nothing is stored, or what is stored
    cannot be parsed, [connect] completes normally (the failure of the
    parser stays inside [loadState]) and the controller is the one [connect]
    sets up: empty queue, no current video, null index, and the two flags as
    the page declares them, which by the declared defaults is autoplay off
    and preserve mode on. When a record is stored, [connect] completes
    normally and every key that is missing leaves its field as set up:
    without [queue] the queue is empty, without [currentVideo] the current
    video and the index are null, without [autoplay] or [preservePlaylist]
    the flag is the declared one. *)
Theorem C7_defaults (v : Values) (w : World) :
  let c' := this (after (connect v) w) in
  (localStorage w = NoRecord \/ localStorage w = Garbled ->
     fst (connect v w) = Normal tt
     /\ c' = fresh v
     /\ queue c' = [] /\ currentVideo c' = None /\ currentVideoIndex c' = INull
     /\ autoplay c' = autoplay_value v
     /\ preservePlaylist c' = preservePlaylist_value v)
  /\ (forall r, localStorage w = Saved r ->
        fst (connect v w) = Normal tt
        /\ (s_queue r = None -> queue c' = [])
        /\ (s_currentVideo r = None ->
            currentVideo c' = None /\ currentVideoIndex c' = INull)
        /\ (s_autoplay r = None -> autoplay c' = autoplay_value v)
        /\ (s_preservePlaylist r = None ->
            preservePlaylist c' = preservePlaylist_value v))
  /\ autoplay_value default_values = false
  /\ preservePlaylist_value default_values = true.
Proof.
  intros c'. subst c'. split; [|split; [|split; reflexivity]].
  - intros H. unfold after. rewrite (connect_no_record v w H).
    destruct w; repeat split.
  - intros r Hr. unfold after. rewrite (connect_saved v r w Hr).
    destruct w as [c s vs cl]. cbn [fst snd this with_this after update].
    split; [reflexivity|]. split; [|split; [|split]].
    + intros H. now rewrite restore_queue.
    + intros H. destruct (restore_currentVideo r (fresh v) H) as [-> ->]. now split.
    + intros H. now rewrite restore_autoplay.
    + intros H. now rewrite restore_preservePlaylist.
Qed.

(** On a record of the earlier version that has a current video, the index
    is left undefined and the mode is the declared one, preserve; the next
    [playNext] then computes no index, finds no current video and throws. *)
Remark older_record_index_undefined :
  currentVideo (this older_session) = Some item_a
  /\ currentVideoIndex (this older_session) = IUndefined
  /\ preservePlaylist (this older_session) = true
  /\ fst (playNext true older_session) = Throw TypeError
  /\ currentVideoIndex (this (after (playNext true) older_session)) = INaN
  /\ currentVideo (this (after (playNext true) older_session)) = None.
Proof. repeat split; vm_compute; reflexivity. Qed.

(** With nothing stored and the declared defaults, the mode after
    [connect] is preserve, not consume. *)
Lemma C7_default_mode_is_preserve :
  localStorage blank = NoRecord
  /\ preservePlaylist (this (after (connect default_values) blank)) = true
  /\ ~ (queue (this (after (connect default_values) blank)) = []
        /\ currentVideo (this (after (connect default_values) blank)) = None
        /\ currentVideoIndex (this (after (connect default_values) blank)) = INull
        /\ preservePlaylist (this (after (connect default_values) blank)) = false
        /\ autoplay (this (after (connect default_values) blank)) = false).
Proof.
  split; [reflexivity|]. split; [reflexivity|].
  intros [_ [_ [_ [H _]]]]. discriminate H.
Qed.

(** ** Writing the record and reading it back *)

Lemma toJSON_from_storage (i : QueueItem) : from_storage i -> toJSON_QueueItem i = i.
Proof.
  destruct i as [id t ch th u st a]. intros [ms H]. cbn in H. subst a. reflexivity.
Qed.

Lemma map_toJSON_from_storage (q : list QueueItem) :
  Forall from_storage q -> map toJSON_QueueItem q = q.
Proof.
  induction 1 as [|i q Hi _ IH]; cbn; [reflexivity|].
  now rewrite toJSON_from_storage, IH.
Qed.

Lemma saveState_world (w : World) :
  saveState w = (Normal tt, {| this := this w; localStorage := Saved (record_of w);
                               volumeSlider := volumeSlider w; calls := calls w |}).
Proof. reflexivity. Qed.

Lemma reload_this (v : Values) (w : World) :
  fst (connect v (after saveState w)) = Normal tt
  /\ this (reload v w) = restore (record_of w) (fresh v).
Proof.
  unfold reload, after. rewrite saveState_world. cbn [snd].
  rewrite (connect_saved v (record_of w)) by reflexivity. split; reflexivity.
Qed.

(** C1, as the code has it. After the state is written and read back,
    the mode and the autoplay flag are as they were; the queue and the
    current video are as they were except that an [addedAt] that was a date
    is now the string of that date, so that items which themselves came
    from the storage are reproduced exactly; the index is as it was when
    there is a current video and the index is null or an integer; and when
    there is no current video the index read back is null, whatever it
    was. *)
Theorem C1_round_trip (v : Values) (w : World) :
  let c := this w in
  let c' := this (reload v w) in
  fst (connect v (after saveState w)) = Normal tt
  /\ queue c' = map toJSON_QueueItem (queue c)
  /\ currentVideo c' = option_map toJSON_QueueItem (currentVideo c)
  /\ preservePlaylist c' = preservePlaylist c
  /\ autoplay c' = autoplay c
  /\ (currentVideo c <> None -> valid_index (currentVideoIndex c) ->
      currentVideoIndex c' = currentVideoIndex c)
  /\ (currentVideo c = None -> currentVideoIndex c' = INull)
  /\ (Forall from_storage (queue c) -> queue c' = queue c)
  /\ (forall i, currentVideo c = Some i -> from_storage i -> currentVideo c' = Some i).
Proof.
  intros c c'. destruct (reload_this v w) as [Hn Ht]. subst c c'. rewrite Ht. clear Ht.
  split; [exact Hn|]. clear Hn.
  destruct w as [c s vs cl]. destruct c as [q cv i ap pp cn mu pv sv di pl].
  unfold restore, record_of. cbn -[truthy String.eqb toJSON_QueueItem].
  destruct cv as [x|]; cbn -[truthy String.eqb toJSON_QueueItem];
    destruct (String.eqb cn ""), (truthy pv), (truthy (if truthy vs then vs else Num 50));
    cbn -[toJSON_QueueItem];
    (split; [reflexivity|]); (split; [reflexivity|]); (split; [reflexivity|]);
    (split; [reflexivity|]);
    (split; [try (intros H; now contradiction H);
             intros _ [->|[z ->]]; reflexivity|]);
    (split; [try discriminate; reflexivity|]);
    (split; [intros H; now apply map_toJSON_from_storage|]);
    intros j Hj Hs; try discriminate;
    injection Hj as ->; now rewrite toJSON_from_storage.
Qed.

(** After that session the state has index 0 and no current video; read
    back, the index is null. The [addedAt] of the queued item, a date, is
    read back as a string. *)
Lemma C1_index_lost_after_stop :
  preservePlaylist (this stopped_session) = true
  /\ ids (queue (this stopped_session)) = ["AAAAAAAAAAA"%string]
  /\ currentVideo (this stopped_session) = None
  /\ currentVideoIndex (this stopped_session) = INum 0
  /\ currentVideoIndex (this (reload default_values stopped_session)) = INull
  /\ currentVideoIndex (this (reload default_values stopped_session))
     <> currentVideoIndex (this stopped_session)
  /\ map addedAt (queue (this stopped_session)) = [DateObject 1000]
  /\ map addedAt (queue (this (reload default_values stopped_session))) = [IsoString 1000].
Proof.
  repeat split; try (vm_compute; reflexivity). vm_compute. discriminate.
Qed.

(** ** The start offset of a link *)






Lemma run_Seq (r1 r2 : regex) (s : MState) :
  run (Seq r1 r2) s = flat_map (run r2) (run r1 s).
Proof. reflexivity. Qed.

Lemma run_Group (n : nat) (r : regex) (s : MState) :
  run (Group n r) s = map (capture n s) (run r s).
Proof. reflexivity. Qed.





















(** ** Instances *)

(** When a second call for an identifier is made while the lookup of the
    first is still pending, both calls have passed the check before either
    item is pushed, and each goes on to push its item. The statement on
    calls that run one after the other says nothing about such overlapping
    calls. *)
Remark addToQueue_resume_twice :
  in_queue "AAAAAAAAAAA" (this (after (connect default_values) blank)) = false
  /\ ids (queue (this
       (after (addToQueue_resume "AAAAAAAAAAA" (Some "viewer"%string) None (answer "A") 2000)
          (after (addToQueue_resume "AAAAAAAAAAA" (Some "viewer"%string) None (answer "A") 1000)
             (after (connect default_values) blank)))))
     = ["AAAAAAAAAAA"%string; "AAAAAAAAAAA"%string].
Proof. split; vm_compute; reflexivity. Qed.

Lemma C1_round_trip_witness :
  currentVideoIndex
    (this (reload default_values (playlist [item_a; item_b] (INum 1))))
  = currentVideoIndex (this (playlist [item_a; item_b] (INum 1)))
  /\ queue (this (reload default_values (playlist [item_a; item_b] (INum 1))))
     = queue (this (playlist [item_a; item_b] (INum 1))).
Proof.
  destruct (C1_round_trip default_values (playlist [item_a; item_b] (INum 1)))
    as [_ [_ [_ [_ [_ [Hi [_ [Hq _]]]]]]]].
  split.
  - apply Hi; [discriminate | right; exists 1; reflexivity].
  - apply Hq. repeat constructor; eexists; reflexivity.
Defined.


Lemma C3_playNext_witness :
  currentVideoIndex
    (this (after (playNext true) (playlist [item_a; item_b; item_c] (INum 2)))) = INum 0
  /\ currentVideo
       (this (after (playNext true) (playlist [item_a; item_b; item_c] (INum 2))))
     = Some item_a.
Proof.
  exact (proj2 (proj2 (proj2 (C3_playNext true (playlist [item_a; item_b; item_c] (INum 2)))))
           item_a item_b item_c eq_refl eq_refl eq_refl).
Defined.

Lemma C4_reorder_witness :
  queue (this (after (reorder 0 3) (playlist [item_a; item_b; item_c; item_d] (INum 2))))
  = [item_b; item_c; item_d; item_a]
  /\ currentVideoIndex
       (this (after (reorder 0 3) (playlist [item_a; item_b; item_c; item_d] (INum 2))))
     = INum 1.
Proof.
  exact (proj2 (C4_reorder (playlist [item_a; item_b; item_c; item_d] (INum 2)))
           item_a item_b item_c item_d eq_refl eq_refl eq_refl).
Defined.

Lemma C5_no_invalid_index_witness :
  queue (this (after (removeFromQueue 7) (playlist [item_a; item_b] (INum 0))))
  = queue (this (playlist [item_a; item_b] (INum 0))).
Proof.
  destruct (C5_no_invalid_index (playlist [item_a; item_b] (INum 0)) 7)
    as [_ [_ [_ [H _]]]].
  apply H. vm_compute. discriminate.
Defined.

Lemma C7_defaults_witness :
  fst (connect default_values blank) = Normal tt
  /\ this (after (connect default_values) blank) = fresh default_values
  /\ queue (this (after (connect default_values) blank)) = []
  /\ currentVideo (this (after (connect default_values) blank)) = None
  /\ currentVideoIndex (this (after (connect default_values) blank)) = INull
  /\ autoplay (this (after (connect default_values) blank)) = autoplay_value default_values
  /\ preservePlaylist (this (after (connect default_values) blank))
     = preservePlaylist_value default_values.
Proof.
  apply (proj1 (C7_defaults default_values blank)). left. reflexivity.
Defined.


Lemma C9_lookup_failure_resilience_witness :
  exists item,
    addToQueue "AAAAAAAAAAA" (Some "viewer"%string) None NetworkFailure 1000 blank
    = (Normal tt, with_this (push item) blank)
    /\ queue (this (after (addToQueue "AAAAAAAAAAA" (Some "viewer"%string) None
                             NetworkFailure 1000) blank))
       = queue (this blank) ++ [item]
    /\ videoId item = "AAAAAAAAAAA"%string
    /\ title item = ("Video " ++ "AAAAAAAAAAA")%string
    /\ channel item = "Unknown"%string
    /\ thumbnail item
       = ("https://img.youtube.com/vi/" ++ "AAAAAAAAAAA" ++ "/mqdefault.jpg")%string
    /\ username item = Some "viewer"%string
    /\ startTime item = None.
Proof.
  apply C9_lookup_failure_resilience; [reflexivity | intros []].
Defined.

Lemma C10_current_video_not_checked_witness :
  exists item,
    videoId item = "AAAAAAAAAAA"%string
    /\ fst (addToQueue "AAAAAAAAAAA" (Some "viewer"%string) None (answer "A") 3000
              consume_session) = Normal tt
    /\ queue (this (after (addToQueue "AAAAAAAAAAA" (Some "viewer"%string) None
                             (answer "A") 3000) consume_session))
       = queue (this consume_session) ++ [item]
    /\ currentVideo (this (after (addToQueue "AAAAAAAAAAA" (Some "viewer"%string) None
                                    (answer "A") 3000) consume_session))
       = Some loaded_a.
Proof.
  apply C10_current_video_not_checked.
  - vm_compute. reflexivity.
  - vm_compute. reflexivity.
  - reflexivity.
  - vm_compute. intros [H|[]]. discriminate H.
Defined.

(** ** What a link and an identifier are made of *)

Lemma reads_refl (s : MState) : reads s s [].
Proof. split; [reflexivity | cbn; lia]. Qed.

Lemma reads_trans (s1 s2 s3 : MState) (a b : list ascii) :
  reads s1 s2 a -> reads s2 s3 b -> reads s1 s3 (a ++ b).
Proof.
  intros [H1 H2] [H3 H4]. split.
  - now rewrite H1, H3, app_assoc.
  - rewrite H4, H2, length_app. lia.
Qed.

Lemma iterate_reads (step : MState -> list MState) :
  (forall s s', In s' (step s) -> exists cs, reads s s' cs) ->
  forall fuel s s', In s' (iterate step fuel s) -> exists cs, reads s s' cs.
Proof.
  intros Hstep. induction fuel as [|fuel IH]; intros s s' H; cbn [iterate] in H.
  - destruct H as [<- | []]. exists []. apply reads_refl.
  - apply in_app_iff in H. destruct H as [H | [<- | []]].
    + apply in_flat_map in H. destruct H as [s1 [H1 H2]].
      destruct (length (rest s1) <? length (rest s))%nat; [|now cbn in *].
      destruct (Hstep _ _ H1) as [a Ha]. destruct (IH _ _ H2) as [b Hb].
      exists (a ++ b). eapply reads_trans; eassumption.
    + exists []. apply reads_refl.
Qed.

(** Every way an expression matches reads a stretch of the input, without
    gaps. *)
Lemma run_reads (r : regex) :
  forall s s', In s' (run r s) -> exists cs, reads s s' cs.
Proof.
  induction r as [|p|r1 IH1 r2 IH2|r1 IH1 r2 IH2|r1 IH1|n r1 IH1| |]; intros s s' H.
  - destruct H as [<- | []]. exists []. apply reads_refl.
  - cbn in H. destruct (rest s) as [|c t] eqn:E; [now cbn in *|].
    destruct (p c); [|now cbn in *]. destruct H as [<- | []].
    exists [c]. split; [exact E | cbn; lia].
  - cbn in H. apply in_flat_map in H. destruct H as [s1 [H1 H2]].
    destruct (IH1 _ _ H1) as [a Ha]. destruct (IH2 _ _ H2) as [b Hb].
    exists (a ++ b). eapply reads_trans; eassumption.
  - cbn in H. apply in_app_iff in H. destruct H as [H|H]; [now apply IH1 | now apply IH2].
  - cbn in H. now apply (iterate_reads (run r1) IH1) in H.
  - cbn in H. apply in_map_iff in H. destruct H as [s1 [<- H1]].
    destruct (IH1 _ _ H1) as [a Ha]. exists a. exact Ha.
  - cbn in H. destruct (pos s =? 0)%nat; [|now cbn in *].
    destruct H as [<- | []]. exists []. apply reads_refl.
  - cbn in H. destruct (rest s); [|now cbn in *].
    destruct H as [<- | []]. exists []. apply reads_refl.
Qed.

(** [n] characters of a class in a row. *)
Lemma run_rep_class (p : ascii -> bool) (n : nat) :
  forall s s', In s' (run (rep n (Class p)) s) ->
    exists cs, reads s s' cs /\ length cs = n /\ forallb p cs = true /\ caps s' = caps s.
Proof.
  induction n as [|n IH]; intros s s' H.
  - destruct H as [<- | []]. exists []. repeat split; cbn; lia.
  - cbn [rep] in H. rewrite run_Seq in H. apply in_flat_map in H.
    destruct H as [s1 [H1 H2]]. cbn in H1.
    destruct (rest s) as [|c t] eqn:E; [now cbn in *|].
    destruct (p c) eqn:Ep; [|now cbn in *]. destruct H1 as [<- | []].
    destruct (IH _ _ H2) as [cs [[Hr Hp] [Hl [Hf Hc]]]]. cbn in Hr, Hp, Hc.
    exists (c :: cs). repeat split; cbn.
    + now rewrite E, Hr.
    + lia.
    + now rewrite Hl.
    + now rewrite Ep, Hf.
    + exact Hc.
Qed.

Lemma firstn_reads (s s' : MState) (cs : list ascii) :
  reads s s' cs -> firstn (pos s' - pos s) (rest s) = cs.
Proof.
  intros [Hr Hp]. rewrite Hr, Hp.
  replace (pos s + length cs - pos s)%nat with (length cs + 0)%nat by lia.
  rewrite firstn_app_2. cbn. apply app_nil_r.
Qed.

(** A match found by [search] starts somewhere in the text and is the
    stretch read by a way of the expression. *)
Lemma search_found (r : regex) (l : list ascii) (p : nat) (m : Match) :
  search r p l = Some m ->
  exists pre l' s',
    l = pre ++ l'
    /\ In s' (run r {| pos := p + length pre; rest := l'; caps := [] |})
    /\ matched m = firstn (pos s' - (p + length pre)) l'
    /\ groups m = caps s'.
Proof.
  revert p. induction l as [|c t IH]; intros p H; cbn [search] in H.
  - destruct (run r {| pos := p; rest := []; caps := [] |}) as [|s' ss] eqn:E; [discriminate|].
    injection H as <-. exists [], [], s'. cbn [length app]. rewrite Nat.add_0_r, E.
    repeat split. now left.
  - destruct (run r {| pos := p; rest := c :: t; caps := [] |}) as [|s' ss] eqn:E.
    + destruct (IH _ H) as [pre [l' [s' [Hl [Hin [Hm Hg]]]]]].
      exists (c :: pre), l', s'. cbn [length app].
      replace (p + S (length pre))%nat with (S p + length pre)%nat by lia.
      repeat split; try assumption. now rewrite Hl.
    + injection H as <-. exists [], (c :: t), s'. cbn [length app]. rewrite Nat.add_0_r, E.
      repeat split. now left.
Qed.

Lemma exec_matched (r : regex) (l : list ascii) (m : Match) :
  exec r l = Some m -> exists pre post, l = pre ++ matched m ++ post.
Proof.
  intros H. apply search_found in H.
  destruct H as [pre [l' [s' [Hl [Hin [Hm _]]]]]].
  destruct (run_reads r _ _ Hin) as [cs Hcs].
  pose proof (firstn_reads _ _ _ Hcs) as F. cbn [pos rest] in F.
  destruct Hcs as [Hr _]. cbn [rest] in Hr.
  exists pre, (rest s'). now rewrite Hm, F, Hl, Hr.
Qed.

Lemma string_of_list_ascii_app (a b : list ascii) :
  string_of_list_ascii (a ++ b) = (string_of_list_ascii a ++ string_of_list_ascii b)%string.
Proof. induction a as [|c a IH]; cbn; [reflexivity | now rewrite IH]. Qed.

Lemma length_string_of_list_ascii (l : list ascii) :
  String.length (string_of_list_ascii l) = length l.
Proof. induction l as [|c l IH]; cbn; [reflexivity | now rewrite IH]. Qed.

Lemma substring_of_lists (text : string) (pre part post : list ascii) :
  list_ascii_of_string text = pre ++ part ++ post ->
  substring (string_of_list_ascii part) text.
Proof.
  intros H. exists (string_of_list_ascii pre), (string_of_list_ascii post).
  rewrite <- !string_of_list_ascii_app, <- H.
  now rewrite string_of_list_ascii_of_string.
Qed.

(** X1. A link that [extractYoutubeUrl] returns is a piece of the text it
    was given. *)
Theorem X1_link_is_part_of_text (text url : string) :
  extractYoutubeUrl text = Some url -> substring url text.
Proof.
  unfold extractYoutubeUrl.
  destruct (exec youtuBeRegex (list_ascii_of_string text)) as [m|] eqn:E1.
  - intros H. injection H as <-. destruct (exec_matched _ _ _ E1) as [pre [post H]].
    now apply (substring_of_lists text pre _ post).
  - destruct (exec youtubeComRegex (list_ascii_of_string text)) as [m|] eqn:E2;
      [|discriminate].
    intros H. injection H as <-. destruct (exec_matched _ _ _ E2) as [pre [post H]].
    now apply (substring_of_lists text pre _ post).
Qed.

(** What the expression of [extractVideoId] captures. *)
Lemma exec_videoIdRegex (l : list ascii) (m : Match) :
  exec videoIdRegex l = Some m ->
  exists pre post,
    l = pre ++ group 1 (groups m) ++ post
    /\ length (group 1 (groups m)) = 11%nat
    /\ forallb id_char (group 1 (groups m)) = true.
Proof.
  intros E.
  apply search_found in E. destruct E as [pre [l' [s' [Hl [Hin [_ Hg]]]]]].
  unfold videoIdRegex in Hin. rewrite run_Seq in Hin. apply in_flat_map in Hin.
  destruct Hin as [s1 [H1 H2]]. rewrite run_Group in H2. apply in_map_iff in H2.
  destruct H2 as [s2 [<- H2]].
  destruct (run_reads _ _ _ H1) as [a [Ha _]]. cbn [rest] in Ha.
  destruct (run_rep_class _ _ _ _ H2) as [cs [Hcs [Hlen [Hall _]]]].
  rewrite Hg. unfold capture. cbn [caps group Nat.eqb].
  rewrite (firstn_reads _ _ _ Hcs). destruct Hcs as [Hr _].
  exists (pre ++ a), (rest s2). repeat split; try assumption.
  now rewrite Hl, Ha, Hr, <- app_assoc.
Qed.

(** X2. An identifier that [extractVideoId] returns has exactly eleven
    characters, none of them a double quote, [&], [?], [/] or white space,
    and is a piece of the link it was taken from. *)
Theorem X2_identifier_shape (url id : string) :
  extractVideoId url = Some id ->
  String.length id = 11%nat
  /\ forallb id_char (list_ascii_of_string id) = true
  /\ substring id url.
Proof.
  unfold extractVideoId.
  destruct (exec videoIdRegex (list_ascii_of_string url)) as [m|] eqn:E; [|discriminate].
  intros H. injection H as <-.
  destruct (exec_videoIdRegex _ _ E) as [pre [post [Hl [Hlen Hall]]]].
  split; [now rewrite length_string_of_list_ascii|].
  split; [now rewrite list_ascii_of_string_of_list_ascii|].
  now apply (substring_of_lists url pre _ post).
Qed.

(** ** The handlers as functions on the controller *)

Ltac js_keep :=
  autounfold with js;
  cbn -[Z.of_nat Z.rem at_Index succ_rem pred_wrap splice rebase findIndex js_rem length
        truthy toJSON_QueueItem Z.ltb].

Lemma playNext_view (manual : bool) (w : World) :
  this (after (playNext manual) w) = advanced (this w)
  /\ fst (playNext manual w)
     = if playNext_throws (this w) then Throw TypeError else Normal tt.
Proof.
  destruct w as [c s vs cl]. destruct c as [q cv i ap pp cn mu pv sv di pl].
  unfold advanced, playNext_throws, advanced, len. js_keep.
  destruct q as [|x q]; [split; reflexivity|].
  destruct pp; js_keep.
  - set (i' := if not_null i then _ else _).
    destruct pl; js_keep; try (split; reflexivity).
    destruct (at_Index (x :: q) i'); [destruct (manual || ap)|]; split; reflexivity.
  - destruct pl; js_keep; try (split; reflexivity).
    destruct (manual || ap); split; reflexivity.
Qed.

Lemma previous_view (w : World) :
  this (after previous w) = stepped_back (this w)
  /\ fst (previous w) = if previous_throws (this w) then Throw TypeError else Normal tt.
Proof.
  destruct w as [c s vs cl]. destruct c as [q cv i ap pp cn mu pv sv di pl].
  unfold stepped_back, previous_throws, stepped_back, previous_acts, len. js_keep.
  destruct pl; js_keep; try (split; reflexivity);
    destruct (pp && (0 <? Z.of_nat (length q))); js_keep; try (split; reflexivity);
    set (i' := if not_null i then _ else _);
    destruct (at_Index q i'); split; reflexivity.
Qed.

Lemma addToQueue_view (v : string) (u : option string) (st : option Z)
    (r : Response) (now : Z) (w : World) :
  this (after (addToQueue v u st r now) w) = enqueued v u st r now (this w)
  /\ fst (addToQueue v u st r now w) = Normal tt.
Proof.
  destruct w as [c s vs cl]. destruct c as [q cv i ap pp cn mu pv sv di pl].
  unfold enqueued, playNext_throws, advanced, push, item_of, len.
  autounfold with js;
    cbn -[Z.of_nat Z.rem at_Index succ_rem js_rem length truthy toJSON_QueueItem in_queue].
  destruct (in_queue v _); [split; reflexivity|].
  destruct r as [| |data];
    cbn -[Z.of_nat Z.rem at_Index succ_rem js_rem length truthy toJSON_QueueItem];
    try (split; reflexivity).
  destruct cv as [x|];
    cbn -[Z.of_nat Z.rem at_Index succ_rem js_rem length truthy toJSON_QueueItem];
    [split; reflexivity|].
  destruct q as [|y q];
    cbn -[Z.of_nat Z.rem at_Index succ_rem js_rem length truthy toJSON_QueueItem];
    (destruct pp;
     cbn -[Z.of_nat Z.rem at_Index succ_rem js_rem length truthy toJSON_QueueItem];
     [ set (i' := if not_null i then _ else _);
       destruct pl;
       cbn -[Z.of_nat Z.rem at_Index succ_rem js_rem length truthy toJSON_QueueItem];
       try (split; reflexivity);
       destruct (at_Index _ i'); [destruct ap|]; split; reflexivity
     | destruct pl, ap; split; reflexivity ]).
Qed.

Lemma removeFromQueue_view (index : Z) (w : World) :
  this (after (removeFromQueue index) w) = set_queue (splice (queue (this w)) index 1 []) (this w)
  /\ fst (removeFromQueue index w) = Normal tt.
Proof. split; reflexivity. Qed.

Lemma drop_view (target : option Z) (w : World) :
  this (after (drop target) w) = dropped target (this w).
Proof.
  destruct w as [c s vs cl]. destruct c as [q cv i ap pp cn mu pv sv di pl].
  unfold dropped. js_keep.
  destruct target as [to|]; [|reflexivity].
  destruct (negb (not_null di)); [reflexivity|].
  destruct (strict_eq di (INum to)); [reflexivity|].
  destruct (at_Index q di); reflexivity.
Qed.

Lemma reorder_view (from to : Z) (w : World) :
  this (after (reorder from to) w) = reordered from to (this w)
  /\ fst (reorder from to w)
     = if throws (Reorder from to) (this w) then Throw TypeError else Normal tt.
Proof.
  destruct w as [c s vs cl]. destruct c as [q cv i ap pp cn mu pv sv di pl].
  unfold reordered, dropped, throws. js_keep.
  rewrite Z.eqb_sym.
  destruct (to =? from); [destruct (at_Index q (INum from)); split; reflexivity|].
  js_keep. destruct (at_Index q (INum from)); split; reflexivity.
Qed.

Lemma stop_view (w : World) :
  this (after stop w) = stopped (this w)
  /\ fst (stop w) = if throws Stop (this w) then Throw TypeError else Normal tt.
Proof.
  destruct w as [c s vs cl]. destruct c as [q cv i ap pp cn mu pv sv di pl].
  unfold stopped, throws, playNext_throws, advanced, len. js_keep.
  destruct pl; js_keep; try (split; reflexivity).
  destruct q as [|x q]; js_keep; [split; reflexivity|].
  destruct ap; js_keep; [|split; reflexivity].
  destruct pp; js_keep; [|split; reflexivity].
  set (i' := if not_null i then _ else _).
  destruct (at_Index (x :: q) i'); split; reflexivity.
Qed.

Lemma addToQueueByUrl_view (url : string) (u : option string) (r : Response) (now : Z)
    (w : World) :
  this (after (addToQueueByUrl url u r now) w)
  = enqueued_call (call_of_url url u r now) (this w)
  /\ fst (addToQueueByUrl url u r now w) = Normal tt.
Proof.
  unfold addToQueueByUrl, call_of_url.
  destruct (extractVideoId url) as [v|]; [|split; reflexivity].
  apply addToQueue_view.
Qed.

Lemma processMessage_view (message username0 : string) (r : Response) (now : Z)
    (w : World) :
  this (after (processMessage message username0 r now) w)
  = enqueued_call (call_of_chat message username0 r now) (this w)
  /\ fst (processMessage message username0 r now w) = Normal tt.
Proof.
  unfold processMessage, call_of_chat.
  destruct (extractYoutubeUrl message) as [url|]; [|split; reflexivity].
  apply addToQueueByUrl_view.
Qed.

Lemma addYoutubeLink_view (input : string) (r : Response) (now : Z) (w : World) :
  this (after (addYoutubeLink input r now) w)
  = enqueued_call (call_of_input input r now) (this w)
  /\ fst (addYoutubeLink input r now w) = Normal tt.
Proof.
  unfold addYoutubeLink, call_of_input.
  destruct (String.eqb _ ""); [split; reflexivity|].
  destruct (extractYoutubeUrl _) as [url|]; [|split; reflexivity].
  destruct (addToQueueByUrl_view url (Some "Manual"%string) r now w) as [Ht Hf].
  unfold after, bind, showSuccess, ret in *.
  destruct (addToQueueByUrl url (Some "Manual"%string) r now w) as [[[]|e] w'];
    cbn in *; [split; [exact Ht | reflexivity]|discriminate].
Qed.

Lemma onPlayerStateChange_view (data : PlayerState) (w : World) :
  this (after (onPlayerStateChange data) w) = effect (StateChange data) (this w)
  /\ fst (onPlayerStateChange data w)
     = if throws (StateChange data) (this w) then Throw TypeError else Normal tt.
Proof.
  unfold onPlayerStateChange, bind, get_this, after. cbn [effect throws].
  destruct data; try (split; reflexivity).
  destruct (autoplay (this w)); [apply playNext_view|split; reflexivity].
Qed.

Lemma onPlayerReady_view (w : World) :
  this (after onPlayerReady w) = set_player PlayerReady (this w)
  /\ fst (onPlayerReady w) = Normal tt.
Proof.
  destruct w as [c s vs cl]. destruct c as [q cv i ap pp cn mu pv sv di pl].
  js_keep. destruct cv; split; reflexivity.
Qed.

Lemma togglePreservePlaylist_view (checked : bool) (w : World) :
  this (after (togglePreservePlaylist checked) w) = toggled checked (this w)
  /\ fst (togglePreservePlaylist checked w) = Normal tt.
Proof.
  unfold after. rewrite togglePreservePlaylist_world.
  destruct w as [c s vs cl]. destruct c as [q cv i ap pp cn mu pv sv di pl].
  unfold toggled. destruct checked, cv; split; reflexivity.
Qed.

(** The handler of an event does to the controller what [effect] says, and
    throws when [throws] says. *)
Lemma handler_view (e : Event) (w : World) :
  this (after (handler e) w) = effect e (this w)
  /\ fst (handler e w) = if throws e (this w) then Throw TypeError else Normal tt.
Proof.
  destruct e; cbn [handler effect].
  - apply processMessage_view.
  - apply addYoutubeLink_view.
  - apply addToQueue_view.
  - apply playNext_view.
  - apply previous_view.
  - apply removeFromQueue_view.
  - split; reflexivity.
  - apply reorder_view.
  - apply stop_view.
  - split; reflexivity.
  - apply togglePreservePlaylist_view.
  - split; reflexivity.
  - apply onPlayerReady_view.
  - apply onPlayerStateChange_view.
Qed.

Lemma this_after_handler (e : Event) (w : World) :
  this (after (handler e) w) = effect e (this w).
Proof. apply handler_view. Qed.

(** ** No identifier twice, no index below zero *)

Ltac fields c :=
  destruct c as [q cv i ap pp cn mu pv sv di pl];
  cbn [queue currentVideo currentVideoIndex autoplay preservePlaylist channelNameValue
       isMuted previousVolume savedVolume draggedIndex player
       set_queue set_currentVideo set_currentVideoIndex set_autoplay set_preservePlaylist
       set_draggedIndex set_player] in *.

Lemma succ_in_range (i : Index) (n : Z) :
  sane i -> 0 < n ->
  exists k, (if not_null i then succ_rem i n else INum 0) = INum k /\ 0 <= k < n.
Proof.
  intros [-> | [k [-> Hk]]] Hn; cbn.
  - exists 0. split; [reflexivity|lia].
  - unfold js_rem. destruct (Z.eqb_spec n 0); [lia|].
    exists (Z.rem (k + 1) n). split; [reflexivity|]. apply Z.rem_bound_pos; lia.
Qed.

Lemma at_Index_in_range (q : list QueueItem) (k : Z) :
  in_range q k -> exists x, at_Index q (INum k) = Some x.
Proof.
  intros H. destruct (at_Z_in_range q k H) as [x [Hx _]]. now exists x.
Qed.

Lemma sane_in_range (q : list QueueItem) (i : Index) :
  (i = INull \/ exists k, i = INum k /\ in_range q k) -> sane i.
Proof.
  intros [-> | [k [-> Hk]]]; [now left|]. right. exists k. split; [reflexivity|apply Hk].
Qed.

Lemma len_cons (x : QueueItem) (q : list QueueItem) : 0 < len (x :: q).
Proof. unfold len. cbn [length]. lia. Qed.

(** [playNext] finds an item whenever the index is sane. *)
Lemma advanced_in_range (c : Controller) :
  sane (currentVideoIndex c) -> queue c <> [] -> preservePlaylist c = true ->
  exists k x, currentVideoIndex (advanced c) = INum k
              /\ in_range (queue c) k
              /\ at_Index (queue c) (INum k) = Some x
              /\ currentVideo (advanced c) = Some x
              /\ queue (advanced c) = queue c.
Proof.
  intros Hs Hq Hp. unfold advanced. fields c. subst pp.
  destruct q as [|x q]; [contradiction|].
  destruct (succ_in_range i (len (x :: q)) Hs (len_cons x q)) as [k [-> Hk]].
  destruct (at_Index_in_range (x :: q) k Hk) as [y Hy].
  exists k, y. cbn [currentVideoIndex currentVideo queue]. rewrite Hy. now repeat split.
Qed.

Lemma playNext_no_throw (c : Controller) :
  sane (currentVideoIndex c) -> playNext_throws c = false.
Proof.
  intros Hs. unfold playNext_throws.
  destruct (queue c) as [|x q] eqn:Eq; [reflexivity|].
  destruct (player c); try reflexivity.
  destruct (preservePlaylist c) eqn:Ep.
  - destruct (advanced_in_range c Hs) as [k [y [_ [_ [_ [-> _]]]]]];
      [now rewrite Eq|assumption|reflexivity].
  - unfold advanced. now rewrite Eq, Ep.
Qed.

Lemma advanced_tidy (c : Controller) : tidy c -> tidy (advanced c).
Proof.
  intros [Hn Hs]. destruct (queue c) as [|x q] eqn:Eq.
  - unfold advanced. rewrite Eq. split; [cbn; now rewrite Eq|now left].
  - destruct (preservePlaylist c) eqn:Ep.
    + destruct (advanced_in_range c Hs) as [k [y [Hk [Hr [_ [_ Hq]]]]]];
        [now rewrite Eq|assumption|].
      split; [now rewrite Hq, Eq|]. rewrite Hk. right. exists k. split; [reflexivity|apply Hr].
    + unfold advanced. rewrite Eq, Ep. split; [|now left].
      cbn. cbn in Hn. now apply NoDup_cons_iff in Hn.
Qed.

Lemma stepped_back_tidy (c : Controller) : tidy c -> tidy (stepped_back c).
Proof.
  intros [Hn Hs]. unfold stepped_back, previous_acts.
  destruct (match player c with NoPlayer => false | _ => _ end) eqn:Ea;
    [|now split].
  split; [exact Hn|]. cbn.
  assert (Hl : 0 < len (queue c)).
  { destruct (player c); [discriminate| |];
      apply andb_prop in Ea; destruct Ea as [_ Ea]; now apply Z.ltb_lt in Ea. }
  destruct Hs as [-> | [k [-> Hk]]]; cbn; right.
  - exists 0. split; [reflexivity|lia].
  - destruct (Z.eqb_spec k 0).
    + exists (len (queue c) - 1). split; [reflexivity|lia].
    + exists (k - 1). split; [reflexivity|lia].
Qed.

Lemma In_firstn_skipn {A} (a b : nat) (l : list A) (x : A) :
  In x (firstn a l ++ skipn b l) -> In x l.
Proof.
  intros H. apply in_app_or in H. destruct H as [H | H].
  - rewrite <- (firstn_skipn a l). apply in_or_app. now left.
  - rewrite <- (firstn_skipn b l). apply in_or_app. now right.
Qed.

Lemma NoDup_firstn_skipn {A} (l : list A) :
  NoDup l -> forall a b, (a <= b)%nat -> NoDup (firstn a l ++ skipn b l).
Proof.
  induction 1 as [|x l Hx Hl IH]; intros a b Hab.
  - rewrite firstn_nil, skipn_nil. constructor.
  - destruct b as [|b].
    + replace a with 0%nat by lia. cbn. now constructor.
    + destruct a as [|a]; cbn.
      * apply (IH 0%nat b). lia.
      * constructor; [|apply IH; lia].
        intro Hin. apply Hx. exact (In_firstn_skipn a b l x Hin).
Qed.

Lemma NoDup_splice_out (q : list QueueItem) (n d : Z) :
  NoDup (ids q) -> NoDup (ids (splice q n d [])).
Proof.
  intros H. unfold splice, ids. cbn [app].
  rewrite map_app, <- firstn_map, <- skipn_map.
  apply NoDup_firstn_skipn; [exact H|].
  unfold relative_start. destruct (Z.ltb_spec n 0); lia.
Qed.

Lemma Permutation_remove_at {A} (n : nat) (l : list A) (x : A) :
  nth_error l n = Some x -> Permutation l (x :: remove_at n l).
Proof.
  revert l. induction n as [|n IH]; intros [|y l] H; try discriminate.
  - cbn in H. injection H as ->. apply Permutation_refl.
  - cbn in H. change (remove_at (S n) (y :: l)) with (y :: remove_at n l).
    eapply Permutation_trans; [apply perm_skip, IH, H|apply perm_swap].
Qed.

Lemma Permutation_insert_at {A} (n : nat) (l : list A) (x : A) :
  Permutation (insert_at n x l) (x :: l).
Proof.
  unfold insert_at. apply Permutation_sym.
  rewrite <- (firstn_skipn n l) at 1. apply Permutation_middle.
Qed.

Lemma Permutation_moved {A} (from to : nat) (l : list A) (x : A) :
  nth_error l from = Some x ->
  Permutation (insert_at to x (remove_at from l)) l.
Proof.
  intros H. eapply Permutation_trans; [apply Permutation_insert_at|].
  apply Permutation_sym. now apply Permutation_remove_at.
Qed.

(** [drop] between two positions of the queue, on the controller. *)
Lemma reordered_same (n : Z) (c : Controller) :
  reordered n n c = set_draggedIndex INull c.
Proof.
  unfold reordered, dropped. fields c. cbn. now rewrite Z.eqb_refl.
Qed.

Lemma reordered_in_range (from to : Z) (c : Controller) :
  in_range (queue c) from -> in_range (queue c) to -> from <> to ->
  exists x,
    nth_error (queue c) (Z.to_nat from) = Some x
    /\ reordered from to c
       = set_draggedIndex INull
           (rebase to (set_queue (insert_at (Z.to_nat to) x
                                    (remove_at (Z.to_nat from) (queue c)))
                         (set_draggedIndex (INum from) c))).
Proof.
  intros Hf Ht Hne. unfold in_range, len in *.
  destruct (at_Z_in_range (queue c) from Hf) as [x [Hx Hn]].
  exists x. split; [exact Hn|].
  unfold reordered, dropped. fields c.
  cbn -[splice at_Z rebase Z.of_nat].
  destruct (Z.eqb_spec from to); [contradiction|].
  rewrite Hx. cbn -[splice at_Z rebase Z.of_nat].
  rewrite splice_remove by assumption.
  rewrite splice_insert; [reflexivity|].
  rewrite length_remove_at by lia. lia.
Qed.

Lemma rebase_is_set (to : Z) (c : Controller) :
  exists i', rebase to c = set_currentVideoIndex i' c.
Proof.
  unfold rebase.
  repeat match goal with |- context [if ?b then _ else _] => destruct b end;
    try (eexists; reflexivity).
  all: exists (currentVideoIndex c); now destruct c.
Qed.

Lemma rebase_sane (from to : Z) (c : Controller) :
  draggedIndex c = INum from -> 0 <= from -> 0 <= to ->
  sane (currentVideoIndex c) -> sane (currentVideoIndex (rebase to c)).
Proof.
  intros Hd Hf Ht Hs. destruct (preservePlaylist c) eqn:Ep.
  - destruct Hs as [Hi | [k [Hi Hk]]].
    + rewrite rebase_off by now right. now left.
    + rewrite (rebase_number from to k) by assumption.
      right. exists (rebased from to k). split; [reflexivity|].
      unfold rebased.
      destruct (Z.eqb_spec from k), (Z.ltb_spec from k), (Z.leb_spec k to),
        (Z.leb_spec to k), (Z.ltb_spec k from); cbn; lia.
  - rewrite rebase_off by now left. exact Hs.
Qed.

Lemma reordered_tidy (from to : Z) (c : Controller) :
  in_range (queue c) from -> in_range (queue c) to ->
  tidy c -> tidy (reordered from to c).
Proof.
  intros Hf Ht [Hn Hs]. destruct (Z.eq_dec from to) as [<- | Hne].
  - rewrite reordered_same. now split.
  - destruct (reordered_in_range from to c Hf Ht Hne) as [x [Hx ->]].
    set (c1 := set_queue _ _).
    destruct (rebase_is_set to c1) as [i' Hi'].
    split.
    + rewrite Hi'. cbn. unfold ids.
      eapply Permutation_NoDup; [|exact Hn].
      apply Permutation_sym, Permutation_map, Permutation_moved, Hx.
    + change (sane (currentVideoIndex (rebase to c1))).
      apply (rebase_sane from); [reflexivity|apply Hf|apply Ht|exact Hs].
Qed.

Lemma push_tidy (item : QueueItem) (c : Controller) :
  in_queue (videoId item) c = false -> tidy c -> tidy (push item c).
Proof.
  intros E [Hn Hs]. split; [|exact Hs].
  cbn. rewrite ids_snoc. apply NoDup_snoc; [exact Hn|].
  intro Hin. apply in_queue_iff in Hin. congruence.
Qed.

Lemma enqueued_tidy (v : string) (u : option string) (st : option Z)
    (r : Response) (now : Z) (c : Controller) :
  tidy c -> tidy (enqueued v u st r now c).
Proof.
  intros Ht. unfold enqueued. destruct (in_queue v c) eqn:E; [exact Ht|].
  assert (Hp : forall item, videoId item = v -> tidy (push item c)).
  { intros item <-. now apply push_tidy. }
  destruct r as [| |data]; try (now apply Hp).
  specialize (Hp (item_of v u st data now) eq_refl).
  destruct (currentVideo c); [exact Hp|].
  rewrite playNext_no_throw by apply Hp. now apply advanced_tidy.
Qed.

Lemma enqueued_call_tidy (o : option Call) (c : Controller) :
  tidy c -> tidy (enqueued_call o c).
Proof. destruct o; [apply enqueued_tidy|trivial]. Qed.

Lemma stopped_tidy (c : Controller) : tidy c -> tidy (stopped c).
Proof.
  intros Ht. unfold stopped. destruct (player c); try exact Ht.
  destruct (queue c) eqn:Eq.
  - split; [constructor|apply Ht].
  - destruct (autoplay c); [apply advanced_tidy|]; exact Ht.
Qed.

Lemma findIndex_found (v : string) (q : list QueueItem) :
  In v (ids q) ->
  in_range q (findIndex (fun item => String.eqb (videoId item) v) q)
  /\ exists x, nth_error q (Z.to_nat (findIndex (fun item => String.eqb (videoId item) v) q))
               = Some x /\ videoId x = v.
Proof.
  intros Hin.
  assert (He : existsb (fun item => String.eqb (videoId item) v) q = true).
  { apply (in_queue_iff v (set_queue q (fresh default_values))). exact Hin. }
  destruct (findIndex_from_spec (fun item => String.eqb (videoId item) v) q 0)
    as [_ [_ H]].
  destruct (H ltac:(lia) He) as [Hr [x [Hx Hp]]].
  rewrite Z.sub_0_r in Hx. unfold findIndex, in_range, len.
  split; [lia|]. exists x. split; [exact Hx|]. now apply String.eqb_eq.
Qed.

Lemma toggled_tidy (checked : bool) (c : Controller) :
  (checked = true -> forall v, currentVideo c = Some v -> In (videoId v) (ids (queue c))) ->
  tidy c -> tidy (toggled checked c).
Proof.
  intros Hc [Hn Hs]. unfold toggled.
  destruct checked; [|split; [exact Hn|now left]].
  destruct (currentVideo c) as [v|] eqn:Ev; [|split; [exact Hn|now left]].
  split; [exact Hn|]. right. eexists. split; [reflexivity|].
  apply (findIndex_found (videoId v) (queue c)). now apply Hc.
Qed.

Lemma effect_tidy (e : Event) (w : World) :
  tidy (this w) -> on_items e w /\ finds_current e w -> tidy (effect e (this w)).
Proof.
  intros Ht [Ho Hf]. destruct e; cbn [effect].
  - now apply enqueued_call_tidy.
  - now apply enqueued_call_tidy.
  - now apply enqueued_tidy.
  - now apply advanced_tidy.
  - now apply stepped_back_tidy.
  - split; [apply NoDup_splice_out|]; apply Ht.
  - split; [constructor|apply Ht].
  - destruct Ho. now apply reordered_tidy.
  - now apply stopped_tidy.
  - exact Ht.
  - apply toggled_tidy; [|exact Ht]. intros -> v Hv. cbn in Hf. now rewrite Hv in Hf.
  - exact Ht.
  - exact Ht.
  - destruct data; try exact Ht. destruct (autoplay (this w)); [now apply advanced_tidy|exact Ht].
Qed.

(** X3. However links arrive and whatever the viewer does, the queue never
    holds an identifier twice and the index is never anything but null or a
    number from 0 on, as long as a drag goes from an item of the queue to an
    item of the queue and the mode is switched to preserve only without a
    current video or with one whose identifier is in the queue. *)
Theorem X3_queue_stays_tidy (es : list Event) (w : World) :
  tidy (this w) ->
  each (fun e w => on_items e w /\ finds_current e w) es w ->
  tidy (this (play es w)).
Proof.
  revert w. induction es as [|e es IH]; intros w Ht He; [exact Ht|].
  destruct He as [Hc He]. cbn [play fold_left]. apply IH; [|exact He].
  rewrite this_after_handler. now apply effect_tidy.
Qed.

(** ** The index stays on the current video *)

Lemma advanced_aligned (c : Controller) :
  sane (currentVideoIndex c) -> aligned (advanced c).
Proof.
  intros Hs. destruct (queue c) as [|x q] eqn:Eq.
  - unfold advanced. rewrite Eq. split; [now left|]. cbn. discriminate.
  - destruct (preservePlaylist c) eqn:Ep.
    + destruct (advanced_in_range c Hs) as [k [y [Hk [Hr [Hy [Hv Hq]]]]]];
        [now rewrite Eq|assumption|].
      split.
      * right. exists k. now rewrite Hq.
      * intros _ v. rewrite Hv, Hk, Hq, Hy. trivial.
    + unfold advanced. rewrite Eq, Ep. split; [now left|]. cbn. congruence.
Qed.

Lemma aligned_sane (c : Controller) : aligned c -> sane (currentVideoIndex c).
Proof. intros [H _]. exact (sane_in_range _ _ H). Qed.

Lemma stepped_back_aligned (c : Controller) : aligned c -> aligned (stepped_back c).
Proof.
  intros Ha. unfold stepped_back. destruct (previous_acts c) eqn:Ea; [|exact Ha].
  assert (Hl : 0 < len (queue c)).
  { unfold previous_acts in Ea. destruct (player c); [discriminate| |];
      apply andb_prop in Ea; destruct Ea as [_ Ea]; now apply Z.ltb_lt in Ea. }
  set (i' := if not_null _ then _ else _).
  split; [|intros _ v Hv; exact Hv].
  right. cbn. destruct Ha as [[Hi | [k [Hi Hk]]] _]; subst i'; rewrite Hi; cbn.
  - exists 0. split; [reflexivity|]. unfold in_range. lia.
  - unfold in_range in *. destruct (Z.eqb_spec k 0).
    + exists (len (queue c) - 1). split; [reflexivity|lia].
    + exists (k - 1). split; [reflexivity|lia].
Qed.

Lemma push_aligned (item : QueueItem) (c : Controller) : aligned c -> aligned (push item c).
Proof.
  intros [Hr Hp]. unfold push, aligned, in_range, len in *. cbn.
  rewrite length_app. cbn [length]. split.
  - destruct Hr as [Hi | [k [Hi Hk]]]; [now left|]. right. exists k. split; [exact Hi|lia].
  - intros Hm v Hv. specialize (Hp Hm v Hv).
    destruct (currentVideoIndex c) as [| | |k]; try discriminate.
    cbn in *. unfold at_Z in *. destruct (k <? 0); [discriminate|].
    rewrite nth_error_app1; [exact Hp|]. apply nth_error_Some. congruence.
Qed.

Lemma enqueued_aligned (v : string) (u : option string) (st : option Z)
    (r : Response) (now : Z) (c : Controller) :
  aligned c -> aligned (enqueued v u st r now c).
Proof.
  intros Ha. unfold enqueued. destruct (in_queue v c); [exact Ha|].
  destruct r as [| |data]; try (now apply push_aligned).
  destruct (currentVideo c); [now apply push_aligned|].
  assert (Hs : sane (currentVideoIndex (push (item_of v u st data now) c)))
    by now apply aligned_sane, push_aligned.
  rewrite playNext_no_throw by exact Hs. now apply advanced_aligned.
Qed.

Lemma length_moved {A} (from to : nat) (x : A) (l : list A) :
  (from < length l)%nat -> (to < length l)%nat ->
  length (insert_at to x (remove_at from l)) = length l.
Proof.
  intros Hf Ht. unfold insert_at.
  rewrite length_app, length_firstn. cbn [length]. rewrite length_skipn.
  rewrite length_remove_at by assumption. lia.
Qed.

Lemma rebased_in_range (from to k n : Z) :
  0 <= from < n -> 0 <= to < n -> 0 <= k < n -> 0 <= rebased from to k < n.
Proof.
  intros Hf Ht Hk. unfold rebased.
  destruct (Z.eqb_spec from k), (Z.ltb_spec from k), (Z.leb_spec k to),
    (Z.leb_spec to k), (Z.ltb_spec k from); cbn; lia.
Qed.

Lemma reordered_aligned (from to : Z) (c : Controller) :
  in_range (queue c) from -> in_range (queue c) to ->
  aligned c -> aligned (reordered from to c).
Proof.
  intros Hf Ht Ha. destruct (Z.eq_dec from to) as [<- | Hne].
  - rewrite reordered_same. exact Ha.
  - destruct (reordered_in_range from to c Hf Ht Hne) as [x [Hx ->]].
    set (q' := insert_at _ _ _). set (c1 := set_queue q' _).
    assert (Hl : len q' = len (queue c)).
    { unfold len, q', in_range, len in *. rewrite length_moved; lia. }
    destruct Ha as [Hr Hp].
    destruct Hr as [Hi | [k [Hi Hk]]].
    + rewrite rebase_off by now right. split; [now left|].
      intros Hm v Hv. specialize (Hp Hm v Hv). rewrite Hi in Hp. discriminate.
    + destruct (preservePlaylist c) eqn:Ep.
      * rewrite (rebase_number from to k) by (first [reflexivity | exact Hi | exact Ep]).
        split.
        -- right. exists (rebased from to k). split; [reflexivity|].
           unfold in_range in *. cbn. rewrite Hl. now apply rebased_in_range.
        -- intros _ v Hv. specialize (Hp eq_refl v Hv). rewrite Hi in Hp.
           cbn in Hp |- *. unfold at_Z in *. unfold in_range, len in *.
           pose proof (rebased_in_range from to k _ Hf Ht Hk) as Hb.
           destruct (Z.ltb_spec (rebased from to k) 0); [lia|].
           destruct (Z.ltb_spec k 0); [lia|].
           rewrite <- Hp. unfold q'.
           pose proof (rebased_follows (Z.to_nat from) (Z.to_nat to) (Z.to_nat k) x (queue c))
             as R.
           rewrite !Z2Nat.id in R by lia. apply R; try lia. exact Hx.
      * rewrite rebase_off by (left; exact Ep). split.
        -- right. exists k. split; [exact Hi|]. unfold in_range in *. cbn. now rewrite Hl.
        -- cbn. congruence.
Qed.

Lemma stopped_aligned (c : Controller) : aligned c -> aligned (stopped c).
Proof.
  intros Ha. unfold stopped. destruct (player c); try exact Ha.
  destruct (queue c) as [|x q] eqn:Eq.
  - split; [|cbn; discriminate]. cbn.
    destruct Ha as [[Hi | [k [_ Hk]]] _]; [now left|].
    rewrite Eq in Hk. unfold in_range, len in Hk. cbn in Hk. lia.
  - assert (H0 : aligned (set_currentVideo None c)).
    { split; [apply Ha|cbn; discriminate]. }
    destruct (autoplay c); [|exact H0].
    apply advanced_aligned. cbn. now apply aligned_sane.
Qed.

Lemma effect_aligned (e : Event) (w : World) :
  aligned (this w) -> on_items e w /\ keeps_place e -> aligned (effect e (this w)).
Proof.
  intros Ha [Ho Hk]. destruct e; cbn [effect]; try contradiction.
  - destruct (call_of_chat _ _ _ _); [now apply enqueued_aligned|exact Ha].
  - destruct (call_of_input _ _ _); [now apply enqueued_aligned|exact Ha].
  - now apply enqueued_aligned.
  - now apply advanced_aligned, aligned_sane.
  - now apply stepped_back_aligned.
  - destruct Ho. now apply reordered_aligned.
  - now apply stopped_aligned.
  - exact Ha.
  - destruct checked; [contradiction|]. split; [now left|cbn; discriminate].
  - exact Ha.
  - exact Ha.
  - destruct data; try exact Ha.
    destruct (autoplay (this w)); [now apply advanced_aligned, aligned_sane|exact Ha].
Qed.

Lemma aligned_completes (e : Event) (w : World) :
  aligned (this w) -> on_items e w -> completes_if_ready e w.
Proof.
  intros Ha Ho. unfold completes_if_ready.
  destruct (handler_view e w) as [_ ->].
  pose proof (aligned_sane _ Ha) as Hs.
  destruct (throws e (this w)) eqn:Et; [left|now right].
  destruct e; cbn [throws] in Et; try discriminate.
  - now rewrite playNext_no_throw in Et.
  - unfold previous_throws in Et. apply andb_prop in Et. destruct Et as [Hacts Et].
    pose proof (stepped_back_aligned _ Ha) as [Hr _].
    unfold stepped_back in *. rewrite Hacts in *.
    destruct (player (this w)) eqn:Epl;
      [unfold previous_acts in Hacts; rewrite Epl in Hacts; discriminate|reflexivity|].
    cbn in Et, Hr. exfalso.
    destruct Hr as [Hi | [k [Hi Hk]]].
    + destruct (not_null (currentVideoIndex (this w))) eqn:En; [|discriminate].
      destruct (currentVideoIndex (this w)) as [| | |z]; try discriminate.
      cbn in Hi. destruct (z =? 0); discriminate.
    + rewrite Hi in Et. destruct (at_Index_in_range _ k Hk) as [y Hy].
      rewrite Hy in Et. discriminate.
  - destruct Ho as [Hf _]. destruct (at_Index_in_range _ from Hf) as [y Hy].
    rewrite Hy in Et. discriminate.
  - destruct (player (this w)); [discriminate|reflexivity|].
    destruct (queue (this w)); [discriminate|].
    rewrite playNext_no_throw in Et by exact Hs. now rewrite andb_false_r in Et.
  - destruct data; try discriminate.
    rewrite playNext_no_throw in Et by exact Hs. now rewrite andb_false_r in Et.
Qed.

(** X4. As long as no item is taken out of the queue by hand and the mode is
    not switched to preserve (and a drag goes from an item of the queue to
    an item of the queue), the index stays null or a position of the queue,
    in preserve mode the current video stays the item at the index, and a
    handler throws only while the player has been made and is not ready. *)
Theorem X4_index_stays_on_current_video (es : list Event) (w : World) :
  aligned (this w) ->
  each (fun e w => on_items e w /\ keeps_place e) es w ->
  aligned (this (play es w)) /\ each completes_if_ready es w.
Proof.
  revert w. induction es as [|e es IH]; intros w Ha He; [now split|].
  destruct He as [[Ho Hk] He].
  assert (Ha' : aligned (this (after (handler e) w))).
  { rewrite this_after_handler. now apply effect_aligned. }
  destruct (IH _ Ha' He) as [H1 H2].
  split; [exact H1|]. split; [now apply aligned_completes|exact H2].
Qed.

(** ** Going through the queue *)

Lemma this_repeated_playNext (manual : bool) (j : nat) (w : World) :
  this (repeated j (playNext manual) w) = Nat.iter j advanced (this w).
Proof.
  induction j as [|j IH]; [reflexivity|].
  unfold repeated in *. rewrite !Nat.iter_succ, <- IH. apply playNext_view.
Qed.

Lemma advanced_step (c : Controller) (k : Z) :
  preservePlaylist c = true -> currentVideoIndex c = INum k -> in_range (queue c) k ->
  advanced c
  = set_currentVideo (at_Z (queue c) ((k + 1) mod len (queue c)))
      (set_currentVideoIndex (INum ((k + 1) mod len (queue c))) c).
Proof.
  intros Hp Hi Hk. unfold advanced, in_range in *.
  destruct (queue c) as [|x q] eqn:Eq; [unfold len in Hk; cbn in Hk; lia|].
  rewrite Hp, Hi. cbn [not_null succ_rem]. unfold js_rem.
  destruct (Z.eqb_spec (len (x :: q)) 0); [lia|].
  rewrite rem_is_mod by lia. rewrite <- Eq. reflexivity.
Qed.

Lemma stepped_back_step (c : Controller) (k : Z) :
  preservePlaylist c = true -> currentVideoIndex c = INum k -> in_range (queue c) k ->
  player c <> NoPlayer ->
  stepped_back c
  = set_currentVideo (at_Z (queue c) ((k - 1) mod len (queue c)))
      (set_currentVideoIndex (INum ((k - 1) mod len (queue c))) c).
Proof.
  intros Hp Hi Hk Hpl. unfold stepped_back, previous_acts, in_range in *.
  rewrite Hp, Hi. cbn [andb not_null pred_wrap].
  destruct (Z.ltb_spec 0 (len (queue c))); [|lia].
  assert (E : (if k =? 0 then INum (len (queue c) - 1) else INum (k - 1))
              = INum ((k - 1) mod len (queue c))).
  { destruct (Z.eqb_spec k 0) as [-> | Hne]; f_equal.
    - apply Z.mod_unique with (q := -1); lia.
    - symmetry. apply Z.mod_small. lia. }
  rewrite E. destruct (player c); [contradiction| |]; reflexivity.
Qed.

Lemma iter_advanced (c : Controller) (k : Z) :
  preservePlaylist c = true -> currentVideoIndex c = INum k -> in_range (queue c) k ->
  forall j,
    queue (Nat.iter j advanced c) = queue c
    /\ preservePlaylist (Nat.iter j advanced c) = true
    /\ currentVideoIndex (Nat.iter j advanced c) = INum ((k + Z.of_nat j) mod len (queue c))
    /\ ((0 < j)%nat ->
        currentVideo (Nat.iter j advanced c)
        = at_Z (queue c) ((k + Z.of_nat j) mod len (queue c))).
Proof.
  intros Hp Hi Hk. unfold in_range in Hk. induction j as [|j [Hq [Hm [Hj _]]]].
  - change (Nat.iter 0 advanced c) with c. repeat split; try assumption; [|lia].
    rewrite Z.add_0_r, Z.mod_small by lia. exact Hi.
  - rewrite Nat.iter_succ.
    rewrite (advanced_step _ _ Hm Hj).
    2:{ unfold in_range. rewrite Hq. apply Z.mod_pos_bound. lia. }
    rewrite Hq.
    cbn [queue preservePlaylist currentVideoIndex currentVideo
         set_currentVideo set_currentVideoIndex].
    replace (k + Z.of_nat (S j)) with (k + Z.of_nat j + 1) by lia.
    rewrite Zplus_mod_idemp_l. repeat split; try assumption; reflexivity.
Qed.

(** X5. In preserve mode with the index on an item, [playNext] goes round
    the queue: the queue stays, after [j] calls the index is the index plus
    [j] modulo the length and the current video is the item there, and
    after as many calls as the queue has items the index is where it
    was. *)
Theorem X5_preserve_mode_goes_round (manual : bool) (w : World) (k : Z) (j : nat) :
  preservePlaylist (this w) = true ->
  currentVideoIndex (this w) = INum k ->
  in_range (queue (this w)) k ->
  let q := queue (this w) in
  let w' := repeated j (playNext manual) w in
  queue (this w') = q
  /\ currentVideoIndex (this w') = INum ((k + Z.of_nat j) mod len q)
  /\ ((0 < j)%nat -> currentVideo (this w') = at_Z q ((k + Z.of_nat j) mod len q))
  /\ currentVideoIndex (this (repeated (length q) (playNext manual) w)) = INum k.
Proof.
  intros Hp Hi Hk q w'. subst w'. rewrite !this_repeated_playNext.
  destruct (iter_advanced _ _ Hp Hi Hk j) as [H1 [_ [H2 H3]]].
  destruct (iter_advanced _ _ Hp Hi Hk (length q)) as [_ [_ [H4 _]]].
  repeat split; try assumption.
  rewrite H4. f_equal. subst q. unfold in_range, len in *.
  rewrite <- Zplus_mod_idemp_r, Z.mod_same, Z.add_0_r by lia. apply Z.mod_small. lia.
Qed.

(** X6. In preserve mode with the index on an item and a player,
    [previous] undoes [playNext] and [playNext] undoes [previous]: after
    the two, the queue and the index are as before and the current video is
    the item at the index. *)
Theorem X6_previous_and_next_undo_each_other (manual : bool) (w : World) (k : Z) :
  preservePlaylist (this w) = true ->
  currentVideoIndex (this w) = INum k ->
  in_range (queue (this w)) k ->
  player (this w) <> NoPlayer ->
  let back := after previous (after (playNext manual) w) in
  let forth := after (playNext manual) (after previous w) in
  queue (this back) = queue (this w)
  /\ currentVideoIndex (this back) = INum k
  /\ currentVideo (this back) = at_Z (queue (this w)) k
  /\ queue (this forth) = queue (this w)
  /\ currentVideoIndex (this forth) = INum k
  /\ currentVideo (this forth) = at_Z (queue (this w)) k.
Proof.
  intros Hp Hi Hk Hpl back forth. subst back forth.
  destruct (previous_view (after (playNext manual) w)) as [-> _].
  destruct (playNext_view manual (after previous w)) as [-> _].
  destruct (playNext_view manual w) as [-> _].
  destruct (previous_view w) as [-> _].
  pose proof Hk as Hr. unfold in_range in Hr.
  rewrite (advanced_step _ _ Hp Hi Hk).
  rewrite (stepped_back_step (this w) k Hp Hi Hk Hpl).
  assert (R1 : in_range (queue (this w)) ((k + 1) mod len (queue (this w))))
    by (apply Z.mod_pos_bound; lia).
  assert (R2 : in_range (queue (this w)) ((k - 1) mod len (queue (this w))))
    by (apply Z.mod_pos_bound; lia).
  rewrite (stepped_back_step _ ((k + 1) mod len (queue (this w))))
    by first [exact Hp | reflexivity | exact R1 | exact Hpl].
  rewrite (advanced_step _ ((k - 1) mod len (queue (this w))))
    by first [exact Hp | reflexivity | exact R2].
  cbn [queue preservePlaylist currentVideoIndex currentVideo
       set_currentVideo set_currentVideoIndex].
  rewrite Zminus_mod_idemp_l, Zplus_mod_idemp_l.
  replace (k + 1 - 1) with k by lia. replace (k - 1 + 1) with k by lia.
  rewrite Z.mod_small by lia. repeat split.
Qed.

Lemma skipn_nth {A} (j : nat) (l : list A) (x : A) :
  nth_error l j = Some x -> skipn j l = x :: skipn (S j) l.
Proof.
  revert l. induction j as [|j IH]; intros [|y l] H; try discriminate.
  - cbn in H. now injection H as ->.
  - cbn in H. cbn [skipn]. now apply IH.
Qed.

Lemma firstn_nth {A} (j : nat) (l : list A) (x : A) :
  nth_error l j = Some x -> firstn (S j) l = firstn j l ++ [x].
Proof.
  revert l. induction j as [|j IH]; intros [|y l] H; try discriminate.
  - cbn in H. now injection H as ->.
  - cbn in H. cbn [firstn app]. f_equal. now apply IH.
Qed.

Lemma playNext_consumes (manual : bool) (w : World) (x : QueueItem) (t : list QueueItem) :
  preservePlaylist (this w) = false ->
  player (this w) = PlayerReady ->
  queue (this w) = x :: t ->
  this (after (playNext manual) w)
  = set_currentVideoIndex INull (set_queue t (set_currentVideo (Some x) (this w)))
  /\ calls (after (playNext manual) w)
     = calls w ++ [start_call (manual || autoplay (this w)) x].
Proof.
  destruct w as [c s vs cl]. destruct c as [q cv i ap pp cn mu pv sv di pl].
  cbn. intros -> -> ->. unfold start_call. js_keep.
  destruct (manual || ap); split; reflexivity.
Qed.

(** X7. In consume mode with a ready player, [playNext] takes the items in
    the order of the queue: after [j] calls, for [j] from 1 to the length,
    the current video is the [j]-th item, the queue is what comes behind
    it, the index is null, and the player has been handed the first [j]
    items in order, each once (loaded when the call is a manual one or
    autoplay is on, cued otherwise). *)
Theorem X7_consume_mode_takes_in_order (manual : bool) (w : World) (j : nat) :
  preservePlaylist (this w) = false ->
  player (this w) = PlayerReady ->
  (j < length (queue (this w)))%nat ->
  let q := queue (this w) in
  let w' := repeated (S j) (playNext manual) w in
  currentVideo (this w') = nth_error q j
  /\ queue (this w') = skipn (S j) q
  /\ currentVideoIndex (this w') = INull
  /\ calls w' = calls w ++ map (start_call (manual || autoplay (this w))) (firstn (S j) q).
Proof.
  intros Hp Hr Hj q w'. subst q w'.
  assert (H : this (repeated (S j) (playNext manual) w)
              = set_currentVideoIndex INull
                  (set_queue (skipn (S j) (queue (this w)))
                     (set_currentVideo (nth_error (queue (this w)) j) (this w)))
              /\ calls (repeated (S j) (playNext manual) w)
                 = calls w ++ map (start_call (manual || autoplay (this w)))
                                  (firstn (S j) (queue (this w)))).
  { induction j as [|j IH].
    - destruct (queue (this w)) as [|x t] eqn:Eq; [cbn in Hj; lia|].
      unfold repeated. rewrite Nat.iter_succ. change (Nat.iter 0 _ w) with w.
      destruct (playNext_consumes manual w x t Hp Hr Eq) as [-> ->]. now split.
    - destruct (IH ltac:(lia)) as [Ht Hc].
      destruct (nth_error (queue (this w)) (S j)) as [x|] eqn:Ex;
        [|apply nth_error_None in Ex; lia].
      unfold repeated in *. rewrite Nat.iter_succ.
      set (wj := Nat.iter (S j) (after (playNext manual)) w) in *.
      destruct (playNext_consumes manual wj x (skipn (S (S j)) (queue (this w))))
        as [-> ->].
      + now rewrite Ht.
      + now rewrite Ht.
      + rewrite Ht. cbn [queue set_currentVideoIndex set_queue]. now apply skipn_nth.
      + rewrite Ht, Hc. cbn [autoplay set_currentVideoIndex set_queue set_currentVideo].
        split; [reflexivity|].
        rewrite (firstn_nth (S j) _ x Ex), map_app, <- app_assoc. reflexivity. }
  destruct H as [-> ->]. repeat split.
Qed.

(** ** The stored record follows the state *)

Lemma playNext_synced (manual : bool) (w : World) :
  queue (this w) <> [] -> synced (after (playNext manual) w).
Proof.
  destruct w as [c s vs cl]. destruct c as [q cv i ap pp cn mu pv sv di pl].
  cbn [this queue]. intros Hq. destruct q as [|x q]; [contradiction|].
  unfold synced, record_of. js_keep.
  destruct pp; js_keep.
  - set (i' := if not_null i then _ else _).
    destruct pl; js_keep; try reflexivity.
    destruct (at_Index (x :: q) i'); [destruct (manual || ap)|]; reflexivity.
  - destruct pl; js_keep; try reflexivity.
    destruct (manual || ap); reflexivity.
Qed.

Lemma previous_synced (w : World) : synced w -> synced (after previous w).
Proof.
  destruct w as [c s vs cl]. destruct c as [q cv i ap pp cn mu pv sv di pl].
  unfold synced, record_of. js_keep. intros Hs.
  destruct pl; js_keep; try exact Hs;
    destruct (pp && (0 <? Z.of_nat (length q))); js_keep; try exact Hs;
    set (i' := if not_null i then _ else _);
    destruct (at_Index q i'); reflexivity.
Qed.

Lemma stop_synced (w : World) : synced w -> synced (after stop w).
Proof.
  destruct w as [c s vs cl]. destruct c as [q cv i ap pp cn mu pv sv di pl].
  unfold synced, record_of. js_keep. intros Hs.
  destruct pl; js_keep; try exact Hs.
  destruct q as [|x q]; js_keep; [reflexivity|].
  destruct ap; js_keep; [|reflexivity].
  destruct pp; js_keep; [|reflexivity].
  set (i' := if not_null i then _ else _).
  destruct (at_Index (x :: q) i'); reflexivity.
Qed.

Lemma reorder_synced (from to : Z) (w : World) :
  in_range (queue (this w)) from -> in_range (queue (this w)) to ->
  synced w -> synced (after (reorder from to) w).
Proof.
  destruct w as [c s vs cl]. destruct c as [q cv i ap pp cn mu pv sv di pl].
  cbn [this queue]. intros Hf _ Hs.
  destruct (at_Index_in_range q from Hf) as [x Hx].
  unfold synced, record_of in *. js_keep.
  rewrite Z.eqb_sym.
  destruct (to =? from); [exact Hs|]. js_keep. rewrite Hx. reflexivity.
Qed.

(** [addToQueue] calls [playNext] once the item is pushed and the state
    saved, and [playNext] completes. *)
Lemma addToQueue_calls_playNext (v : string) (u : option string) (st : option Z)
    (data : Noembed) (now : Z) (w : World) :
  in_queue v (this w) = false ->
  currentVideo (this w) = None ->
  sane (currentVideoIndex (this w)) ->
  addToQueue v u st (Json data) now w
  = playNext false (pushed (item_of v u st data now) w).
Proof.
  intros Hq Hc Hi.
  assert (E : addToQueue v u st (Json data) now w
              = try_catch (playNext false)
                  (fun _ => bind (console_error "Failed to fetch video info:")
                     (fun _ => bind (update (push (placeholder v u st now)))
                        (fun _ => updateQueueDisplay)))
                  (pushed (item_of v u st data now) w)).
  { destruct w as [c s vs cl]. cbn in *.
    unfold addToQueue, addToQueue_resume, try_catch, bind, get_this, fetchVideoInfo, ret.
    rewrite Hq. cbn. rewrite Hc. reflexivity. }
  rewrite E. unfold try_catch.
  destruct (playNext_view false (pushed (item_of v u st data now) w)) as [_ Hn].
  rewrite playNext_no_throw in Hn by (destruct w; exact Hi).
  destruct (playNext false _) as [[[]|e] w']; [reflexivity|discriminate].
Qed.

Lemma addToQueue_synced (v : string) (u : option string) (st : option Z)
    (r : Response) (now : Z) (w : World) :
  lookup_failed r = false -> tidy (this w) -> synced w ->
  synced (after (addToQueue v u st r now) w).
Proof.
  intros Hr [_ Hi] Hs. destruct r as [| |data]; try discriminate.
  destruct (in_queue v (this w)) eqn:Eq.
  - unfold after, addToQueue, bind, get_this. rewrite Eq. exact Hs.
  - destruct (currentVideo (this w)) as [x|] eqn:Ec.
    + destruct w as [c s vs cl]. destruct c as [q cv i ap pp cn mu pv sv di pl].
      cbn [this currentVideo] in Eq, Ec. subst cv.
      unfold synced, record_of. autounfold with js.
      cbn -[truthy toJSON_QueueItem in_queue]. rewrite Eq. reflexivity.
    + unfold after. rewrite addToQueue_calls_playNext by assumption.
      apply playNext_synced. destruct w as [c s vs cl]. cbn.
      destruct (queue c); discriminate.
Qed.

Lemma handler_synced (e : Event) (w : World) :
  tidy (this w) -> synced w -> on_items e w /\ saves e w ->
  synced (after (handler e) w).
Proof.
  intros Ht Hs [Ho Hv]. destruct e; cbn [handler saves on_items] in *.
  - unfold processMessage. destruct (extractYoutubeUrl message) as [url|]; [|exact Hs].
    unfold addToQueueByUrl. destruct (extractVideoId url); [|exact Hs].
    now apply addToQueue_synced.
  - unfold addYoutubeLink. destruct (String.eqb _ ""); [exact Hs|].
    destruct (extractYoutubeUrl _) as [url|]; [|exact Hs].
    unfold addToQueueByUrl. destruct (extractVideoId url) as [v|]; [|exact Hs].
    pose proof (addToQueue_synced v (Some "Manual"%string) (extractStartTime url)
                  r now w Hv Ht Hs) as H.
    destruct (addToQueue_view v (Some "Manual"%string) (extractStartTime url) r now w)
      as [_ Hn].
    unfold after, bind, showSuccess, ret in *.
    destruct (addToQueue v _ _ r now w) as [[[]|err] w']; [exact H|discriminate].
  - now apply addToQueue_synced.
  - now apply playNext_synced.
  - now apply previous_synced.
  - reflexivity.
  - reflexivity.
  - destruct Ho. now apply reorder_synced.
  - now apply stop_synced.
  - reflexivity.
  - contradiction.
  - exact Hs.
  - contradiction.
  - unfold onPlayerStateChange, after, bind, get_this.
    destruct data; try exact Hs.
    destruct (autoplay (this w)); [|exact Hs]. apply playNext_synced. now apply Hv.
Qed.

(** X8. The stored record follows the state: once it is the record of the
    state, it still is after every event, for a queue without an identifier
    twice and a sane index, as long as no lookup fails, [playNext] is not
    called on an empty queue, the mode is not switched and the player does
    not get ready (and a drag goes from an item of the queue to an item of
    the queue). *)
Theorem X8_stored_record_follows_state (es : list Event) (w : World) :
  tidy (this w) -> synced w ->
  each (fun e w => on_items e w /\ saves e w) es w ->
  synced (play es w).
Proof.
  revert w. induction es as [|e es IH]; intros w Ht Hs He; [exact Hs|].
  destruct He as [[Ho Hv] He]. cbn [play fold_left]. apply IH; [| |exact He].
  - rewrite this_after_handler. apply effect_tidy; [exact Ht|].
    split; [exact Ho|]. destruct e; try exact I. destruct Hv.
  - now apply handler_synced.
Qed.

(** ** Reloading twice *)

Lemma reload_world (v : Values) (w : World) :
  reload v w = {| this := restore (record_of w) (fresh v);
                  localStorage := Saved (record_of w);
                  volumeSlider := volumeSlider w; calls := calls w |}.
Proof.
  unfold reload, after. rewrite saveState_world. cbn [snd].
  now rewrite (connect_saved v (record_of w)) by reflexivity.
Qed.



Lemma truthy_volume (vs : Scalar) : truthy (if truthy vs then vs else Num 50) = true.
Proof. now destruct (truthy vs) eqn:E. Qed.


(** ** Switching the mode *)

Lemma findIndex_from_unique (v : string) (q : list QueueItem) (n : nat) (x : QueueItem)
    (k : Z) :
  NoDup (ids q) -> nth_error q n = Some x -> videoId x = v ->
  findIndex_from (fun item => String.eqb (videoId item) v) q k = k + Z.of_nat n.
Proof.
  revert n k. induction q as [|y q IH]; intros n k Hn Hx Hv; [now destruct n|].
  cbn [findIndex_from]. cbn in Hn. apply NoDup_cons_iff in Hn. destruct Hn as [Hy Hn].
  destruct n as [|n]; cbn in Hx.
  - injection Hx as ->. rewrite Hv, String.eqb_refl. lia.
  - destruct (String.eqb_spec (videoId y) v) as [E|_].
    + exfalso. apply Hy. rewrite E, <- Hv. apply in_map. now apply nth_error_In in Hx.
    + rewrite (IH n (k + 1) Hn Hx Hv). lia.
Qed.

(** X10. With no identifier twice in the queue and the current video being
    the item at position [k], switching to consume mode sets the index to
    null, and switching back to preserve mode finds the index [k] again;
    queue and current video are untouched. *)
Theorem X10_mode_switch_finds_index_again (w : World) (k : Z) (v : QueueItem) :
  NoDup (ids (queue (this w))) ->
  currentVideo (this w) = Some v ->
  at_Index (queue (this w)) (INum k) = Some v ->
  let w1 := after (togglePreservePlaylist false) w in
  let w2 := after (togglePreservePlaylist true) w1 in
  currentVideoIndex (this w1) = INull
  /\ preservePlaylist (this w1) = false
  /\ currentVideoIndex (this w2) = INum k
  /\ preservePlaylist (this w2) = true
  /\ queue (this w2) = queue (this w)
  /\ currentVideo (this w2) = Some v.
Proof.
  intros Hn Hc Hk w1 w2. subst w1 w2.
  destruct (togglePreservePlaylist_view true (after (togglePreservePlaylist false) w))
    as [-> _].
  destruct (togglePreservePlaylist_view false w) as [-> _].
  unfold toggled. cbn [currentVideo set_currentVideoIndex set_preservePlaylist
                       currentVideoIndex preservePlaylist queue].
  rewrite Hc. cbn [currentVideo set_currentVideoIndex set_preservePlaylist
                    currentVideoIndex preservePlaylist queue].
  repeat split; try assumption.
  cbn in Hk. unfold at_Z in Hk. destruct (Z.ltb_spec k 0); [discriminate|].
  unfold findIndex. rewrite (findIndex_from_unique _ _ (Z.to_nat k) v 0 Hn Hk eq_refl).
  f_equal. lia.
Qed.

(** ** The identifiers in the queue *)

Lemma at_Index_In (q : list QueueItem) (i : Index) (x : QueueItem) :
  at_Index q i = Some x -> In x q.
Proof.
  destruct i as [| | |k]; try discriminate. cbn. unfold at_Z.
  destruct (k <? 0); [discriminate|]. apply nth_error_In.
Qed.

Lemma Forall_splice {A} (P : A -> Prop) (l items : list A) (s d : Z) :
  Forall P l -> Forall P items -> Forall P (splice l s d items).
Proof.
  intros Hl Hi. unfold splice. rewrite Forall_forall in *. intros x Hx.
  apply in_app_or in Hx. destruct Hx as [Hx | Hx].
  - apply Hl. rewrite <- (firstn_skipn (Z.to_nat (relative_start (Z.of_nat (length l)) s)) l).
    apply in_or_app. now left.
  - apply in_app_or in Hx. destruct Hx as [Hx | Hx]; [now apply Hi|].
    apply Hl. eapply In_firstn_skipn with (a := 0%nat). cbn [firstn app]. exact Hx.
Qed.

Lemma ids_ok_cv (c : Controller) (o : option QueueItem) :
  ids_ok c -> (forall x, o = Some x -> In x (queue c)) -> ids_ok (set_currentVideo o c).
Proof.
  intros [Hq Hc] Ho. split; [exact Hq|]. cbn. intros v Hv.
  rewrite Forall_forall in Hq. now apply Hq, Ho.
Qed.

Lemma ids_ok_index (c : Controller) (i : Index) :
  ids_ok c -> ids_ok (set_currentVideoIndex i c).
Proof. intros H. exact H. Qed.

Lemma advanced_ids_ok (c : Controller) : ids_ok c -> ids_ok (advanced c).
Proof.
  intros H. unfold advanced. destruct (queue c) as [|x q] eqn:Eq.
  - split; [apply H|]. cbn. discriminate.
  - destruct (preservePlaylist c).
    + apply ids_ok_cv; [exact H|]. intros y Hy. cbn in Hy |- *.
      rewrite <- Eq in Hy. exact (at_Index_In _ _ _ Hy).
    + destruct H as [Hq Hc]. rewrite Eq in Hq. apply Forall_cons_iff in Hq.
      split; [apply Hq|]. cbn. intros v Hv. injection Hv as <-. apply Hq.
Qed.

Lemma stepped_back_ids_ok (c : Controller) : ids_ok c -> ids_ok (stepped_back c).
Proof.
  intros H. unfold stepped_back. destruct (previous_acts c); [|exact H].
  apply ids_ok_cv; [exact H|]. intros y Hy. exact (at_Index_In _ _ _ Hy).
Qed.

Lemma push_ids_ok (item : QueueItem) (c : Controller) :
  id_ok (videoId item) -> ids_ok c -> ids_ok (push item c).
Proof.
  intros Hi [Hq Hc]. split; [|exact Hc]. cbn. apply Forall_app. split; [exact Hq|].
  now constructor.
Qed.

Lemma enqueued_ids_ok (v : string) (u : option string) (st : option Z)
    (r : Response) (now : Z) (c : Controller) :
  id_ok v -> ids_ok c -> ids_ok (enqueued v u st r now c).
Proof.
  intros Hv H. unfold enqueued. destruct (in_queue v c); [exact H|].
  destruct r as [| |data]; try (now apply push_ids_ok).
  destruct (currentVideo c); [now apply push_ids_ok|].
  destruct (playNext_throws _);
    [apply push_ids_ok; [exact Hv|]|]; now apply advanced_ids_ok, push_ids_ok.
Qed.

Lemma dropped_ids_ok (target : option Z) (c : Controller) :
  ids_ok c -> ids_ok (dropped target c).
Proof.
  intros H. unfold dropped. destruct target as [to|]; [|exact H].
  destruct (negb _); [exact H|]. destruct (strict_eq _ _); [exact H|].
  assert (H1 : Forall (fun i => id_ok (videoId i))
                 (splice (queue c) (to_integer (draggedIndex c)) 1 [])).
  { apply Forall_splice; [apply H|constructor]. }
  destruct (at_Index (queue c) (draggedIndex c)) as [x|] eqn:Ex.
  - destruct (rebase_is_set to (set_queue
        (splice (queue (set_queue (splice (queue c) (to_integer (draggedIndex c)) 1 []) c))
           to 0 [x])
        (set_queue (splice (queue c) (to_integer (draggedIndex c)) 1 []) c))) as [i' ->].
    split; [|apply H]. cbn. apply Forall_splice; [exact H1|].
    constructor; [|constructor]. destruct H as [Hq _]. rewrite Forall_forall in Hq.
    apply Hq. exact (at_Index_In _ _ _ Ex).
  - destruct (rebase_is_set to
        (set_queue (splice (queue c) (to_integer (draggedIndex c)) 1 []) c)) as [i' ->].
    split; [exact H1|apply H].
Qed.

Lemma stopped_ids_ok (c : Controller) : ids_ok c -> ids_ok (stopped c).
Proof.
  intros H. unfold stopped. destruct (player c); try exact H.
  assert (H0 : ids_ok (set_currentVideo None c)).
  { split; [apply H|cbn; discriminate]. }
  destruct (queue c) eqn:Eq.
  - split; [constructor|cbn; discriminate].
  - destruct (autoplay c); [now apply advanced_ids_ok|exact H0].
Qed.

(** An identifier that [extractVideoId] returns. *)
Lemma call_of_url_ok (url : string) (u : option string) (r : Response) (now : Z) (k : Call) :
  call_of_url url u r now = Some k -> id_ok (c_videoId k).
Proof.
  unfold call_of_url. destruct (extractVideoId url) as [v|] eqn:E; [|discriminate].
  intros H. injection H as <-. cbn [c_videoId]. revert E. unfold extractVideoId.
  destruct (exec videoIdRegex (list_ascii_of_string url)) as [m|] eqn:Em; [|discriminate].
  intros H. injection H as <-.
  destruct (exec_videoIdRegex _ _ Em) as [_ [_ [_ [Hlen Hall]]]].
  split; [now rewrite length_string_of_list_ascii|].
  now rewrite list_ascii_of_string_of_list_ascii.
Qed.

Lemma effect_ids_ok (e : Event) (w : World) :
  ids_ok (this w) -> given_id_ok e w -> ids_ok (effect e (this w)).
Proof.
  intros H Hg. destruct e; cbn [effect].
  - destruct (call_of_chat _ _ _ _) as [k|] eqn:E; [|exact H].
    unfold call_of_chat in E. destruct (extractYoutubeUrl message); [|discriminate].
    apply enqueued_ids_ok; [|exact H]. exact (call_of_url_ok _ _ _ _ _ E).
  - destruct (call_of_input _ _ _) as [k|] eqn:E; [|exact H].
    unfold call_of_input in E. destruct (String.eqb _ ""); [discriminate|].
    destruct (extractYoutubeUrl _); [|discriminate].
    apply enqueued_ids_ok; [|exact H]. exact (call_of_url_ok _ _ _ _ _ E).
  - now apply enqueued_ids_ok.
  - now apply advanced_ids_ok.
  - now apply stepped_back_ids_ok.
  - split; [|apply H]. cbn. apply Forall_splice; [apply H|constructor].
  - split; [constructor|apply H].
  - unfold reordered.
    pose proof (dropped_ids_ok (Some to) (set_draggedIndex (INum from) (this w)) H) as Hd.
    exact Hd.
  - now apply stopped_ids_ok.
  - exact H.
  - unfold toggled. destruct checked, (currentVideo (this w)) eqn:Ec; split;
      try apply H; cbn; rewrite Ec; intros v Hv; apply H; now rewrite Ec.
  - exact H.
  - exact H.
  - destruct data; try exact H. destruct (autoplay (this w)); [now apply advanced_ids_ok|exact H].
Qed.

(** X11. Every identifier that reaches the queue or the current video
    through a chat message or the input field is one [extractVideoId] has
    returned: whatever the events, the identifiers of the queue and of the
    current video keep having eleven characters, none of them a double
    quote, [&], [?], [/] or white space, provided a direct call of
    [addToQueue] is given such an identifier. *)
Theorem X11_identifiers_stay_well_formed (es : list Event) (w : World) :
  ids_ok (this w) -> each given_id_ok es w -> ids_ok (this (play es w)).
Proof.
  revert w. induction es as [|e es IH]; intros w Hi He; [exact Hi|].
  destruct He as [Hg He]. cbn [play fold_left]. apply IH; [|exact He].
  rewrite this_after_handler. now apply effect_ids_ok.
Qed.

(** ** Sharing a playlist *)

Lemma list_ascii_of_string_app (a b : string) :
  list_ascii_of_string (a ++ b) = list_ascii_of_string a ++ list_ascii_of_string b.
Proof. induction a as [|c a IH]; [reflexivity|]. cbn. now rewrite IH. Qed.




Lemma before_first (sep : ascii) (a b : list ascii) :
  forallb (fun c => negb (Ascii.eqb c sep)) a = true -> before sep (a ++ sep :: b) = a.
Proof.
  induction a as [|x a IH]; cbn.
  - now rewrite Ascii.eqb_refl.
  - intros H. apply andb_prop in H. destruct H as [H1 H2]. apply negb_true_iff in H1.
    now rewrite H1, IH.
Qed.



















(** ** Edges *)

(** X13. The [catch] of [addToQueue] also catches what [playNext] throws.
    With a ready player, preserve mode, no current video and an index that
    is [undefined] or [NaN] (as after reading a record without the key), a
    call for a new identifier whose lookup succeeds completes normally and
    leaves two items with that identifier at the end of the queue: the one
    made from the answer and the placeholder. *)
Theorem X13_failed_start_queues_twice
    (v : string) (u : option string) (st : option Z) (data : Noembed) (now : Z) (w : World) :
  in_queue v (this w) = false ->
  currentVideo (this w) = None ->
  player (this w) = PlayerReady ->
  preservePlaylist (this w) = true ->
  currentVideoIndex (this w) = IUndefined \/ currentVideoIndex (this w) = INaN ->
  fst (addToQueue v u st (Json data) now w) = Normal tt
  /\ queue (this (after (addToQueue v u st (Json data) now) w))
     = queue (this w) ++ [item_of v u st data now; placeholder v u st now]
  /\ currentVideo (this (after (addToQueue v u st (Json data) now) w)) = None.
Proof.
  intros Hq Hc Hpl Hp Hi.
  destruct (addToQueue_view v u st (Json data) now w) as [-> ->].
  split; [reflexivity|].
  unfold enqueued. rewrite Hq, Hc.
  assert (Ha : advanced (push (item_of v u st data now) (this w))
               = set_currentVideo None
                   (set_currentVideoIndex INaN (push (item_of v u st data now) (this w)))).
  { unfold advanced. cbn [queue push set_queue preservePlaylist currentVideoIndex].
    rewrite Hp. destruct (queue (this w) ++ [item_of v u st data now]) eqn:E;
      [now apply app_eq_nil in E|].
    destruct Hi as [-> | ->]; reflexivity. }
  assert (Ht : playNext_throws (push (item_of v u st data now) (this w)) = true).
  { unfold playNext_throws. rewrite Ha. cbn [queue push set_queue player currentVideo
      set_currentVideo set_currentVideoIndex]. rewrite Hpl.
    destruct (queue (this w) ++ [item_of v u st data now]) eqn:E;
      [now apply app_eq_nil in E|reflexivity]. }
  rewrite Ht, Ha. cbn. rewrite <- app_assoc. split; reflexivity.
Qed.

Lemma NoDup_ids_nth (q : list QueueItem) (a b : nat) (x : QueueItem) :
  NoDup (ids q) -> nth_error q a = Some x -> nth_error q b = Some x -> a = b.
Proof.
  intros Hn Ha Hb.
  apply (proj1 (NoDup_nth_error (ids q)) Hn).
  - apply nth_error_Some. unfold ids. rewrite nth_error_map, Ha. discriminate.
  - unfold ids. now rewrite !nth_error_map, Ha, Hb.
Qed.

(** X14. [removeFromQueue] does not move the index. In preserve mode with
    the current video at position [k] and no identifier twice in the queue,
    removing an item in front of it leaves the index at [k], which is then
    the position of the item that came behind the current video (or of no
    item, when the current video was the last), and no longer that of the
    current video. *)
Theorem X14_remove_leaves_index_behind (w : World) (n k : Z) (v : QueueItem) :
  NoDup (ids (queue (this w))) ->
  currentVideo (this w) = Some v ->
  currentVideoIndex (this w) = INum k ->
  at_Index (queue (this w)) (INum k) = Some v ->
  0 <= n < k ->
  let w' := after (removeFromQueue n) w in
  currentVideo (this w') = Some v
  /\ currentVideoIndex (this w') = INum k
  /\ at_Index (queue (this w')) (currentVideoIndex (this w'))
     = at_Z (queue (this w)) (k + 1)
  /\ at_Index (queue (this w')) (currentVideoIndex (this w')) <> currentVideo (this w').
Proof.
  intros Hn Hc Hi Hk Hr w'. subst w'.
  destruct (removeFromQueue_view n w) as [-> _].
  cbn [currentVideo currentVideoIndex queue set_queue]. rewrite Hc, Hi.
  cbn [at_Index] in *. unfold at_Z in *.
  destruct (Z.ltb_spec k 0); [lia|]. destruct (Z.ltb_spec (k + 1) 0); [lia|].
  assert (Hlen : (Z.to_nat k < length (queue (this w)))%nat).
  { apply nth_error_Some. congruence. }
  rewrite splice_remove by lia.
  rewrite nth_error_remove_at by lia.
  destruct (Nat.ltb_spec (Z.to_nat k) (Z.to_nat n)); [lia|].
  replace (Z.to_nat (k + 1)) with (S (Z.to_nat k)) by lia.
  repeat split. intro E.
  pose proof (NoDup_ids_nth _ _ _ _ Hn Hk E). lia.
Qed.

(** X15. After a reload, the player that gets ready is handed the stored
    volume (50 when the slider held none) and, when there was a current
    video, that video to cue at its start offset, not to play; nothing else
    is called on the player. *)
Theorem X15_reload_cues_current_video (v : Values) (w : World) :
  let volume := if truthy (volumeSlider w) then volumeSlider w else Num 50 in
  let w' := after onPlayerReady (after createPlayer (reload v w)) in
  calls w'
  = calls w ++ setVolume volume ::
      match currentVideo (this w) with
      | Some x => [cueVideoById (videoId x) (start_seconds x)]
      | None => []
      end
  /\ volumeSlider w' = volume
  /\ player (this w') = PlayerReady.
Proof.
  intros volume w'. subst volume w'. rewrite reload_world.
  destruct w as [c s vs cl]. destruct c as [q cv i ap pp cn mu pv sv di pl].
  unfold restore, record_of, fresh.
  cbn -[truthy String.eqb toJSON_QueueItem].
  rewrite truthy_volume.
  destruct cv as [x|]; cbn -[truthy String.eqb toJSON_QueueItem];
    destruct (String.eqb cn ""), (truthy pv);
    autounfold with js; cbn -[truthy String.eqb toJSON_QueueItem];
    rewrite ?truthy_volume; repeat split;
    rewrite <- app_assoc; now destruct x.
Qed.

(** ** Which texts carry a link *)

Lemma lit_reads (str : string) :
  forall s s', In s' (run (lit str) s) -> reads s s' (list_ascii_of_string str).
Proof.
  induction str as [|c str IH]; intros s s' H.
  - destruct H as [<- | []]. apply reads_refl.
  - cbn [lit] in H. rewrite run_Seq in H. apply in_flat_map in H.
    destruct H as [s1 [H1 H2]]. cbn in H1.
    destruct (rest s) as [|c' t] eqn:E; [now cbn in *|].
    destruct (Ascii.eqb_spec c c') as [<- | _]; [|now cbn in *].
    destruct H1 as [<- | []].
    apply (reads_trans s (step_char s t) s' [c]); [|now apply IH].
    split; [exact E | cbn; lia].
Qed.

Lemma lit_matches (str : string) :
  forall s post, rest s = list_ascii_of_string str ++ post ->
                 exists s', In s' (run (lit str) s) /\ rest s' = post.
Proof.
  induction str as [|c str IH]; intros s post H.
  - exists s. split; [now left | exact H].
  - cbn [list_ascii_of_string app] in H.
    destruct (IH (step_char s (list_ascii_of_string str ++ post)) post eq_refl)
      as [s' [Hin Hr]].
    exists s'. split; [|exact Hr].
    cbn [lit]. rewrite run_Seq. apply in_flat_map.
    exists (step_char s (list_ascii_of_string str ++ post)). split; [|exact Hin].
    cbn. rewrite H, Ascii.eqb_refl. now left.
Qed.

Lemma run_Star_some (r : regex) (s : MState) : exists s', In s' (run (Star r) s).
Proof.
  exists s. cbn [run]. destruct (length (rest s)); cbn [iterate].
  - now left.
  - apply in_or_app. right. now left.
Qed.

Lemma search_complete (r : regex) (pre l' : list ascii) :
  forall p,
    run r {| pos := p + length pre; rest := l'; caps := [] |} <> [] ->
    search r p (pre ++ l') <> None.
Proof.
  induction pre as [|c pre IH]; intros p H.
  - cbn [app length] in *. rewrite Nat.add_0_r in H.
    destruct l' as [|c t]; cbn [search];
      destruct (run r _); first [congruence | discriminate].
  - cbn [app search].
    destruct (run r {| pos := p; rest := c :: pre ++ l'; caps := [] |}); [|discriminate].
    apply IH. cbn [length] in H.
    now replace (S p + length pre)%nat with (p + S (length pre))%nat by lia.
Qed.

Lemma substring_lists (part whole : string) :
  substring part whole ->
  exists pre post,
    list_ascii_of_string whole = pre ++ list_ascii_of_string part ++ post.
Proof.
  intros [pre [post ->]].
  exists (list_ascii_of_string pre), (list_ascii_of_string post).
  now rewrite !list_ascii_of_string_app.
Qed.

(** A link found by one of the two expressions holds the name of the
    site. *)
Lemma exec_link_holds (site : string) (r : regex) (l : list ascii) (m : Match) :
  exec (Seq scheme_www (Seq (lit site) r)) l = Some m ->
  exists pre post, matched m = pre ++ list_ascii_of_string site ++ post.
Proof.
  intros H. apply search_found in H. destruct H as [pre [l' [s' [_ [Hin [Hm _]]]]]].
  rewrite run_Seq in Hin. apply in_flat_map in Hin. destruct Hin as [s1 [H1 H2]].
  rewrite run_Seq in H2. apply in_flat_map in H2. destruct H2 as [s2 [H2 H3]].
  destruct (run_reads _ _ _ H1) as [a Ha].
  pose proof (lit_reads _ _ _ H2) as Hb.
  destruct (run_reads _ _ _ H3) as [c Hc].
  pose proof (reads_trans _ _ _ _ _ Ha (reads_trans _ _ _ _ _ Hb Hc)) as Hall.
  apply firstn_reads in Hall. cbn [pos rest] in Hall.
  exists a, c. now rewrite Hm, Hall.
Qed.

Lemma extractYoutubeUrl_holds (text url : string) :
  extractYoutubeUrl text = Some url ->
  substring "youtu.be/" url \/ substring "youtube.com/" url.
Proof.
  unfold extractYoutubeUrl.
  destruct (exec youtuBeRegex (list_ascii_of_string text)) as [m|] eqn:E1.
  - intros H. injection H as <-. left.
    destruct (exec_link_holds "youtu.be/" link_tail _ _ E1) as [pre [post H]].
    apply (substring_of_lists _ pre (list_ascii_of_string "youtu.be/") post).
    now rewrite list_ascii_of_string_of_list_ascii.
  - destruct (exec youtubeComRegex (list_ascii_of_string text)) as [m|] eqn:E2;
      [|discriminate].
    intros H. injection H as <-. right.
    destruct (exec_link_holds "youtube.com/" (Seq youtube_paths link_tail) _ _ E2)
      as [pre [post H]].
    apply (substring_of_lists _ pre (list_ascii_of_string "youtube.com/") post).
    now rewrite list_ascii_of_string_of_list_ascii.
Qed.

Lemma extractYoutubeUrl_finds (text : string) :
  substring "youtu.be/" text -> extractYoutubeUrl text <> None.
Proof.
  intros H. apply substring_lists in H. destruct H as [pre [post H]].
  unfold extractYoutubeUrl.
  destruct (exec youtuBeRegex (list_ascii_of_string text)) as [m|] eqn:E; [discriminate|].
  exfalso. revert E. unfold exec. rewrite H. apply search_complete.
  set (s := {| pos := 0 + length pre;
               rest := list_ascii_of_string "youtu.be/" ++ post; caps := [] |}).
  destruct (lit_matches "youtu.be/" s post eq_refl) as [s1 [H1 _]].
  destruct (run_Star_some (Class (none_of_nor_space (String dquote ""))) s1) as [s2 H2].
  assert (Hin : In s2 (run youtuBeRegex s)).
  { unfold youtuBeRegex. cbn [seq_of]. rewrite run_Seq. apply in_flat_map.
    exists s. split.
    - unfold scheme_www. rewrite run_Seq. apply in_flat_map. exists s. split.
      + unfold opt at 1. cbn [run]. apply in_or_app. right. now left.
      + unfold opt. cbn [run]. apply in_or_app. right. now left.
    - rewrite run_Seq. apply in_flat_map. exists s1. split; [exact H1|exact H2]. }
  intro E. rewrite E in Hin. exact Hin.
Qed.

(** X16. Which texts carry a link. A text that holds [youtu.be/] anywhere
    is taken to carry a link; a link that [extractYoutubeUrl] returns holds
    [youtu.be/] or [youtube.com/]; and so a chat message that holds neither
    changes nothing. *)
Theorem X16_which_texts_carry_a_link (text : string) :
  (substring "youtu.be/" text -> extractYoutubeUrl text <> None)
  /\ (forall url, extractYoutubeUrl text = Some url ->
                  substring "youtu.be/" url \/ substring "youtube.com/" url)
  /\ (~ substring "youtu.be/" text -> ~ substring "youtube.com/" text ->
      forall username0 r now w, processMessage text username0 r now w = (Normal tt, w)).
Proof.
  split; [apply extractYoutubeUrl_finds|]. split; [apply extractYoutubeUrl_holds|].
  intros N1 N2 username0 r now w. unfold processMessage.
  destruct (extractYoutubeUrl text) as [url|] eqn:E; [exfalso|reflexivity].
  assert (Hsub : exists pre post,
             list_ascii_of_string text = pre ++ list_ascii_of_string url ++ post).
  { revert E. unfold extractYoutubeUrl.
    destruct (exec youtuBeRegex (list_ascii_of_string text)) as [m|] eqn:E1.
    - intros H. injection H as <-. rewrite list_ascii_of_string_of_list_ascii.
      exact (exec_matched _ _ _ E1).
    - destruct (exec youtubeComRegex (list_ascii_of_string text)) as [m|] eqn:E2;
        [|discriminate].
      intros H. injection H as <-. rewrite list_ascii_of_string_of_list_ascii.
      exact (exec_matched _ _ _ E2). }
  destruct Hsub as [p2 [q2 H2]].
  destruct (extractYoutubeUrl_holds text url E) as [H | H];
    [apply N1 | apply N2];
    apply substring_lists in H; destruct H as [p1 [q1 H1]];
    match goal with |- substring ?site _ =>
      rewrite <- (string_of_list_ascii_of_string site) end;
    apply (substring_of_lists text (p2 ++ p1) _ (q1 ++ q2));
    rewrite H2, H1, <- !app_assoc; reflexivity.
Qed.

(** ** The interval of the progress display *)

Lemma progress_keeps (t : Progress.Timers) (r : option PlayerState) :
  one_interval t -> one_interval (Progress.report t r).
Proof.
  unfold one_interval. intros [H [Hn Hz]].
  assert (Hstop : Progress.running (Progress.stopProgressTracking t) = []
                  /\ Progress.progressInterval (Progress.stopProgressTracking t) = None
                  /\ Progress.next_handle (Progress.stopProgressTracking t)
                     = Progress.next_handle t).
  { unfold Progress.stopProgressTracking.
    destruct (Progress.progressInterval t) as [h|] eqn:E.
    - destruct (Nat.eqb_spec h 0) as [-> | _]; [contradiction|].
      cbn. rewrite H. cbn. now rewrite Nat.eqb_refl.
    - now rewrite E. }
  assert (Hstart : Progress.running (Progress.startProgressTracking t)
                   = [Progress.next_handle t]
                   /\ Progress.progressInterval (Progress.startProgressTracking t)
                      = Some (Progress.next_handle t)
                   /\ Progress.next_handle (Progress.startProgressTracking t)
                      = S (Progress.next_handle t)).
  { destruct Hstop as [H1 [H2 H3]]. unfold Progress.startProgressTracking.
    cbn. now rewrite H1, H3. }
  destruct Hstop as [S1 [S2 S3]]. destruct Hstart as [T1 [T2 T3]].
  assert (Ht : one_interval (Progress.startProgressTracking t)).
  { unfold one_interval. rewrite T1, T2, T3. repeat split; [lia|].
    intro E. injection E as E. lia. }
  assert (Hs : one_interval (Progress.stopProgressTracking t)).
  { unfold one_interval. rewrite S1, S2, S3. repeat split; [exact Hn|discriminate]. }
  destruct r as [[]|]; cbn [Progress.report Progress.onPlayerStateChange
                             Progress.onPlayerReady];
    first [exact Ht | exact Hs | now repeat split].
Qed.

Lemma progress_all (reports : list (option PlayerState)) :
  forall t, one_interval t -> one_interval (fold_left Progress.report reports t).
Proof.
  induction reports as [|r rs IH]; intros t H; [exact H|].
  cbn [fold_left]. apply IH. now apply progress_keeps.
Qed.

(** X17. The page never has two intervals of the progress display running:
    whatever the player reports, in whatever order, the intervals running
    are the one recorded in [progressInterval], or none when the field is
    null. *)
Theorem X17_one_progress_interval (reports : list (option PlayerState)) :
  let t := fold_left Progress.report reports Progress.initial in
  Progress.running t
  = match Progress.progressInterval t with Some h => [h] | None => [] end
  /\ (length (Progress.running t) <= 1)%nat.
Proof.
  intros t.
  assert (H : one_interval t).
  { apply progress_all. repeat split; [cbn; lia|discriminate]. }
  destruct H as [H _]. split; [exact H|]. rewrite H.
  destruct (Progress.progressInterval t); cbn; lia.
Qed.

(** ** The first video *)

Lemma playNext_calls (manual : bool) (w : World) :
  calls (after (playNext manual) w)
  = calls w ++
    match queue (this w), player (this w), currentVideo (advanced (this w)) with
    | _ :: _, PlayerReady, Some x => [start_call (manual || autoplay (this w)) x]
    | _, _, _ => []
    end.
Proof.
  destruct w as [c s vs cl]. destruct c as [q cv i ap pp cn mu pv sv di pl].
  unfold advanced, start_call, len. js_keep.
  destruct q as [|x q]; [now rewrite app_nil_r|].
  destruct pp; js_keep.
  - set (i' := if not_null i then _ else _).
    destruct pl; js_keep; try (now rewrite app_nil_r).
    destruct (at_Index (x :: q) i'); [destruct (manual || ap)|]; try reflexivity.
    now rewrite app_nil_r.
  - destruct pl; js_keep; try (now rewrite app_nil_r).
    destruct (manual || ap); reflexivity.
Qed.

(** X18. A link that arrives while nothing is loaded starts a video. When
    there is no current video, the index is sane, the identifier is not in
    the queue and the lookup succeeds, [addToQueue] completes and leaves a
    current video, taken from the queue with the new item appended (the new
    item itself when the queue was empty); a ready player is handed exactly
    that video, to play when autoplay is on and to cue otherwise. *)
Theorem X18_arrival_starts_a_video
    (v : string) (u : option string) (st : option Z) (data : Noembed) (now : Z) (w : World) :
  in_queue v (this w) = false ->
  currentVideo (this w) = None ->
  sane (currentVideoIndex (this w)) ->
  let item := item_of v u st data now in
  let w' := after (addToQueue v u st (Json data) now) w in
  fst (addToQueue v u st (Json data) now w) = Normal tt
  /\ exists x,
       currentVideo (this w') = Some x
       /\ In x (queue (this w) ++ [item])
       /\ (queue (this w) = [] -> x = item)
       /\ (player (this w) = PlayerReady ->
           calls w' = calls w ++ [start_call (autoplay (this w)) x]).
Proof.
  intros Hq Hc Hs item w'. subst w'.
  split; [apply addToQueue_view|].
  assert (E : after (addToQueue v u st (Json data) now) w
              = after (playNext false) (pushed item w)).
  { unfold after. now rewrite addToQueue_calls_playNext by assumption. }
  rewrite E. clear E.
  assert (Hthis : this (pushed item w) = push item (this w)) by now destruct w.
  assert (Hcalls : calls (pushed item w) = calls w) by now destruct w.
  rewrite playNext_calls. destruct (playNext_view false (pushed item w)) as [-> _].
  rewrite Hthis, Hcalls.
  assert (Hx : exists x, currentVideo (advanced (push item (this w))) = Some x
                         /\ In x (queue (this w) ++ [item])
                         /\ (queue (this w) = [] -> x = item)).
  { destruct (preservePlaylist (this w)) eqn:Ep.
    - destruct (advanced_in_range (push item (this w)) Hs) as [k [x [_ [Hr [Hk [Hv _]]]]]].
      + cbn. intro E. now apply app_eq_nil in E.
      + exact Ep.
      + exists x. split; [exact Hv|]. split; [exact (at_Index_In _ _ _ Hk)|].
        intros E. apply at_Index_In in Hk. cbn [queue push set_queue] in Hk.
        rewrite E in Hk. destruct Hk as [<- | []]. reflexivity.
    - unfold advanced. cbn [queue push set_queue preservePlaylist]. rewrite Ep.
      destruct (queue (this w)) as [|y q] eqn:Eq; cbn [app].
      + exists item. repeat split. now left.
      + exists y. split; [reflexivity|]. split; [now left|discriminate]. }
  destruct Hx as [x [Hv [Hin He]]]. exists x. rewrite Hv.
  repeat split; try assumption.
  intros Hpl. cbn [queue push set_queue player autoplay].
  rewrite Hpl. destruct (queue (this w) ++ [item]) eqn:E; [now apply app_eq_nil in E|].
  reflexivity.
Qed.

(** ** Instances of the further properties *)

Ltac facts :=
  repeat split; try exact I; try reflexivity; try (intro; discriminate);
  try (left; reflexivity); try (right; left; reflexivity);
  try (right; right; left; reflexivity).

Lemma X1_link_is_part_of_text_witness :
  extractYoutubeUrl "look https://youtu.be/AAAAAAAAAAA?t=1m5s now"
  = Some "https://youtu.be/AAAAAAAAAAA?t=1m5s"%string
  /\ substring "https://youtu.be/AAAAAAAAAAA?t=1m5s"
       "look https://youtu.be/AAAAAAAAAAA?t=1m5s now".
Proof.
  assert (H : extractYoutubeUrl "look https://youtu.be/AAAAAAAAAAA?t=1m5s now"
              = Some "https://youtu.be/AAAAAAAAAAA?t=1m5s"%string)
    by (vm_compute; reflexivity).
  split; [exact H|]. exact (X1_link_is_part_of_text _ _ H).
Defined.

Lemma X2_identifier_shape_witness :
  extractVideoId "https://www.youtube.com/watch?v=BBBBBBBBBBB&t=90"
  = Some "BBBBBBBBBBB"%string
  /\ String.length "BBBBBBBBBBB" = 11%nat
  /\ forallb id_char (list_ascii_of_string "BBBBBBBBBBB") = true
  /\ substring "BBBBBBBBBBB" "https://www.youtube.com/watch?v=BBBBBBBBBBB&t=90".
Proof.
  assert (H : extractVideoId "https://www.youtube.com/watch?v=BBBBBBBBBBB&t=90"
              = Some "BBBBBBBBBBB"%string)
    by (vm_compute; reflexivity).
  split; [exact H|]. exact (X2_identifier_shape _ _ H).
Defined.

Lemma X3_queue_stays_tidy_witness :
  tidy (this blank)
  /\ each (fun e w => on_items e w /\ finds_current e w) busy_session blank
  /\ tidy (this (play busy_session blank)).
Proof.
  assert (H1 : tidy (this blank)) by (split; [constructor|now left]).
  assert (H2 : each (fun e w => on_items e w /\ finds_current e w) busy_session blank)
    by (vm_compute; facts).
  split; [exact H1|]. split; [exact H2|].
  exact (X3_queue_stays_tidy busy_session blank H1 H2).
Defined.

Lemma X4_index_stays_on_current_video_witness :
  aligned (this blank)
  /\ each (fun e w => on_items e w /\ keeps_place e) steady_session blank
  /\ aligned (this (play steady_session blank))
  /\ each completes_if_ready steady_session blank.
Proof.
  assert (H1 : aligned (this blank)) by (split; [now left|discriminate]).
  assert (H2 : each (fun e w => on_items e w /\ keeps_place e) steady_session blank)
    by (vm_compute; facts).
  split; [exact H1|]. split; [exact H2|].
  exact (X4_index_stays_on_current_video steady_session blank H1 H2).
Defined.

Lemma X5_preserve_mode_goes_round_witness :
  currentVideoIndex (this (repeated 5 (playNext true)
                             (playlist [item_a; item_b; item_c] (INum 1))))
  = INum ((1 + 5) mod 3)
  /\ currentVideoIndex (this (repeated 3 (playNext true)
                                (playlist [item_a; item_b; item_c] (INum 1))))
     = INum 1.
Proof.
  assert (H1 : preservePlaylist (this (playlist [item_a; item_b; item_c] (INum 1))) = true)
    by reflexivity.
  assert (H2 : currentVideoIndex (this (playlist [item_a; item_b; item_c] (INum 1)))
               = INum 1) by reflexivity.
  assert (H3 : in_range (queue (this (playlist [item_a; item_b; item_c] (INum 1)))) 1)
    by (vm_compute; facts).
  pose proof (X5_preserve_mode_goes_round true
                (playlist [item_a; item_b; item_c] (INum 1)) 1 5 H1 H2 H3) as H.
  split; [exact (proj1 (proj2 H))|exact (proj2 (proj2 (proj2 H)))].
Defined.

Lemma X6_previous_and_next_undo_each_other_witness :
  currentVideoIndex
    (this (after previous (after (playNext false)
                             (playlist [item_a; item_b; item_c] (INum 2)))))
  = INum 2
  /\ currentVideoIndex
       (this (after (playNext false) (after previous
                                        (playlist [item_a; item_b; item_c] (INum 0)))))
     = INum 0.
Proof.
  assert (P : forall k, player (this (playlist [item_a; item_b; item_c] (INum k)))
                        <> NoPlayer) by (intros k; discriminate).
  assert (R2 : in_range (queue (this (playlist [item_a; item_b; item_c] (INum 2)))) 2)
    by (vm_compute; facts).
  assert (R0 : in_range (queue (this (playlist [item_a; item_b; item_c] (INum 0)))) 0)
    by (vm_compute; facts).
  split.
  - exact (proj1 (proj2 (X6_previous_and_next_undo_each_other false
                           (playlist [item_a; item_b; item_c] (INum 2)) 2
                           eq_refl eq_refl R2 (P 2)))).
  - exact (proj1 (proj2 (proj2 (proj2 (proj2
             (X6_previous_and_next_undo_each_other false
                (playlist [item_a; item_b; item_c] (INum 0)) 0
                eq_refl eq_refl R0 (P 0))))))).
Defined.

Lemma X7_consume_mode_takes_in_order_witness :
  currentVideo (this (repeated 2 (playNext true) consume_list)) = Some item_b
  /\ queue (this (repeated 2 (playNext true) consume_list)) = [item_c]
  /\ currentVideoIndex (this (repeated 2 (playNext true) consume_list)) = INull
  /\ calls (repeated 2 (playNext true) consume_list)
     = [loadVideoById "AAAAAAAAAAA" 0; loadVideoById "BBBBBBBBBBB" 0].
Proof.
  assert (H3 : (1 < length (queue (this consume_list)))%nat) by (vm_compute; facts).
  exact (X7_consume_mode_takes_in_order true consume_list 1 eq_refl eq_refl H3).
Defined.

Lemma X8_stored_record_follows_state_witness :
  tidy (this (after saveState blank))
  /\ synced (after saveState blank)
  /\ each (fun e w => on_items e w /\ saves e w) saved_session (after saveState blank)
  /\ synced (play saved_session (after saveState blank)).
Proof.
  assert (H1 : tidy (this (after saveState blank))) by (split; [constructor|now left]).
  assert (H2 : synced (after saveState blank)) by reflexivity.
  assert (H3 : each (fun e w => on_items e w /\ saves e w) saved_session
                 (after saveState blank)) by (vm_compute; facts).
  split; [exact H1|]. split; [exact H2|]. split; [exact H3|].
  exact (X8_stored_record_follows_state saved_session _ H1 H2 H3).
Defined.

Lemma X10_mode_switch_finds_index_again_witness :
  currentVideoIndex
    (this (after (togglePreservePlaylist true)
             (after (togglePreservePlaylist false)
                (playlist [item_a; item_b; item_c] (INum 1)))))
  = INum 1.
Proof.
  assert (H1 : NoDup (ids (queue (this (playlist [item_a; item_b; item_c] (INum 1))))))
    by (vm_compute; repeat constructor; cbn; intuition discriminate).
  exact (proj1 (proj2 (proj2
           (X10_mode_switch_finds_index_again (playlist [item_a; item_b; item_c] (INum 1))
              1 item_b H1 eq_refl eq_refl)))).
Defined.

Lemma X11_identifiers_stay_well_formed_witness :
  ids_ok (this blank)
  /\ each given_id_ok busy_session blank
  /\ ids_ok (this (play busy_session blank)).
Proof.
  assert (H1 : ids_ok (this blank)) by (split; [constructor|discriminate]).
  assert (H2 : each given_id_ok busy_session blank) by (vm_compute; facts).
  split; [exact H1|]. split; [exact H2|].
  exact (X11_identifiers_stay_well_formed busy_session blank H1 H2).
Defined.


Lemma X13_failed_start_queues_twice_witness :
  queue (this (after (addToQueue "AAAAAAAAAAA" None None
                        (Json {| nd_title := None; author_name := None;
                                 thumbnail_url := None |}) 1000) keyless))
  = [item_of "AAAAAAAAAAA" None None
       {| nd_title := None; author_name := None; thumbnail_url := None |} 1000;
     placeholder "AAAAAAAAAAA" None None 1000].
Proof.
  exact (proj1 (proj2 (X13_failed_start_queues_twice "AAAAAAAAAAA" None None
           {| nd_title := None; author_name := None; thumbnail_url := None |} 1000 keyless
           eq_refl eq_refl eq_refl eq_refl (or_introl eq_refl)))).
Defined.

Lemma X14_remove_leaves_index_behind_witness :
  at_Index (queue (this (after (removeFromQueue 0)
                           (playlist [item_a; item_b; item_c] (INum 1)))))
           (currentVideoIndex (this (after (removeFromQueue 0)
                                       (playlist [item_a; item_b; item_c] (INum 1)))))
  = Some item_c
  /\ currentVideo (this (after (removeFromQueue 0)
                           (playlist [item_a; item_b; item_c] (INum 1))))
     = Some item_b.
Proof.
  assert (H1 : NoDup (ids (queue (this (playlist [item_a; item_b; item_c] (INum 1))))))
    by (vm_compute; repeat constructor; cbn; intuition discriminate).
  assert (H5 : 0 <= 0 < 1) by lia.
  pose proof (X14_remove_leaves_index_behind (playlist [item_a; item_b; item_c] (INum 1))
                0 1 item_b H1 eq_refl eq_refl eq_refl H5) as H.
  split; [exact (proj1 (proj2 (proj2 H)))|exact (proj1 H)].
Defined.

Lemma X18_arrival_starts_a_video_witness :
  currentVideo (this (after (addToQueue "AAAAAAAAAAA" (Some "viewer"%string) None
                               (answer "A") 1000) blank))
  = Some loaded_a.
Proof.
  assert (H3 : sane (currentVideoIndex (this blank))) by now left.
  destruct (X18_arrival_starts_a_video "AAAAAAAAAAA" (Some "viewer"%string) None
              {| nd_title := Some "A"%string; author_name := Some "Author"%string;
                 thumbnail_url := None |} 1000 blank eq_refl eq_refl H3)
    as [_ [x [Hx [_ [He _]]]]].
  rewrite (He eq_refl) in Hx. exact Hx.
Defined.
